(** * Verification of the Factorial response mocker
    (mocker_firefox_extension/background.js)

    The extension registers [mocker] on [webRequest.onBeforeRequest]; for every
    request whose URL is not in [NOT_INTERESTING_URLS] it opens a response
    stream filter and installs an [ondata] handler that decodes the chunk,
    parses it as JSON, dispatches on the URL to a mutation function, and writes
    the re-serialised value (or, on any exception, the decoded text) back.

    The development has three layers:
    - the platform the script runs on (UTF-8 [TextDecoder]/[TextEncoder],
      [JSON.parse]/[JSON.stringify], property access, [console.log], the
      stream filter), modelled after the WHATWG Encoding Standard and
      ECMA-262/ECMA-404;
    - the script itself, function by function, in a small writer/exception
      monad whose trace records every platform call;
    - the properties.

    Numbers are IEEE 754 doubles, held exactly: [JSON.parse] rounds a
    literal to the nearest double (to infinity beyond the range), and
    [JSON.stringify] prints the shortest decimal that reads back as the
    same double, [null] for an infinity.  The platform is modelled as the
    standards define it; what an engine adds of its own (a bound on the
    stack that [JSON.stringify] may use on a deeply nested value, a bound on
    memory) is not part of it. *)

From Stdlib Require Import ZArith List Bool Lia Sorted String Ascii.
Import ListNotations.
Local Open Scope Z_scope.

(* ===================================================================== *)
(** ** JavaScript strings *)
(* ===================================================================== *)

(** A JavaScript string is a sequence of UTF-16 code units. *)
Definition jsstring := list Z.

(** Bytes of the response stream ([Uint8Array] contents). *)
Definition bytes := list Z.

(** Source-code string literals (all ASCII in this script). *)
Definition lit (s : string) : jsstring :=
  map (fun a => Z.of_N (N_of_ascii a)) (list_ascii_of_string s).

Fixpoint str_eqb (a b : jsstring) : bool :=
  match a, b with
  | [], [] => true
  | x :: a', y :: b' => (x =? y) && str_eqb a' b'
  | _, _ => false
  end.

(** [Array.prototype.includes] on an array of strings (SameValueZero on
    strings is equality of the code unit sequences). *)
Definition includes (l : list jsstring) (s : jsstring) : bool :=
  existsb (str_eqb s) l.

(* ===================================================================== *)
(** ** UTF-8 codec (WHATWG Encoding Standard) *)
(* ===================================================================== *)

Module Utf8.

(** State of the UTF-8 decoder: the code point under construction, the
    continuation bytes seen and needed, the admissible range of the next
    continuation byte, and the [BOM seen] flag of [TextDecoder]. *)
Record dstate := mkD {
  d_cp : Z;
  d_seen : Z;
  d_needed : Z;
  d_lower : Z;
  d_upper : Z;
  d_bom_seen : bool
}.

Definition init : dstate := mkD 0 0 0 0x80 0xBF false.

Definition reset (st : dstate) : dstate :=
  mkD 0 0 0 0x80 0xBF (d_bom_seen st).

Definition REPLACEMENT : Z := 0xFFFD.

(** The handler when no continuation byte is pending. *)
Definition lead (st : dstate) (b : Z) : dstate * list Z :=
  if b <=? 0x7F then (st, [b])
  else if (0xC2 <=? b) && (b <=? 0xDF) then
    (mkD (Z.land b 0x1F) 0 1 0x80 0xBF (d_bom_seen st), [])
  else if (0xE0 <=? b) && (b <=? 0xEF) then
    (mkD (Z.land b 0xF) 0 2
         (if b =? 0xE0 then 0xA0 else 0x80)
         (if b =? 0xED then 0x9F else 0xBF) (d_bom_seen st), [])
  else if (0xF0 <=? b) && (b <=? 0xF4) then
    (mkD (Z.land b 0x7) 0 3
         (if b =? 0xF0 then 0x90 else 0x80)
         (if b =? 0xF4 then 0x8F else 0xBF) (d_bom_seen st), [])
  else (st, [REPLACEMENT]).

(** One byte through the decoder; the result is the code points emitted.
    A byte outside the admissible range ends the pending sequence with an
    error and is then processed again from the reset state. *)
Definition step (st : dstate) (b : Z) : dstate * list Z :=
  if d_needed st =? 0 then lead st b
  else if negb ((d_lower st <=? b) && (b <=? d_upper st)) then
    let (st', out) := lead (reset st) b in (st', REPLACEMENT :: out)
  else
    let cp := Z.lor (Z.shiftl (d_cp st) 6) (Z.land b 0x3F) in
    let seen := d_seen st + 1 in
    if seen =? d_needed st then (reset st, [cp])
    else (mkD cp seen (d_needed st) 0x80 0xBF (d_bom_seen st), []).

Fixpoint run (st : dstate) (bs : bytes) : dstate * list Z :=
  match bs with
  | [] => (st, [])
  | b :: bs' =>
      let (st1, o1) := step st b in
      let (st2, o2) := run st1 bs' in
      (st2, o1 ++ o2)
  end.

(** The first code point of the stream is dropped when it is U+FEFF
    ([ignoreBOM] is false by default). *)
Definition strip_bom (st : dstate) (cps : list Z) : dstate * list Z :=
  if d_bom_seen st then (st, cps)
  else match cps with
       | [] => (st, [])
       | c :: cps' =>
           (mkD (d_cp st) (d_seen st) (d_needed st) (d_lower st) (d_upper st) true,
            if c =? 0xFEFF then cps' else cps)
       end.

(** Code points to UTF-16 code units. *)
Definition units_of_cp (c : Z) : list Z :=
  if c <? 0x10000 then [c]
  else [0xD800 + Z.shiftr (c - 0x10000) 10; 0xDC00 + Z.land (c - 0x10000) 0x3FF].

Definition to_utf16 (cps : list Z) : jsstring := flat_map units_of_cp cps.

Definition is_high (u : Z) : bool := (0xD800 <=? u) && (u <=? 0xDBFF).
Definition is_low (u : Z) : bool := (0xDC00 <=? u) && (u <=? 0xDFFF).

(** Code units to scalar values: surrogate pairs are combined, a lone
    surrogate becomes U+FFFD (conversion to a USVString). *)
Fixpoint of_utf16 (s : jsstring) : list Z :=
  match s with
  | [] => []
  | u :: s' =>
      if is_high u then
        match s' with
        | v :: s'' =>
            if is_low v
            then (0x10000 + Z.shiftl (u - 0xD800) 10 + (v - 0xDC00)) :: of_utf16 s''
            else REPLACEMENT :: of_utf16 s'
        | [] => [REPLACEMENT]
        end
      else if is_low u then REPLACEMENT :: of_utf16 s'
      else u :: of_utf16 s'
  end.

(** The UTF-8 encoder for one scalar value. *)
Definition cont (c : Z) (k : Z) : Z :=
  Z.lor 0x80 (Z.land (Z.shiftr c (6 * k)) 0x3F).

Definition encode_cp (c : Z) : bytes :=
  if c <=? 0x7F then [c]
  else if c <=? 0x7FF then [Z.shiftr c 6 + 0xC0; cont c 0]
  else if c <=? 0xFFFF then [Z.shiftr c 12 + 0xE0; cont c 1; cont c 0]
  else [Z.shiftr c 18 + 0xF0; cont c 2; cont c 1; cont c 0].

Definition encode_cps (cps : list Z) : bytes := flat_map encode_cp cps.

End Utf8.

(** [decoder.decode(chunk, { stream: true })]: the bytes of an incomplete
    trailing sequence stay in the decoder state for the next call. *)
Definition TextDecoder_decode_stream (st : Utf8.dstate) (chunk : bytes)
  : Utf8.dstate * jsstring :=
  let (st1, cps) := Utf8.run st chunk in
  let (st2, cps') := Utf8.strip_bom st1 cps in
  (st2, Utf8.to_utf16 cps').

(** [encoder.encode(str)]. *)
Definition TextEncoder_encode (s : jsstring) : bytes :=
  Utf8.encode_cps (Utf8.of_utf16 s).

(** JSON texts are written with ['] standing for the double quote. *)
Definition qlit (s : string) : jsstring :=
  map (fun c => if c =? 39 then 34 else c) (lit s).

(* ===================================================================== *)
(** ** Numbers (ECMA-262 sec. 6.1.6.1, IEEE 754 binary64) *)
(* ===================================================================== *)

(** A Number value other than NaN, which no JSON text denotes and the
    script never computes.  A finite Number is a rational [m * 2^e] with
    [|m| < 2^53] and [-1074 <= e]; it is held exactly, in lowest terms: as
    the integer it is, or as an odd numerator over a power of two.  Zero has
    two signs; [Int 0] is [+0]. *)
Inductive number :=
| Int (n : Z)                  (* an integer-valued Number *)
| Frac (m : Z) (e : positive)  (* [m / 2^e], [m] odd *)
| NegZero                      (* [-0] *)
| Inf (neg : bool).            (* [Infinity], [-Infinity] *)
Coercion Int : Z >-> number.

Module Num.

(** The Number values among the terms of [number]. *)
Definition representable (x : number) : Prop :=
  match x with
  | Int n => exists a b, n = a * 2 ^ b /\ 0 <= b /\ Z.abs a < 2 ^ 53 /\
                         Z.abs n < 2 ^ 1024
  | Frac m e => Z.odd m = true /\ Z.abs m < 2 ^ 53 /\ Zpos e <= 1074
  | NegZero | Inf _ => True
  end.

(** The Numbers that a JSON text carries: [JSON.stringify] prints an
    infinity as [null] and [-0] as [0]. *)
Definition portable (x : number) : bool :=
  match x with
  | Int _ | Frac _ _ => true
  | NegZero | Inf _ => false
  end.

Definition eqb (x y : number) : bool :=
  match x, y with
  | Int n, Int n' => n =? n'
  | Frac m e, Frac m' e' => (m =? m') && (e =? e')%positive
  | NegZero, NegZero => true
  | Inf s, Inf s' => Bool.eqb s s'
  | _, _ => false
  end.

Definition is_zero (x : number) : bool :=
  match x with
  | Int n => n =? 0
  | NegZero => true
  | _ => false
  end.

Definition negative (x : number) : bool :=
  match x with
  | Int n => n <? 0
  | Frac m _ => m <? 0
  | NegZero => true
  | Inf s => s
  end.

Definition negate (x : number) : number :=
  match x with
  | Int n => if n =? 0 then NegZero else Int (- n)
  | Frac m e => Frac (- m) e
  | NegZero => Int 0
  | Inf s => Inf (negb s)
  end.

Definition magnitude (x : number) : number :=
  if negative x then negate x else x.

(** *** The Number value for a real (round to nearest, ties to even) *)

(** The integer nearest to [num / den]; of two that are as near, the even
    one. *)
Definition round_half_even (num den : Z) : Z :=
  let m := num / den in
  let r := num mod den in
  if 2 * r <? den then m
  else if den <? 2 * r then m + 1
  else if Z.even m then m else m + 1.

(** [m / 2^e] in lowest terms. *)
Fixpoint reduce (m : Z) (e : nat) : number :=
  match e with
  | O => Int m
  | S e' => if Z.even m then reduce (m / 2) e' else Frac m (Pos.of_succ_nat e')
  end.

(** The Number value for [p / q], [0 <= p], [0 < q].  In units of
    [2^-1074], the least positive Number, the real is [N / q]; a Number has
    53 significant bits, so the real is rounded to a multiple of [2^sh],
    where [sh] is the number of bits by which its integer part exceeds 53.
    A result of [2^1024] or more is [Infinity]. *)
Definition of_ratio (p q : Z) : number :=
  let N := p * 2 ^ 1074 in
  let sh := Z.max (Z.log2 (N / q) - 52) 0 in
  let m := round_half_even N (q * 2 ^ sh) in
  if 1074 <=? sh then
    let n := m * 2 ^ (sh - 1074) in
    if n <? 2 ^ 1024 then Int n else Inf false
  else reduce m (Z.to_nat (1074 - sh)).

(** The Number value for the decimal [(-1)^neg * m * 10^e], [0 <= m]. *)
Definition of_decimal (neg : bool) (m e : Z) : number :=
  let x := of_ratio (m * 10 ^ Z.max e 0) (10 ^ Z.max (- e) 0) in
  if neg then negate x else x.

(** *** Number::toString (radix 10) *)

Fixpoint digits_aux (fuel : nat) (n : Z) (acc : list Z) : list Z :=
  match fuel with
  | O => acc
  | S f => if n <? 10 then (48 + n) :: acc
           else digits_aux f (n / 10) ((48 + n mod 10) :: acc)
  end.

(** Decimal digits of a non-negative integer. *)
Definition digits (n : Z) : list Z := digits_aux (S (Z.to_nat (Z.log2 n))) n [].

Definition ndigits (n : Z) : Z := Z.of_nat (List.length (digits n)).

(** The magnitude of a finite Number as a fraction. *)
Definition ratio (x : number) : Z * Z :=
  match x with
  | Int n => (Z.abs n, 1)
  | Frac m e => (Z.abs m, 2 ^ Zpos e)
  | _ => (0, 1)
  end.

(** The [n] with [10^(n-1) <= p / q < 10^n], for [p / q] not below the
    least positive Number. *)
Definition decimal_exponent (p q : Z) : Z :=
  if q <=? p then ndigits (p / q) else ndigits (p * 10 ^ 340 / q) - 340.

(** A candidate [(s, n)]: the digits of [s], with the decimal point after
    the [n]-th.  It is valid for [x] when the Number value for
    [s * 10^(n-k)], [k] the number of digits of [s], is [x]. *)
Definition valid (x : number) (c : Z * Z) : bool :=
  eqb (of_decimal false (fst c) (snd c - ndigits (fst c))) x.

(** The valid candidate of [k] digits, if there is one: it is the
    [k]-digit decimal just below [p / q] or the one just above; when both
    are valid, the nearer one, and the even one when they are as near. *)
Definition try_digits (x : number) (p q n k : Z) : option (Z * Z) :=
  let num := p * 10 ^ Z.max (k - n) 0 in
  let den := q * 10 ^ Z.max (n - k) 0 in
  let lo := (num / den, n) in
  let hi := if num / den + 1 =? 10 ^ k then (10 ^ (k - 1), n + 1)
            else (num / den + 1, n) in
  let r := num mod den in
  if valid x lo && valid x hi then
    if 2 * r <? den then Some lo
    else if den <? 2 * r then Some hi
    else if Z.even (fst lo) then Some lo else Some hi
  else if valid x lo then Some lo
  else if valid x hi then Some hi
  else None.

(** The decimal expansion of [p / q], [q] a power of two: it ends. *)
Definition exact (p q : Z) : Z * Z :=
  let j := Z.log2 q in
  (p * 5 ^ j, ndigits (p * 5 ^ j) - j).

Fixpoint shortest_from (fuel : nat) (x : number) (p q n k : Z) : Z * Z :=
  match fuel with
  | O => exact p q
  | S f => match try_digits x p q n k with
           | Some c => c
           | None => shortest_from f x p q n (k + 1)
           end
  end.

(** Step 5 of Number::toString: the [(s, n)] with the fewest digits whose
    Number value is [x].  Seventeen digits tell any two doubles apart. *)
Definition shortest (x : number) : Z * Z :=
  let (p, q) := ratio x in
  shortest_from 17 (magnitude x) p q (decimal_exponent p q) 1.

(** Steps 7 to 11 of Number::toString. *)
Definition format (s n : Z) : jsstring :=
  let ds := digits s in
  let k := Z.of_nat (List.length ds) in
  if (k <=? n) && (n <=? 21) then ds ++ repeat 48 (Z.to_nat (n - k))
  else if (0 <? n) && (n <=? 21) then
    firstn (Z.to_nat n) ds ++ 46 :: skipn (Z.to_nat n) ds
  else if (-6 <? n) && (n <=? 0) then
    48 :: 46 :: repeat 48 (Z.to_nat (- n)) ++ ds
  else
    let e := n - 1 in
    let ex := 101 :: (if e <? 0 then 45 else 43) :: digits (Z.abs e) in
    match ds with
    | [] => ex
    | [d] => d :: ex
    | d :: ds' => d :: 46 :: ds' ++ ex
    end.

Definition to_string (x : number) : jsstring :=
  match x with
  | Inf false => lit "Infinity"
  | Inf true => lit "-Infinity"
  | _ =>
      if is_zero x then [48]
      else let (s, n) := shortest x in
           (if negative x then [45] else []) ++ format s n
  end.

End Num.

(* ===================================================================== *)
(** ** Values *)
(* ===================================================================== *)

(** The values [JSON.parse] returns and [JSON.stringify] prints: an object
    is its own properties in enumeration order, an array is its elements. *)
#[local] Unset Elimination Schemes.
Inductive value :=
| JNull
| JBool (b : bool)
| JNum (n : number)
| JStr (s : jsstring)
| JArr (elems : list value)
| JObj (fields : list (jsstring * value)).
#[local] Set Elimination Schemes.

(** A JavaScript value of the script: [None] is [undefined]. *)
Definition jsval := option value.

Inductive error := TypeError | SyntaxError.

Inductive completion (A : Type) :=
| Normal (a : A)
| Throw (e : error).
Arguments Normal {A} a.
Arguments Throw {A} e.

Section Induction.
Variable P : value -> Prop.
Hypothesis Hnull : P JNull.
Hypothesis Hbool : forall b, P (JBool b).
Hypothesis Hnum : forall n, P (JNum n).
Hypothesis Hstr : forall s, P (JStr s).
Hypothesis Harr : forall es, Forall P es -> P (JArr es).
Hypothesis Hobj : forall fs, Forall (fun kv => P (snd kv)) fs -> P (JObj fs).

Fixpoint value_nested_ind (v : value) : P v :=
    let fix all (l : list value) : Forall P l :=
      match l with
      | [] => Forall_nil _
      | x :: l' => Forall_cons x (value_nested_ind x) (all l')
      end in
    let fix alls (l : list (jsstring * value)) : Forall (fun kv => P (snd kv)) l :=
      match l with
      | [] => Forall_nil _
      | kv :: l' => Forall_cons kv (value_nested_ind (snd kv)) (alls l')
      end in
    match v with
    | JNull => Hnull
    | JBool b => Hbool b
    | JNum n => Hnum n
    | JStr s => Hstr s
    | JArr es => Harr es (all es)
    | JObj fs => Hobj fs (alls fs)
    end.
End Induction.

(* ===================================================================== *)
(** ** Ordinary objects: own properties in enumeration order *)
(* ===================================================================== *)

Module Obj.

Definition is_digit (c : Z) : bool := (48 <=? c) && (c <=? 57).

Definition digits_value (ds : list Z) : Z :=
  fold_left (fun a c => 10 * a + (c - 48)) ds 0.

(** An array index is the canonical decimal form of an integer below
    [2^32 - 1]; such keys enumerate first, in ascending numeric order. *)
Definition array_index (k : jsstring) : option Z :=
  match k with
  | [] => None
  | c :: r =>
      if forallb is_digit k && (negb (c =? 48) || match r with [] => true | _ => false end)
         && (Z.of_nat (List.length k) <=? 10)
      then let n := digits_value k in
           if n <? 2 ^ 32 - 1 then Some n else None
      else None
  end.

Fixpoint assoc {A} (k : jsstring) (l : list (jsstring * A)) : option A :=
  match l with
  | [] => None
  | (k', v) :: l' => if str_eqb k k' then Some v else assoc k l'
  end.

Definition has {A} (k : jsstring) (l : list (jsstring * A)) : bool :=
  match assoc k l with Some _ => true | None => false end.

(** Overwrite the value of an existing property, keeping its place. *)
Fixpoint replace {A} (k : jsstring) (v : A) (l : list (jsstring * A)) :=
  match l with
  | [] => []
  | (k', v') :: l' =>
      if str_eqb k k' then (k', v) :: l' else (k', v') :: replace k v l'
  end.

Fixpoint insert_index {A} (i : Z) (k : jsstring) (v : A) (l : list (jsstring * A)) :=
  match l with
  | [] => [(k, v)]
  | (k', v') :: l' =>
      match array_index k' with
      | Some j => if j <? i then (k', v') :: insert_index i k v l'
                  else (k, v) :: l
      | None => (k, v) :: l
      end
  end.

(** [CreateDataProperty] / ordinary [[Set]] on own data properties. *)
Definition set {A} (k : jsstring) (v : A) (l : list (jsstring * A)) :=
  if has k l then replace k v l
  else match array_index k with
       | Some i => insert_index i k v l
       | None => l ++ [(k, v)]
       end.

End Obj.

(* ===================================================================== *)
(** ** Property access, ToBoolean, ToString *)
(* ===================================================================== *)

(** [base.k] for the property names this script reads ([permissions],
    [attendance], [payroll], [policy_key], [authorize], [target_id],
    [target_resource]): none of them is an array index, [length], or a name
    inherited from a built-in prototype, so only an own property of an
    object can answer.  Reading a property of [null] throws a TypeError. *)
Definition get_prop (base : value) (k : jsstring) : completion jsval :=
  match base with
  | JNull => Throw TypeError
  | JObj fs => Normal (Obj.assoc k fs)
  | JArr _ | JBool _ | JNum _ | JStr _ => Normal None
  end.

(** [base?.k]. *)
Definition get_prop_opt (base : jsval) (k : jsstring) : completion jsval :=
  match base with
  | None | Some JNull => Normal None
  | Some b => get_prop b k
  end.

(** [base.k = v] in a classic (non-strict) script, for the names this script
    writes ([approve], [edit_supplements], [authorize]): the property is set
    on an object, the assignment to a property of a primitive is silently
    dropped, and [null] throws.  An array takes the named property without
    gaining an element: neither [for ... of], nor [JSON.stringify], nor the
    truthiness of the array sees it, and the script never reads it back, so
    the array, which the model identifies with its elements, stays as it
    is. *)
Definition set_prop (base : value) (k : jsstring) (v : value) : completion value :=
  match base with
  | JNull => Throw TypeError
  | JObj fs => Normal (JObj (Obj.set k v fs))
  | JArr _ | JBool _ | JNum _ | JStr _ => Normal base
  end.

(** The object reached through [base.k] has been mutated in place: the
    functional model writes the new state of that object back where it
    hangs. *)
Definition put_back (base : value) (k : jsstring) (child : value) : value :=
  match base with
  | JObj fs => JObj (Obj.replace k child fs)
  | _ => base
  end.

(** The statement [base.p1.p2...pn.k = v]. *)
Fixpoint assign_path (base : value) (path : list jsstring) (k : jsstring) (v : value)
  : completion value :=
  match path with
  | [] => set_prop base k v
  | p :: path' =>
      match get_prop base p with
      | Throw e => Throw e
      | Normal None => Throw TypeError
      | Normal (Some child) =>
          match assign_path child path' k v with
          | Throw e => Throw e
          | Normal child' => Normal (put_back base p child')
          end
      end
  end.

(** ToBoolean. *)
Definition truthy (x : jsval) : bool :=
  match x with
  | None => false
  | Some JNull => false
  | Some (JBool b) => b
  | Some (JNum n) => negb (Num.is_zero n)
  | Some (JStr s) => match s with [] => false | _ => true end
  | Some (JArr _) | Some (JObj _) => true
  end.

(** ToString, as the template literal applies it.  An object whose own
    [toString] property shadows the inherited method has no primitive value
    (a value read from JSON is never callable), so the conversion throws;
    [Array.prototype.toString] joins the elements, printing [null] as the
    empty string. *)
Fixpoint to_string_value (v : value) : completion jsstring :=
  match v with
  | JNull => Normal (lit "null")
  | JBool true => Normal (lit "true")
  | JBool false => Normal (lit "false")
  | JNum n => Normal (Num.to_string n)
  | JStr s => Normal s
  | JObj fs =>
      if Obj.has (lit "toString") fs then Throw TypeError
      else Normal (lit "[object Object]")
  | JArr es =>
        (fix join (l : list value) : completion jsstring :=
           match l with
           | [] => Normal []
           | x :: l' =>
               match (match x with JNull => Normal [] | _ => to_string_value x end) with
               | Throw e => Throw e
               | Normal s =>
                   match l' with
                   | [] => Normal s
                   | _ => match join l' with
                          | Throw e => Throw e
                          | Normal r => Normal (s ++ lit "," ++ r)
                          end
                   end
               end
           end) es
  end.

Definition to_string (x : jsval) : completion jsstring :=
  match x with
  | None => Normal (lit "undefined")
  | Some v => to_string_value v
  end.

(* ===================================================================== *)
(** ** JSON.stringify and JSON.parse (ECMA-262 sec. 25.5, ECMA-404) *)
(* ===================================================================== *)

Module Json.

Definition hex_digit (d : Z) : Z := if d <? 10 then 48 + d else 87 + d.

(** [\uXXXX] with lowercase hexadecimal digits. *)
Definition unicode_escape (u : Z) : jsstring :=
  [92; 117; hex_digit (u / 4096); hex_digit ((u / 256) mod 16);
   hex_digit ((u / 16) mod 16); hex_digit (u mod 16)].

Definition escape_unit (u : Z) : jsstring :=
  if u =? 8 then [92; 98]
  else if u =? 9 then [92; 116]
  else if u =? 10 then [92; 110]
  else if u =? 12 then [92; 102]
  else if u =? 13 then [92; 114]
  else if u =? 34 then [92; 34]
  else if u =? 92 then [92; 92]
  else if u <? 32 then unicode_escape u
  else [u].

(** QuoteJSONString without the enclosing quotes: a surrogate pair is
    copied, a lone surrogate is escaped. *)
Fixpoint quote_body (s : jsstring) : jsstring :=
  match s with
  | [] => []
  | u :: s' =>
      if Utf8.is_high u then
        match s' with
        | v :: s'' =>
            if Utf8.is_low v then u :: v :: quote_body s''
            else unicode_escape u ++ quote_body s'
        | [] => unicode_escape u
        end
      else if Utf8.is_low u then unicode_escape u ++ quote_body s'
      else escape_unit u ++ quote_body s'
  end.

Definition quote (s : jsstring) : jsstring := 34 :: quote_body s ++ [34].

(** [JSON.stringify(v)] with no replacer and no indentation; a Number that
    is not finite is printed as [null]. *)
Fixpoint stringify (v : value) : jsstring :=
  match v with
  | JNull => lit "null"
  | JBool true => lit "true"
  | JBool false => lit "false"
  | JNum (Inf _) => lit "null"
  | JNum n => Num.to_string n
  | JStr s => quote s
  | JArr es =>
      91 :: (fix elems (l : list value) : jsstring :=
               match l with
               | [] => [93]
               | x :: l' =>
                   stringify x ++
                   match l' with
                   | [] => [93]
                   | _ => 44 :: elems l'
                   end
               end) es
  | JObj fs =>
      123 :: (fix members (l : list (jsstring * value)) : jsstring :=
                match l with
                | [] => [125]
                | (k, x) :: l' =>
                    quote k ++ 58 :: stringify x ++
                    match l' with
                    | [] => [125]
                    | _ => 44 :: members l'
                    end
                end) fs
  end.

(** *** The parser *)

(** Outcome of a call of the parser: a result, a SyntaxError, or [PFuel]
    when the recursion was cut short.  [JSON.parse] never answers [PFuel]
    ([FuelFacts.parse_total]). *)
Inductive pres (A : Type) :=
| POk (a : A)
| PSyntax
| PFuel.
Arguments POk {A} a.
Arguments PSyntax {A}.
Arguments PFuel {A}.

Definition is_ws (c : Z) : bool :=
  (c =? 32) || (c =? 9) || (c =? 10) || (c =? 13).

Fixpoint skip_ws (s : jsstring) : jsstring :=
  match s with
  | c :: r => if is_ws c then skip_ws r else s
  | [] => []
  end.

Definition hex_value (c : Z) : option Z :=
  if (48 <=? c) && (c <=? 57) then Some (c - 48)
  else if (97 <=? c) && (c <=? 102) then Some (c - 87)
  else if (65 <=? c) && (c <=? 70) then Some (c - 55)
  else None.

Definition hex4 (a b c d : Z) : option Z :=
  match hex_value a, hex_value b, hex_value c, hex_value d with
  | Some x, Some y, Some z, Some w => Some (4096 * x + 256 * y + 16 * z + w)
  | _, _, _, _ => None
  end.

Definition simple_escape (e : Z) : option Z :=
  if e =? 34 then Some 34
  else if e =? 92 then Some 92
  else if e =? 47 then Some 47
  else if e =? 98 then Some 8
  else if e =? 102 then Some 12
  else if e =? 110 then Some 10
  else if e =? 114 then Some 13
  else if e =? 116 then Some 9
  else None.

Definition pcons (u : Z) (r : pres (jsstring * jsstring)) : pres (jsstring * jsstring) :=
  match r with
  | POk (s, rest) => POk (u :: s, rest)
  | PSyntax => PSyntax
  | PFuel => PFuel
  end.

(** The characters of a string literal, after the opening quote, up to and
    including the closing quote. *)
Fixpoint parse_chars (s : jsstring) : pres (jsstring * jsstring) :=
  match s with
  | [] => PSyntax
  | c :: r =>
      if c =? 34 then POk ([], r)
      else if c =? 92 then
        match r with
        | [] => PSyntax
        | e :: r' =>
            if e =? 117 then
              match r' with
              | h1 :: h2 :: h3 :: h4 :: r'' =>
                  match hex4 h1 h2 h3 h4 with
                  | Some u => pcons u (parse_chars r'')
                  | None => PSyntax
                  end
              | _ => PSyntax
              end
            else
              match simple_escape e with
              | Some u => pcons u (parse_chars r')
              | None => PSyntax
              end
        end
      else if c <? 32 then PSyntax
      else pcons c (parse_chars r)
  end.

Fixpoint take_digits (s : jsstring) : list Z * jsstring :=
  match s with
  | c :: r => if Obj.is_digit c
              then let (ds, rest) := take_digits r in (c :: ds, rest)
              else ([], s)
  | [] => ([], [])
  end.

(** The text after the character [c], when the text begins with it. *)
Definition peek (c : Z) (s : jsstring) : option jsstring :=
  match s with
  | x :: r => if x =? c then Some r else None
  | [] => None
  end.

(** The optional minus sign of a number literal. *)
Definition parse_sign (s : jsstring) : bool * jsstring :=
  match peek 45 s with
  | Some r => (true, r)
  | None => (false, s)
  end.

(** The optional fraction: the digits after the point, of which there must
    be one at least. *)
Definition parse_fraction (s : jsstring) : option (list Z * jsstring) :=
  match peek 46 s with
  | Some r => let (fs, s') := take_digits r in
              match fs with [] => None | _ => Some (fs, s') end
  | None => Some ([], s)
  end.

(** The optional exponent, [0] when there is none. *)
Definition parse_exponent (s : jsstring) : option (Z * jsstring) :=
  match s with
  | c :: r =>
      if (c =? 101) || (c =? 69) then
        let (eneg, r1) :=
          match peek 45 r, peek 43 r with
          | Some r', _ => (true, r')
          | None, Some r' => (false, r')
          | None, None => (false, r)
          end in
        let (es, s') := take_digits r1 in
        match es with
        | [] => None
        | _ => let e := Obj.digits_value es in
               Some (if eneg then - e else e, s')
        end
      else Some (0, s)
  | [] => Some (0, s)
  end.

(** A number literal.  The grammar is that of ECMA-404; the value is the
    Number value for the decimal the literal denotes: the digits of the
    integer part and of the fraction, scaled by the exponent less the
    length of the fraction. *)
Definition parse_number (s : jsstring) : pres (value * jsstring) :=
  let (neg, s1) := parse_sign s in
  let (ip, s2) := take_digits s1 in
  match ip with
  | [] => PSyntax
  | d :: ip' =>
      if (d =? 48) && match ip' with [] => false | _ => true end then PSyntax
      else
        match parse_fraction s2 with
        | None => PSyntax
        | Some (fs, s3) =>
            match parse_exponent s3 with
            | None => PSyntax
            | Some (e, s4) =>
                POk (JNum (Num.of_decimal neg (Obj.digits_value (ip ++ fs))
                                          (e - Z.of_nat (List.length fs))), s4)
            end
        end
  end.

Fixpoint starts_with (p s : jsstring) : option jsstring :=
  match p, s with
  | [], _ => Some s
  | a :: p', b :: s' => if a =? b then starts_with p' s' else None
  | _ :: _, [] => None
  end.

Definition build_object (members : list (jsstring * value)) : value :=
  JObj (fold_left (fun acc kv => Obj.set (fst kv) (snd kv) acc) members []).

(** Recursive descent; every call spends one unit of fuel. *)
Fixpoint parse_value (fuel : nat) (s : jsstring) : pres (value * jsstring) :=
  match fuel with
  | O => PFuel
  | S f =>
      match skip_ws s with
      | [] => PSyntax
      | c :: r =>
          if c =? 91 then
            match peek 93 (skip_ws r) with
            | Some r' => POk (JArr [], r')
            | None => match parse_elements f r with
                      | POk (es, r') => POk (JArr es, r')
                      | PSyntax => PSyntax
                      | PFuel => PFuel
                      end
            end
          else if c =? 123 then
            match peek 125 (skip_ws r) with
            | Some r' => POk (JObj [], r')
            | None => match parse_members f r with
                      | POk (ms, r') => POk (build_object ms, r')
                      | PSyntax => PSyntax
                      | PFuel => PFuel
                      end
            end
          else if c =? 34 then
            match parse_chars r with
            | POk (str, r') => POk (JStr str, r')
            | PSyntax => PSyntax
            | PFuel => PFuel
            end
          else if c =? 116 then
            match starts_with (lit "rue") r with
            | Some r' => POk (JBool true, r')
            | None => PSyntax
            end
          else if c =? 102 then
            match starts_with (lit "alse") r with
            | Some r' => POk (JBool false, r')
            | None => PSyntax
            end
          else if c =? 110 then
            match starts_with (lit "ull") r with
            | Some r' => POk (JNull, r')
            | None => PSyntax
            end
          else parse_number (c :: r)
      end
  end

with parse_elements (fuel : nat) (s : jsstring) : pres (list value * jsstring) :=
  match fuel with
  | O => PFuel
  | S f =>
      match parse_value f s with
      | POk (v, r) =>
          match peek 44 (skip_ws r), peek 93 (skip_ws r) with
          | Some r', _ =>
              match parse_elements f r' with
              | POk (vs, r'') => POk (v :: vs, r'')
              | PSyntax => PSyntax
              | PFuel => PFuel
              end
          | None, Some r' => POk ([v], r')
          | None, None => PSyntax
          end
      | PSyntax => PSyntax
      | PFuel => PFuel
      end
  end

with parse_members (fuel : nat) (s : jsstring)
  : pres (list (jsstring * value) * jsstring) :=
  match fuel with
  | O => PFuel
  | S f =>
      match peek 34 (skip_ws s) with
      | Some r =>
          match parse_chars r with
          | POk (k, r1) =>
              match peek 58 (skip_ws r1) with
              | Some r2 =>
                  match parse_value f r2 with
                  | POk (v, r3) =>
                      match peek 44 (skip_ws r3), peek 125 (skip_ws r3) with
                      | Some r4, _ =>
                          match parse_members f r4 with
                          | POk (ms, r5) => POk ((k, v) :: ms, r5)
                          | PSyntax => PSyntax
                          | PFuel => PFuel
                          end
                      | None, Some r4 => POk ([(k, v)], r4)
                      | None, None => PSyntax
                      end
                  | PSyntax => PSyntax
                  | PFuel => PFuel
                  end
              | None => PSyntax
              end
          | PSyntax => PSyntax
          | PFuel => PFuel
          end
      | None => PSyntax
      end
  end.

(** [JSON.parse(text)] (no reviver).  The fuel exceeds the number of calls
    any text of this length can cause ([FuelFacts.parse_fuel_enough]). *)
Definition parse (text : jsstring) : pres value :=
  match parse_value (2 * List.length text + 2) text with
  | POk (v, rest) =>
      match skip_ws rest with
      | [] => POk v
      | _ => PSyntax
      end
  | PSyntax => PSyntax
  | PFuel => PFuel
  end.

End Json.

(* ===================================================================== *)
(** ** Effects: a trace of platform calls, and exceptions *)
(* ===================================================================== *)

Inductive log_arg :=
| LStr (s : jsstring)
| LVal (v : value).

Inductive transform := MockCompanies | MockAuthorizePolicies.

(** What the script asks of the platform, in the order it asks. *)
Inductive event :=
| EvFilter (requestId : jsstring)   (* browser.webRequest.filterResponseData *)
| EvDecode (chunk : bytes)          (* decoder.decode *)
| EvParse (text : jsstring)         (* JSON.parse *)
| EvTransform (t : transform)       (* a call of a mutation function *)
| EvLog (a : log_arg)               (* console.log *)
| EvEncode (text : jsstring)        (* encoder.encode *)
| EvWrite (data : bytes)            (* filter.write *)
| EvDisconnect.                     (* filter.disconnect *)

(** A computation yields a completion and the events it caused. *)
Definition M (A : Type) : Type := completion A * list event.

Definition ret {A} (a : A) : M A := (Normal a, []).
Definition throw {A} (e : error) : M A := (Throw e, []).
Definition lift {A} (c : completion A) : M A := (c, []).
Definition emit (e : event) : M unit := (Normal tt, [e]).

Definition bind {A B} (m : M A) (f : A -> M B) : M B :=
  match m with
  | (Normal a, t) => let (r, t') := f a in (r, t ++ t')
  | (Throw e, t) => (Throw e, t)
  end.

Definition try_catch {A} (m : M A) (handler : error -> M A) : M A :=
  match m with
  | (Throw e, t) => let (r, t') := handler e in (r, t ++ t')
  | (Normal a, t) => (Normal a, t)
  end.

Declare Scope js_scope.
Delimit Scope js_scope with js.
Notation "x <- m ;; k" := (bind m (fun x => k))
  (at level 61, m at next level, right associativity) : js_scope.
Notation "m ;; k" := (bind m (fun _ => k))
  (at level 61, right associativity) : js_scope.
Local Open Scope js_scope.

Definition console_log (a : log_arg) : M unit := emit (EvLog a).

(** [for (const x of array) body]: the body mutates the element in place;
    an exception leaves the loop. *)
Fixpoint for_of (body : value -> M value) (l : list value) : M (list value) :=
  match l with
  | [] => ret []
  | x :: l' =>
      x' <- body x ;;
      l'' <- for_of body l' ;;
      ret (x' :: l'')
  end.

(* ===================================================================== *)
(** ** The script *)
(* ===================================================================== *)

Definition INTERESTING_URLS : list jsstring :=
  [ lit "https://api.factorialhr.com/companies";
    lit "https://api.factorialhr.com/permissions/permissions/authorize_policies";
    lit "https://api.factorialhr.com/posts/groups" ].

Definition NOT_INTERESTING_URLS : list jsstring :=
  [ lit "https://api.factorialhr.com/ats/companies";
    lit "https://api.factorialhr.com/teams";
    lit "https://api.factorialhr.com/company_holidays";
    lit "https://api.factorialhr.com/memberships";
    lit "https://api.factorialhr.com/visits";
    lit "https://api.factorialhr.com/accesses/become";
    lit "https://api.factorialhr.com/api/rest/marketplace/user_installation";
    lit "https://api.factorialhr.com/job_catalog/salary_ranges";
    lit "https://api.factorialhr.com/job_catalog/roles";
    lit "https://api.factorialhr.com/job_catalog/levels";
    lit "https://api.factorialhr.com/genders";
    lit "https://api.factorialhr.com/legal_genders";
    lit "https://api.factorialhr.com/legal_entities";
    lit "https://api.factorialhr.com/locations";
    lit "https://api.factorialhr.com/billing/subscriptions";
    lit "https://api.factorialhr.com/policies" ].

(** Executed when the script is loaded. *)
Definition startup : M unit :=
  console_log (LStr (lit "Factorial mocker running ...")).

(** The mutation functions return nothing and change [response] in place;
    the model returns the state of [response] when the function returns.
    [response] comes from [JSON.parse], so no two paths reach the same
    object and an in-place update is an update of the tree. *)

(** [if (company.permissions?.holder) { company.permissions.holder.flag = true; }] *)
Definition grant_if_present (company : value) (holder flag : jsstring) : M value :=
  x <- lift (match get_prop company (lit "permissions") with
             | Normal p => get_prop_opt p holder
             | Throw e => Throw e
             end) ;;
  if truthy x
  then lift (assign_path company [lit "permissions"; holder] flag (JBool true))
  else ret company.

(** The body of the loop of [mock_companies]. *)
Definition mock_company (company : value) : M value :=
  company <- grant_if_present company (lit "attendance") (lit "approve") ;;
  grant_if_present company (lit "payroll") (lit "edit_supplements").

Definition mock_companies (response : value) : M value :=
  console_log (LStr (lit "Companies original response:")) ;;
  console_log (LVal response) ;;
  response <- match response with
              | JArr es =>
                  if 0 <? Z.of_nat (List.length es)
                  then es' <- for_of mock_company es ;; ret (JArr es')
                  else ret response
              | _ => ret response
              end ;;
  console_log (LStr (lit "Companies mocked response:")) ;;
  console_log (LVal response) ;;
  ret response.

Definition MOCK_POLICIES : list jsstring :=
  [ lit "contracts.create_additional_compensation_type";
    lit "contracts.delete_contracts";
    lit "contracts.edit";
    lit "contracts.promote";
    lit "contracts.read";
    lit "contracts.see_end_date";
    lit "employee.create";
    lit "employee.invite";
    lit "employee.become";
    lit "employee_profile.company_identifier.edit";
    lit "employee_profile.company_identifier.see";
    lit "finance.cost_center_memberships.see";
    lit "goals.read";
    lit "leaves.download";
    lit "payroll.manage_payroll";
    lit "planning_versions.edit";
    lit "planning_versions.read";
    lit "shift_management.create_shifts";
    lit "teams.manage" ].

(** [MOCK_POLICIES.includes(x)]: only a string can be equal to a string. *)
Definition includes_value (l : list jsstring) (x : jsval) : bool :=
  match x with
  | Some (JStr s) => includes l s
  | _ => false
  end.

(** [`${base.k}`]. *)
Definition show_prop (base : value) (k : jsstring) : M jsstring :=
  x <- lift (get_prop base k) ;;
  lift (to_string x).

(** The body of the loop of [mock_authorize_policies]. *)
Definition mock_policy (policy : value) : M value :=
  key <- lift (get_prop policy (lit "policy_key")) ;;
  pm <- (if includes_value MOCK_POLICIES key then
           authorize <- lift (get_prop policy (lit "authorize")) ;;
           if negb (truthy authorize) then
             policy' <- lift (set_prop policy (lit "authorize") (JBool true)) ;;
             ret (policy', lit " (mocked)")
           else ret (policy, [])
         else ret (policy, [])) ;;
  let policy := fst pm in
  let mocked := snd pm in
  k <- show_prop policy (lit "policy_key") ;;
  a <- show_prop policy (lit "authorize") ;;
  i <- show_prop policy (lit "target_id") ;;
  r <- show_prop policy (lit "target_resource") ;;
  console_log (LStr (k ++ lit ", " ++ a ++ lit ", " ++ i ++ r ++ lit " " ++ mocked)) ;;
  ret policy.

Definition mock_authorize_policies (response : value) : M value :=
  match response with
  | JArr es =>
      if 0 <? Z.of_nat (List.length es)
      then es' <- for_of mock_policy es ;; ret (JArr es')
      else ret response
  | _ => ret response
  end.

Definition URL_COMPANIES : jsstring := lit "https://api.factorialhr.com/companies".
Definition URL_AUTHORIZE_POLICIES : jsstring :=
  lit "https://api.factorialhr.com/permissions/permissions/authorize_policies".

(** [switch (url)] compares with [===]. *)
Definition handle_mocking (url : jsstring) (response : value) : M value :=
  if str_eqb url URL_COMPANIES then
    emit (EvTransform MockCompanies) ;;
    mock_companies response
  else if str_eqb url URL_AUTHORIZE_POLICIES then
    emit (EvTransform MockAuthorizePolicies) ;;
    mock_authorize_policies response
  else
    console_log (LStr (lit "No mocker for: " ++ url)) ;;
    console_log (LVal response) ;;
    ret response.

(** [JSON.parse(str)] as the script calls it.  [None] stands for a parser
    cut short, which [Json.parse] never is ([FuelFacts.parse_total]): the
    call always returns or throws. *)
Definition JSON_parse (text : jsstring) : option (M value) :=
  match Json.parse text with
  | Json.POk v => Some (emit (EvParse text) ;; ret v)
  | Json.PSyntax => Some (emit (EvParse text) ;; throw SyntaxError)
  | Json.PFuel => None
  end.

Definition filter_write (text : jsstring) : M unit :=
  emit (EvEncode text) ;;
  emit (EvWrite (TextEncoder_encode text)).

Record requestDetails := mkRequest {
  requestId : jsstring;
  url : jsstring
}.

(** [filter.ondata], with the [requestDetails] and [decoder] its closure
    captured; the dispatcher it calls is a parameter, so that the handler
    can be studied with any mutation function.  The decoder object keeps
    its state after the call. *)
Definition ondata_with (dispatch : jsstring -> value -> M value)
    (req : requestDetails) (decoder : Utf8.dstate) (chunk : bytes)
  : option (Utf8.dstate * M unit) :=
  let (decoder', str) := TextDecoder_decode_stream decoder chunk in
  match JSON_parse str with
  | None => None
  | Some parsed =>
      Some (decoder',
            emit (EvDecode chunk) ;;
            try_catch
              (response <- parsed ;;
               response <- dispatch (url req) response ;;
               filter_write (Json.stringify response))
              (fun e => filter_write str) ;;
            emit EvDisconnect)
  end.

Definition ondata := ondata_with handle_mocking.

(** [mocker(requestDetails)]: the listener returns [{}]; what matters is
    whether it has attached a filter, and with which decoder. *)
Definition mocker (req : requestDetails) : M (option Utf8.dstate) :=
  if negb (includes NOT_INTERESTING_URLS (url req)) then
    emit (EvFilter (requestId req)) ;;
    ret (Some Utf8.init)
  else ret None.

(* ===================================================================== *)
(** ** The browser side of a response stream filter *)
(* ===================================================================== *)

(** The browser hands each chunk of the response body to [ondata]; what
    reaches the page is what the handler writes.  After
    [filter.disconnect()] no event fires any more and the browser goes on
    processing the response itself: the remaining chunks reach the page as
    they are (webRequest.StreamFilter.disconnect).  A request without
    filter is not touched. *)

Fixpoint writes_of (t : list event) : bytes :=
  match t with
  | [] => []
  | EvWrite d :: t' => d ++ writes_of t'
  | _ :: t' => writes_of t'
  end.

Fixpoint disconnected (t : list event) : bool :=
  match t with
  | [] => false
  | EvDisconnect :: _ => true
  | _ :: t' => disconnected t'
  end.

(** Result: the bytes delivered to the page and the trace. *)
Fixpoint feed (req : requestDetails) (decoder : Utf8.dstate) (chunks : list bytes)
  : option (bytes * list event) :=
  match chunks with
  | [] => Some ([], [])
  | chunk :: rest =>
      match ondata req decoder chunk with
      | None => None
      | Some (decoder', (_, t)) =>
          if disconnected t then Some (writes_of t ++ List.concat rest, t)
          else match feed req decoder' rest with
               | None => None
               | Some (out, t') => Some (writes_of t ++ out, t ++ t')
               end
      end
  end.

(** One request from [onBeforeRequest] to the end of its response. *)
Definition respond (req : requestDetails) (chunks : list bytes)
  : option (bytes * list event) :=
  match mocker req with
  | (Normal (Some decoder), t0) =>
      match feed req decoder chunks with
      | None => None
      | Some (out, t) => Some (out, t0 ++ t)
      end
  | (_, t0) => Some (List.concat chunks, t0)
  end.

Definition logs_of (t : list event) : list log_arg :=
  flat_map (fun e => match e with EvLog a => [a] | _ => [] end) t.

Definition utf8 (s : jsstring) : bytes := TextEncoder_encode s.

(* ===================================================================== *)
(** ** Vocabulary of the properties *)
(* ===================================================================== *)

(** A position inside a value: array indices and property names. *)
Inductive step :=
| Idx (i : nat)
| Key (k : jsstring).

Fixpoint lookup (p : list step) (v : value) : option value :=
  match p with
  | [] => Some v
  | Idx i :: p' =>
      match v with
      | JArr es => match nth_error es i with
                   | Some x => lookup p' x
                   | None => None
                   end
      | _ => None
      end
  | Key k :: p' =>
      match v with
      | JObj fs => match Obj.assoc k fs with
                   | Some x => lookup p' x
                   | None => None
                   end
      | _ => None
      end
  end.







(** The value a computation ends with, the trace put aside. *)
Definition outcome {A} (m : M A) : completion A := fst m.

(** The bytes a request delivers to the page. *)
Definition delivered (req : requestDetails) (chunks : list bytes) : option bytes :=
  option_map fst (respond req chunks).

(** Events that neither write to the filter nor disconnect it. *)
Definition quiet (t : list event) : Prop :=
  writes_of t = [] /\ disconnected t = false.

(** Unicode scalar values: the code points that are not surrogates. *)
Definition scalar (c : Z) : bool :=
  ((0 <=? c) && (c <? 0xD800)) || ((0xE000 <=? c) && (c <=? 0x10FFFF)).

(** The decoder between two characters. *)
Definition clean (bom : bool) : Utf8.dstate := Utf8.mkD 0 0 0 0x80 0xBF bom.

(** *** Well-formed values

    The values from which [JSON.stringify] loses nothing: they have the
    shape of what [JSON.parse] builds, which the mutation functions keep,
    and every number in them is one that a JSON text carries. *)

(** No infinity and no [-0] anywhere in the value. *)
Fixpoint portable (v : value) : bool :=
  match v with
  | JNum n => Num.portable n
  | JArr es =>
      (fix all (l : list value) : bool :=
         match l with
         | [] => true
         | x :: l' => portable x && all l'
         end) es
  | JObj fs =>
      (fix all (l : list (jsstring * value)) : bool :=
         match l with
         | [] => true
         | kx :: l' => portable (snd kx) && all l'
         end) fs
  | _ => true
  end.

(** What may follow a value inside a text: a comma or a closing bracket. *)
Definition rest_ok (rest : jsstring) : Prop :=
  match rest with
  | [] => True
  | c :: _ => c = 44 \/ c = 93 \/ c = 125
  end.

Definition wf_string (s : jsstring) : Prop := Forall (fun u => 0 <= u) s.

(** Enumeration order of own property keys: array indices in ascending
    numeric order, then the other keys; no key twice. *)
Definition key_lt (k1 k2 : jsstring) : Prop :=
  match Obj.array_index k1, Obj.array_index k2 with
  | Some i, Some j => i < j
  | Some _, None => True
  | None, Some _ => False
  | None, None => k1 <> k2
  end.

Definition canonical (ks : list jsstring) : Prop := StronglySorted key_lt ks.

(** The values the parser builds. *)
Fixpoint wf (v : value) : Prop :=
  match v with
  | JNull | JBool _ => True
  | JNum n => Num.representable n /\ Num.portable n = true
  | JStr s => wf_string s
  | JArr es =>
      (fix all (l : list value) : Prop :=
         match l with
         | [] => True
         | x :: l' => wf x /\ all l'
         end) es
  | JObj fs =>
      canonical (map fst fs) /\
      (fix all (l : list (jsstring * value)) : Prop :=
         match l with
         | [] => True
         | kx :: l' => (wf_string (fst kx) /\ wf (snd kx)) /\ all l'
         end) fs
  end.

Definition wf_member (kx : jsstring * value) : Prop :=
  wf_string (fst kx) /\ wf (snd kx).

(** Well formed, provided the numbers are portable: what the parser
    builds. *)
Definition pwf (v : value) : Prop := portable v = true -> wf v.

Definition pwf_member (kx : jsstring * value) : Prop :=
  wf_string (fst kx) /\ pwf (snd kx).

(** The text of the elements of an array, and of the members of an object,
    after the opening bracket. *)
Fixpoint elements_text (l : list value) : jsstring :=
  match l with
  | [] => [93]
  | x :: l' =>
      Json.stringify x ++
      match l' with
      | [] => [93]
      | _ => 44 :: elements_text l'
      end
  end.

Fixpoint members_text (l : list (jsstring * value)) : jsstring :=
  match l with
  | [] => [125]
  | (k, x) :: l' =>
      Json.quote k ++ 58 :: Json.stringify x ++
      match l' with
      | [] => [125]
      | _ => 44 :: members_text l'
      end
  end.

(** The number of calls the parser needs for a value. *)
Fixpoint size (v : value) : nat :=
  match v with
  | JArr es =>
      S ((fix sum (l : list value) : nat :=
            match l with
            | [] => O
            | x :: l' => S (size x + sum l')
            end) es)
  | JObj fs =>
      S ((fix sum (l : list (jsstring * value)) : nat :=
            match l with
            | [] => O
            | kx :: l' => S (size (snd kx) + sum l')
            end) fs)
  | _ => 1%nat
  end.

Fixpoint elements_size (l : list value) : nat :=
  match l with
  | [] => O
  | x :: l' => S (size x + elements_size l')
  end.

Fixpoint members_size (l : list (jsstring * value)) : nat :=
  match l with
  | [] => O
  | kx :: l' => S (size (snd kx) + members_size l')
  end.

(** Digit strings without leading zero. *)
Definition nz (k : jsstring) : Prop :=
  forallb Obj.is_digit k = true /\ match k with c :: _ => c <> 48 | [] => True end.

(** A text that begins like a value. *)
Definition starts_value (s : jsstring) : Prop :=
  match s with
  | c :: _ => Json.is_ws c = false /\ c <> 93 /\ c <> 125
  | [] => False
  end.

(** A value that the parser reads back from its own text, whatever
    follows. *)
Definition reparses (v : value) : Prop :=
  wf v -> forall fuel rest,
    (size v <= fuel)%nat -> rest_ok rest ->
    Json.parse_value fuel (Json.stringify v ++ rest) = Json.POk (v, rest).

(** *** Number literals

    The parts of a literal (integer part, fraction, exponent with its
    sign), its text and the exponent it denotes. *)

Definition exponent_text (ex : option (bool * list Z)) : jsstring :=
  match ex with
  | None => []
  | Some (eneg, es) => 101 :: (if eneg then 45 else 43) :: es
  end.

Definition literal (ip fs : list Z) (ex : option (bool * list Z)) : jsstring :=
  ip ++ match fs with [] => [] | _ => 46 :: fs end ++ exponent_text ex.

Definition literal_exponent (ex : option (bool * list Z)) : Z :=
  match ex with
  | None => 0
  | Some (eneg, es) => if eneg then - Obj.digits_value es else Obj.digits_value es
  end.

Definition exponent_ok (ex : option (bool * list Z)) : Prop :=
  match ex with
  | None => True
  | Some (_, es) => forallb Obj.is_digit es = true /\ es <> []
  end.

(** *** Closed forms of the two loop bodies

    What one pass of each loop body leaves of the element it is given;
    [mock_company_closed] and [mock_policy_closed] below relate them to the
    bodies themselves. *)

Definition set_flag (x : value) (flag : jsstring) : value :=
  match x with
  | JObj fs => JObj (Obj.set flag (JBool true) fs)
  | _ => x
  end.

(** [if (perms.holder) perms.holder.flag = true]. *)
Definition grant (holder flag : jsstring) (perms : list (jsstring * value)) :=
  match Obj.assoc holder perms with
  | Some x => if truthy (Some x)
              then Obj.replace holder (set_flag x flag) perms
              else perms
  | None => perms
  end.

(** A change of the properties of [company.permissions], when that is an
    object. *)
Definition on_permissions (g : list (jsstring * value) -> list (jsstring * value))
    (company : value) : value :=
  match company with
  | JObj fs =>
      match Obj.assoc (lit "permissions") fs with
      | Some (JObj perms) => JObj (Obj.replace (lit "permissions") (JObj (g perms)) fs)
      | _ => company
      end
  | _ => company
  end.

Definition grant_in (company : value) (holder flag : jsstring) : value :=
  on_permissions (grant holder flag) company.

Definition company_fix (company : value) : value :=
  grant_in (grant_in company (lit "attendance") (lit "approve"))
           (lit "payroll") (lit "edit_supplements").

Definition is_null (v : value) : bool :=
  match v with JNull => true | _ => false end.

Definition policy_mocked (policy : value) : bool :=
  match policy with
  | JObj fs => includes_value MOCK_POLICIES (Obj.assoc (lit "policy_key") fs)
               && negb (truthy (Obj.assoc (lit "authorize") fs))
  | _ => false
  end.

Definition policy_fix (policy : value) : value :=
  if policy_mocked policy then set_flag policy (lit "authorize") else policy.

Definition policy_suffix (policy : value) : jsstring :=
  if policy_mocked policy then lit " (mocked)" else [].

(** The four substitutions of the template literal, up to the blank before
    [mocked]. *)
Definition policy_line (policy : value) : M jsstring :=
  k <- show_prop policy (lit "policy_key") ;;
  a <- show_prop policy (lit "authorize") ;;
  i <- show_prop policy (lit "target_id") ;;
  r <- show_prop policy (lit "target_resource") ;;
  ret (k ++ lit ", " ++ a ++ lit ", " ++ i ++ r ++ lit " ").

(** What a property read gives when it gives neither an object nor an
    array: nothing ([undefined]) or a primitive value. *)
Definition plain (x : jsval) : Prop :=
  match x with
  | Some (JObj _) | Some (JArr _) => False
  | _ => True
  end.

(* ===================================================================== *)
(** ** Sanity checks of the platform model *)
(* ===================================================================== *)

Example decode_ascii :
  snd (TextDecoder_decode_stream Utf8.init (qlit "{'x':1}")) = qlit "{'x':1}".
Proof. reflexivity. Qed.

Example to_string_nested :
  to_string (Some (JArr [JNum 1; JNull; JArr [JBool true; JNum (-20)]; JObj []]))
  = Normal (lit "1,,true,-20,[object Object]").
Proof. vm_compute. reflexivity. Qed.

Example parse_companies :
  Json.parse (qlit " [ {'permissions':{'attendance':{'approve':false}},'id':12, '7':null,'aA\n':[1e2,-0, 2.50e1]} ] ")
  = Json.POk (JArr [JObj [(lit "7", JNull);
                          (lit "permissions",
                            JObj [(lit "attendance", JObj [(lit "approve", JBool false)])]);
                          (lit "id", JNum 12);
                          ([97; 65; 10], JArr [JNum 100; JNum NegZero; JNum 25])]]).
Proof. vm_compute. reflexivity. Qed.

Example stringify_companies :
  Json.stringify (JArr [JObj [(lit "7", JNull); ([97; 65; 10; 0xD800], JArr [JNum 100; JNum (-7)])]])
  = qlit "[{'7':null,'aA\n\ud800':[100,-7]}]".
Proof. vm_compute. reflexivity. Qed.

Example parse_bad_1 : Json.parse (qlit "[1,]") = Json.PSyntax.
Proof. vm_compute. reflexivity. Qed.

Example parse_bad_3 : Json.parse (qlit "{'a':1} x") = Json.PSyntax.
Proof. vm_compute. reflexivity. Qed.

Example run_companies :
  respond (mkRequest (lit "42") URL_COMPANIES)
          [utf8 (qlit "[{'permissions':{'attendance':{'approve':false}}}]")]
  = Some (utf8 (qlit "[{'permissions':{'attendance':{'approve':true}}}]"),
          [EvFilter (lit "42");
           EvDecode (utf8 (qlit "[{'permissions':{'attendance':{'approve':false}}}]"));
           EvParse (qlit "[{'permissions':{'attendance':{'approve':false}}}]");
           EvTransform MockCompanies;
           EvLog (LStr (lit "Companies original response:"));
           EvLog (LVal (JArr [JObj [(lit "permissions", JObj [(lit "attendance", JObj [(lit "approve", JBool false)])])]]));
           EvLog (LStr (lit "Companies mocked response:"));
           EvLog (LVal (JArr [JObj [(lit "permissions", JObj [(lit "attendance", JObj [(lit "approve", JBool true)])])]]));
           EvEncode (qlit "[{'permissions':{'attendance':{'approve':true}}}]");
           EvWrite (utf8 (qlit "[{'permissions':{'attendance':{'approve':true}}}]"));
           EvDisconnect]).
Proof. vm_compute. reflexivity. Qed.

Example parse_bad_2 : Json.parse (qlit "01") = Json.PSyntax.
Proof. vm_compute. reflexivity. Qed.

Example parse_float :
  Json.parse (qlit "[0.5, 12.99, 9007199254740993, 1e400, -1e-400, 1E+2]")
  = Json.POk (JArr [JNum (Frac 1 1); JNum (Frac 7312719894942843 49);
                    JNum 9007199254740992; JNum (Inf false); JNum NegZero; JNum 100]).
Proof. vm_compute. reflexivity. Qed.

Example stringify_float :
  Json.stringify (JArr [JNum (Frac 1 1); JNum (Frac 7312719894942843 49);
                        JNum (Inf false); JNum NegZero; JNum (-100); JNum (10 ^ 21);
                        JNum (123 * 10 ^ 18); JNum (Frac 1 10); JNum (Frac 5 21);
                        JNum (Frac (- 1) 1074)])
  = qlit "[0.5,12.99,null,0,-100,1e+21,123000000000000000000,0.0009765625,0.000002384185791015625,-5e-324]".
Proof. vm_compute. reflexivity. Qed.

Example to_string_numbers :
  to_string (Some (JArr [JNum (Inf true); JNum NegZero; JNum (Frac 3 1)]))
  = Normal (lit "-Infinity,0,1.5").
Proof. vm_compute. reflexivity. Qed.

Example parse_bad_4 :
  Json.parse (qlit "{'price':12.99,'na") = Json.PSyntax /\
  Json.parse (qlit "[0.5,") = Json.PSyntax /\
  Json.parse (qlit "[1.]") = Json.PSyntax /\
  Json.parse (qlit "[-]") = Json.PSyntax /\
  Json.parse (qlit "[1e]") = Json.PSyntax /\
  Json.parse (qlit "[.5]") = Json.PSyntax.
Proof. vm_compute. repeat split; reflexivity. Qed.

Example parse_duplicate_key :
  Json.parse (qlit "{'b':1,'10':2,'b':3,'9':4}")
  = Json.POk (JObj [(lit "9", JNum 4); (lit "10", JNum 2); (lit "b", JNum 3)]).
Proof. vm_compute. reflexivity. Qed.

(** A byte order mark is dropped, an ill-formed sequence becomes U+FFFD, an
    incomplete one waits in the decoder. *)
Example decode_bom :
  snd (TextDecoder_decode_stream Utf8.init [0xEF; 0xBB; 0xBF; 123; 125]) = [123; 125].
Proof. reflexivity. Qed.

Example decode_overlong :
  snd (TextDecoder_decode_stream Utf8.init [0xC0; 0xAF; 0xED; 0xA0; 0x80])
  = [0xFFFD; 0xFFFD; 0xFFFD; 0xFFFD; 0xFFFD].
Proof. reflexivity. Qed.

Example decode_incomplete :
  TextDecoder_decode_stream Utf8.init [104; 0xE2; 0x82]
  = (Utf8.mkD 0x82 1 2 0x80 0xBF true, [104]).
Proof. reflexivity. Qed.

Example encode_pair :
  TextEncoder_encode [0xD83D; 0xDE00; 0xD800] = [0xF0; 0x9F; 0x98; 0x80; 0xEF; 0xBF; 0xBD].
Proof. reflexivity. Qed.

Example run_policies :
  mock_authorize_policies
    (JArr [JObj [(lit "policy_key", JStr (lit "contracts.read"));
                 (lit "authorize", JBool false);
                 (lit "target_id", JArr [JNum 1; JNull; JObj []])];
           JObj [(lit "policy_key", JStr (lit "holidays.read"));
                 (lit "authorize", JBool false)]])
  = (Normal (JArr [JObj [(lit "policy_key", JStr (lit "contracts.read"));
                         (lit "authorize", JBool true);
                         (lit "target_id", JArr [JNum 1; JNull; JObj []])];
                   JObj [(lit "policy_key", JStr (lit "holidays.read"));
                         (lit "authorize", JBool false)]]),
     [EvLog (LStr (lit "contracts.read, true, 1,,[object Object]undefined  (mocked)"));
      EvLog (LStr (lit "holidays.read, false, undefinedundefined "))]).
Proof. vm_compute. reflexivity. Qed.

Example run_null_company :
  mock_companies (JArr [JNull])
  = (Throw TypeError,
     [EvLog (LStr (lit "Companies original response:")); EvLog (LVal (JArr [JNull]))]).
Proof. vm_compute. reflexivity. Qed.

(* ===================================================================== *)
(** ** Strings and lists of strings *)
(* ===================================================================== *)

Lemma str_eqb_eq a b : str_eqb a b = true <-> a = b.
Proof.
  revert b; induction a as [|x a IH]; intros [|y b]; simpl; split;
    try congruence; try reflexivity.
  - intros H. apply andb_true_iff in H as [Hx Hr].
    apply Z.eqb_eq in Hx. apply IH in Hr. congruence.
  - intros H. injection H as -> ->.
    rewrite Z.eqb_refl. simpl. now apply IH.
Qed.

Lemma str_eqb_refl a : str_eqb a a = true.
Proof. now apply str_eqb_eq. Qed.

Lemma str_eqb_neq a b : str_eqb a b = false <-> a <> b.
Proof.
  split.
  - intros H E. apply str_eqb_eq in E. congruence.
  - intros H. destruct (str_eqb a b) eqn:E; [|reflexivity].
    apply str_eqb_eq in E. contradiction.
Qed.

Lemma str_eqb_sym a b : str_eqb a b = str_eqb b a.
Proof.
  destruct (str_eqb a b) eqn:E.
  - apply str_eqb_eq in E. subst. now rewrite str_eqb_refl.
  - symmetry. apply str_eqb_neq. apply str_eqb_neq in E. congruence.
Qed.

Lemma includes_In l s : includes l s = true <-> In s l.
Proof.
  unfold includes. rewrite existsb_exists. split.
  - intros (x & Hx & E). apply str_eqb_eq in E. now subst.
  - intros H. exists s. split; [assumption | apply str_eqb_refl].
Qed.

Lemma includes_not_In l s : includes l s = false <-> ~ In s l.
Proof.
  rewrite <- includes_In. destruct (includes l s); split; congruence.
Qed.

(* ===================================================================== *)
(** ** Traces *)
(* ===================================================================== *)

Lemma writes_of_app t u : writes_of (t ++ u) = writes_of t ++ writes_of u.
Proof.
  induction t as [|e t IH]; simpl; [reflexivity|].
  destruct e; simpl; rewrite ?IH, ?app_assoc; reflexivity.
Qed.

Lemma disconnected_app t u :
  disconnected (t ++ u) = disconnected t || disconnected u.
Proof.
  induction t as [|e t IH]; simpl; [reflexivity|].
  destruct e; simpl; auto.
Qed.

Lemma quiet_nil : quiet [].
Proof. split; reflexivity. Qed.

Lemma quiet_app t u : quiet t -> quiet u -> quiet (t ++ u).
Proof.
  intros [W1 D1] [W2 D2]. split.
  - now rewrite writes_of_app, W1, W2.
  - now rewrite disconnected_app, D1, D2.
Qed.

Lemma quiet_bind {A B} (m : M A) (f : A -> M B) :
  quiet (snd m) -> (forall a, quiet (snd (f a))) -> quiet (snd (bind m f)).
Proof.
  intros Hm Hf. destruct m as [[a|e] t]; simpl in *; [|assumption].
  specialize (Hf a). destruct (f a) as [r t']. simpl in *.
  now apply quiet_app.
Qed.

Lemma quiet_for_of body l :
  (forall x, quiet (snd (body x))) -> quiet (snd (for_of body l)).
Proof.
  intros Hb. induction l as [|x l IH]; simpl; [apply quiet_nil|].
  apply quiet_bind; [apply Hb|]. intros x'.
  apply quiet_bind; [apply IH|]. intros l'. apply quiet_nil.
Qed.

Ltac quiet_tac :=
  repeat first
    [ apply quiet_nil
    | apply quiet_bind; [|intros ?]
    | apply quiet_for_of; intros ?
    | match goal with
      | |- quiet (snd (if ?c then _ else _)) => destruct c
      | |- quiet (snd (match ?c with _ => _ end)) => destruct c
      | |- quiet (snd (lift _)) => apply quiet_nil
      | |- quiet (snd (ret _)) => apply quiet_nil
      | |- quiet (snd (console_log _)) => split; reflexivity
      | |- quiet (snd (emit (EvTransform _))) => split; reflexivity
      end ].

Lemma quiet_mock_company c : quiet (snd (mock_company c)).
Proof. unfold mock_company. quiet_tac. Qed.

Lemma quiet_mock_policy p : quiet (snd (mock_policy p)).
Proof. unfold mock_policy, show_prop. quiet_tac. Qed.

Lemma quiet_handle_mocking u v : quiet (snd (handle_mocking u v)).
Proof.
  unfold handle_mocking, mock_companies, mock_authorize_policies.
  quiet_tac; try apply quiet_mock_company; try apply quiet_mock_policy.
Qed.

(* ===================================================================== *)
(** ** The three ways through [ondata] *)
(* ===================================================================== *)

Section Ondata.
Variable dispatch : jsstring -> value -> M value.
Variables (req : requestDetails) (decoder decoder' : Utf8.dstate).
Variables (chunk : bytes) (str : jsstring).
Hypothesis Hdecode : TextDecoder_decode_stream decoder chunk = (decoder', str).

  (** The text does not parse. *)
Lemma ondata_syntax_error :
    Json.parse str = Json.PSyntax ->
    ondata_with dispatch req decoder chunk
    = Some (decoder',
            (Normal tt,
             [EvDecode chunk; EvParse str; EvEncode str;
              EvWrite (utf8 str); EvDisconnect])).
Proof.
    intros Hp. unfold ondata_with, JSON_parse. rewrite Hdecode, Hp. reflexivity.
Qed.

  (** The text parses and the dispatcher returns. *)
Lemma ondata_returns v v' t :
    Json.parse str = Json.POk v ->
    dispatch (url req) v = (Normal v', t) ->
    ondata_with dispatch req decoder chunk
    = Some (decoder',
            (Normal tt,
             EvDecode chunk :: EvParse str :: t ++
             [EvEncode (Json.stringify v'); EvWrite (utf8 (Json.stringify v'));
              EvDisconnect])).
Proof.
    intros Hp Hd. unfold ondata_with, JSON_parse. rewrite Hdecode, Hp.
    simpl. rewrite Hd. simpl. rewrite <- app_assoc. reflexivity.
Qed.

  (** The text parses and the dispatcher throws. *)
Lemma ondata_throws v e t :
    Json.parse str = Json.POk v ->
    dispatch (url req) v = (Throw e, t) ->
    ondata_with dispatch req decoder chunk
    = Some (decoder',
            (Normal tt,
             EvDecode chunk :: EvParse str :: t ++
             [EvEncode str; EvWrite (utf8 str); EvDisconnect])).
Proof.
    intros Hp Hd. unfold ondata_with, JSON_parse. rewrite Hdecode, Hp.
    simpl. rewrite Hd. simpl. rewrite <- app_assoc. reflexivity.
Qed.

Lemma ondata_cut_short :
    Json.parse str = Json.PFuel ->
    ondata_with dispatch req decoder chunk = None.
Proof.
    intros Hp. unfold ondata_with, JSON_parse. now rewrite Hdecode, Hp.
Qed.
End Ondata.

Lemma decode_pair decoder chunk :
  TextDecoder_decode_stream decoder chunk
  = (fst (TextDecoder_decode_stream decoder chunk),
     snd (TextDecoder_decode_stream decoder chunk)).
Proof. now destruct (TextDecoder_decode_stream decoder chunk). Qed.

(** A request whose URL is not ignored, and whose first chunk makes the
    handler write [out] and disconnect. *)
Lemma respond_first_chunk req chunk rest decoder' r t :
  ~ In (url req) NOT_INTERESTING_URLS ->
  ondata req Utf8.init chunk = Some (decoder', (r, t)) ->
  disconnected t = true ->
  respond req (chunk :: rest)
  = Some (writes_of t ++ List.concat rest, EvFilter (requestId req) :: t).
Proof.
  intros Hu Ho Hd. unfold respond, mocker.
  apply includes_not_In in Hu. rewrite Hu. simpl.
  rewrite Ho, Hd. reflexivity.
Qed.

Lemma respond_cut_short req chunk rest :
  ~ In (url req) NOT_INTERESTING_URLS ->
  ondata req Utf8.init chunk = None ->
  respond req (chunk :: rest) = None.
Proof.
  intros Hu Ho. unfold respond, mocker.
  apply includes_not_In in Hu. rewrite Hu. simpl. now rewrite Ho.
Qed.

(** The dispatcher on a URL that is neither of the two [case] labels. *)
Lemma handle_mocking_default u v :
  u <> URL_COMPANIES -> u <> URL_AUTHORIZE_POLICIES ->
  handle_mocking u v
  = (Normal v, [EvLog (LStr (lit "No mocker for: " ++ u)); EvLog (LVal v)]).
Proof.
  intros H1 H2. unfold handle_mocking.
  apply str_eqb_neq in H1, H2. now rewrite H1, H2.
Qed.

Lemma not_interesting_not_case u :
  ~ In u INTERESTING_URLS -> u <> URL_COMPANIES /\ u <> URL_AUTHORIZE_POLICIES.
Proof.
  intros H. split; intros ->; apply H; simpl; auto.
Qed.

(* ===================================================================== *)
(** ** Classification *)
(* ===================================================================== *)

(** C3 -- A request whose URL is in [NOT_INTERESTING_URLS] gets no stream
    filter: [mocker] asks nothing of the platform, so the trace of the whole
    request is empty (no decode, parse, transform, log, write), and the page
    receives the chunks of the response as the server sent them. *)
Theorem ignored_url_untouched (req : requestDetails) (chunks : list bytes) :
  In (url req) NOT_INTERESTING_URLS ->
  mocker req = (Normal None, []) /\
  respond req chunks = Some (List.concat chunks, []).
Proof.
  intros H. apply includes_In in H.
  unfold respond, mocker. rewrite H. simpl. split; reflexivity.
Qed.

Lemma ignored_url_untouched_witness :
  let req := mkRequest (lit "7") (lit "https://api.factorialhr.com/teams") in
  mocker req = (Normal None, []) /\
  respond req [[91; 49]; [44; 50; 93]] = Some ([91; 49; 44; 50; 93], []).
Proof.
  intros req.
  apply (ignored_url_untouched req [[91; 49]; [44; 50; 93]]).
  simpl. right. left. reflexivity.
Defined.

(* ===================================================================== *)
(** ** Scenarios *)
(* ===================================================================== *)

(** C4 -- On [/companies], the body
    [[{"permissions":{"attendance":{"approve":false}}}]] is delivered as
    [[{"permissions":{"attendance":{"approve":true}}}]]. *)
Theorem companies_approve_set (id : jsstring) :
  delivered (mkRequest id URL_COMPANIES)
            [utf8 (qlit "[{'permissions':{'attendance':{'approve':false}}}]")]
  = Some (utf8 (qlit "[{'permissions':{'attendance':{'approve':true}}}]")).
Proof. vm_compute. reflexivity. Qed.

(** C7 -- On [/companies], the body [[{"permissions":{}}]] is delivered
    unchanged: [mock_companies] returns normally with the value it was
    given (both conditions of the loop are false), and the bytes written
    are the bytes received. *)
Theorem companies_empty_permissions_unchanged (id : jsstring) :
  let v := JArr [JObj [(lit "permissions", JObj [])]] in
  Json.parse (qlit "[{'permissions':{}}]") = Json.POk v /\
  outcome (mock_companies v) = Normal v /\
  delivered (mkRequest id URL_COMPANIES) [utf8 (qlit "[{'permissions':{}}]")]
  = Some (utf8 (qlit "[{'permissions':{}}]")).
Proof. vm_compute. repeat split; reflexivity. Qed.

(** C9, as amended -- For a URL in neither list, the body [{"x":1}] is
    delivered byte for byte, and the [default] branch makes two calls of
    [console.log]: the first with the URL, the second with the parsed
    body. *)
Theorem unknown_x1_passes_with_two_logs (req : requestDetails) :
  ~ In (url req) INTERESTING_URLS ->
  ~ In (url req) NOT_INTERESTING_URLS ->
  exists t,
    respond req [utf8 (qlit "{'x':1}")] = Some (utf8 (qlit "{'x':1}"), t) /\
    logs_of t = [LStr (lit "No mocker for: " ++ url req);
                 LVal (JObj [(lit "x", JNum 1)])].
Proof.
  intros Hi Hn.
  destruct (not_interesting_not_case _ Hi) as [H1 H2].
  set (v := JObj [(lit "x", JNum 1)]).
  pose proof (handle_mocking_default (url req) v H1 H2) as Hh.
  assert (Hd : TextDecoder_decode_stream Utf8.init (utf8 (qlit "{'x':1}"))
               = (Utf8.mkD 0 0 0 0x80 0xBF true, qlit "{'x':1}"))
    by (vm_compute; reflexivity).
  assert (Hp : Json.parse (qlit "{'x':1}") = Json.POk v)
    by (vm_compute; reflexivity).
  pose proof (ondata_returns handle_mocking req _ _ _ _ Hd v v _ Hp Hh) as Ho.
  eexists. split.
  - rewrite (respond_first_chunk req _ [] _ _ _ Hn Ho eq_refl).
    apply f_equal. apply f_equal2; [vm_compute|]; reflexivity.
  - reflexivity.
Qed.

Lemma unknown_x1_passes_with_two_logs_witness :
  exists t,
    respond (mkRequest (lit "7") (lit "https://api.factorialhr.com/stats"))
            [utf8 (qlit "{'x':1}")]
    = Some (utf8 (qlit "{'x':1}"), t) /\
    logs_of t = [LStr (lit "No mocker for: https://api.factorialhr.com/stats");
                 LVal (JObj [(lit "x", JNum 1)])].
Proof.
  apply (unknown_x1_passes_with_two_logs
           (mkRequest (lit "7") (lit "https://api.factorialhr.com/stats")));
    apply includes_not_In; vm_compute; reflexivity.
Defined.

(** C9, as stated, fails: no single log entry is emitted for the unknown
    URL [https://api.factorialhr.com/stats]; there are two. *)
Lemma unknown_x1_single_log_refuted :
  ~ (exists out t entry,
        respond (mkRequest (lit "7") (lit "https://api.factorialhr.com/stats"))
                [utf8 (qlit "{'x':1}")] = Some (out, t) /\
        out = utf8 (qlit "{'x':1}") /\
        logs_of t = [entry]).
Proof.
  intros (out & t & entry & H & _ & L).
  vm_compute in H. injection H as _ Ht. subst t. discriminate L.
Qed.

(* ===================================================================== *)
(** ** Bodies that arrive in several chunks *)
(* ===================================================================== *)

(** C2 (the script does not do this) -- The body
    [[{"permissions":{"attendance":{"approve":false}}}]] of [/companies]:
    in one chunk it is delivered with [approve] set; cut in two, only the
    first chunk reaches the handler, which fails to parse it, writes it back
    and disconnects, so that the page receives the body as the server sent
    it. *)
Theorem two_chunks_are_not_accumulated (id : jsstring) :
  let req := mkRequest id URL_COMPANIES in
  let c1 := utf8 (qlit "[{'permissions':{'atten") in
  let c2 := utf8 (qlit "dance':{'approve':false}}}]") in
  delivered req [c1 ++ c2]
  = Some (utf8 (qlit "[{'permissions':{'attendance':{'approve':true}}}]")) /\
  respond req [c1; c2]
  = Some (utf8 (qlit "[{'permissions':{'attendance':{'approve':false}}}]"),
          [EvFilter id; EvDecode c1; EvParse (qlit "[{'permissions':{'atten");
           EvEncode (qlit "[{'permissions':{'atten"); EvWrite c1; EvDisconnect]).
Proof. vm_compute. split; reflexivity. Qed.

(* ===================================================================== *)
(** ** Own properties: reading after writing *)
(* ===================================================================== *)

Module ObjFacts.
Import Obj.

Section Assoc.
Context {A : Type}.
Implicit Types (l : list (jsstring * A)) (k : jsstring) (v : A).

Lemma has_false_assoc k l : has k l = false <-> assoc k l = None.
Proof. unfold has. destruct (assoc k l); split; congruence. Qed.

Lemma assoc_replace k v l :
  assoc k (replace k v l) = if has k l then Some v else None.
Proof.
  unfold has. induction l as [|[k' v'] l IH]; simpl; [reflexivity|].
  destruct (str_eqb k k') eqn:E; simpl; rewrite E; [reflexivity|exact IH].
Qed.

Lemma assoc_replace_other k k' v l :
  str_eqb k' k = false -> assoc k' (replace k v l) = assoc k' l.
Proof.
  intros N. induction l as [|[k0 v0] l IH]; simpl; [reflexivity|].
  destruct (str_eqb k k0) eqn:E; simpl.
  - apply str_eqb_eq in E. subst k0. now rewrite N.
  - now rewrite IH.
Qed.

Lemma replace_replace k v1 v2 l :
  replace k v2 (replace k v1 l) = replace k v2 l.
Proof.
  induction l as [|[k0 v0] l IH]; simpl; [reflexivity|].
  destruct (str_eqb k k0) eqn:E; simpl; rewrite E; [reflexivity|now rewrite IH].
Qed.

Lemma replace_same k v l : assoc k l = Some v -> replace k v l = l.
Proof.
  induction l as [|[k0 v0] l IH]; simpl; [reflexivity|].
  destruct (str_eqb k k0) eqn:E.
  - intros [= ->]. reflexivity.
  - intros H. now rewrite IH.
Qed.

Lemma replace_comm k1 k2 v1 v2 l :
  str_eqb k1 k2 = false ->
  replace k1 v1 (replace k2 v2 l) = replace k2 v2 (replace k1 v1 l).
Proof.
  intros N. induction l as [|[k0 v0] l IH]; simpl; [reflexivity|].
  destruct (str_eqb k2 k0) eqn:E2, (str_eqb k1 k0) eqn:E1; simpl;
    rewrite ?E1, ?E2; try reflexivity.
  - apply str_eqb_eq in E1, E2. subst. now rewrite str_eqb_refl in N.
  - now rewrite IH.
Qed.

Lemma map_fst_replace k v l : map fst (replace k v l) = map fst l.
Proof.
  induction l as [|[k0 v0] l IH]; simpl; [reflexivity|].
  destruct (str_eqb k k0); simpl; [reflexivity|now rewrite IH].
Qed.

Lemma assoc_app_absent k l l' :
  assoc k l = None -> assoc k (l ++ l') = assoc k l'.
Proof.
  induction l as [|[k0 v0] l IH]; simpl; [reflexivity|].
  destruct (str_eqb k k0); [discriminate|exact IH].
Qed.


Lemma assoc_insert_index_same i k v l :
  assoc k l = None -> assoc k (insert_index i k v l) = Some v.
Proof.
  induction l as [|[k0 v0] l IH]; simpl.
  - now rewrite str_eqb_refl.
  - destruct (str_eqb k k0) eqn:E; [discriminate|]. intros H.
    destruct (array_index k0) as [j|]; [destruct (j <? i)|]; simpl;
      rewrite ?E, ?str_eqb_refl; auto.
Qed.


Lemma assoc_set_same k v l : assoc k (set k v l) = Some v.
Proof.
  unfold set. destruct (has k l) eqn:H.
  - rewrite assoc_replace. now rewrite H.
  - apply has_false_assoc in H. destruct (array_index k) as [i|].
    + now apply assoc_insert_index_same.
    + rewrite (assoc_app_absent _ _ _ H). simpl. now rewrite str_eqb_refl.
Qed.


Lemma set_set k v l : set k v (set k v l) = set k v l.
Proof.
  pose proof (assoc_set_same k v l) as H.
  unfold set at 1. unfold has. rewrite H.
  now apply replace_same.
Qed.

End Assoc.
End ObjFacts.

(* ===================================================================== *)
(** ** The loop bodies in closed form *)
(* ===================================================================== *)

Import ObjFacts.

Lemma outcome_bind {A B} (m : M A) (f : A -> M B) :
  outcome (bind m f)
  = match outcome m with
    | Normal a => outcome (f a)
    | Throw e => Throw e
    end.
Proof.
  destruct m as [[a|e] t]; simpl; [|reflexivity].
  unfold outcome. now destruct (f a).
Qed.

Lemma truthy_set_flag x flag : truthy (Some (set_flag x flag)) = truthy (Some x).
Proof. now destruct x. Qed.

Lemma set_flag_idem x flag : set_flag (set_flag x flag) flag = set_flag x flag.
Proof. destruct x; simpl; try reflexivity. now rewrite set_set. Qed.

Lemma set_prop_flag x flag :
  truthy (Some x) = true -> set_prop x flag (JBool true) = Normal (set_flag x flag).
Proof. destruct x; simpl; try reflexivity. discriminate. Qed.

Lemma grant_if_present_closed c holder flag :
  grant_if_present c holder flag
  = if is_null c then (Throw TypeError, [])
    else (Normal (grant_in c holder flag), []).
Proof.
  destruct c as [| b | n | s | es | fs]; try reflexivity.
  unfold grant_if_present, grant_in, on_permissions, grant.
  cbn -[lit truthy set_prop].
  destruct (Obj.assoc (lit "permissions") fs) as [p|] eqn:Hp; [|reflexivity].
  destruct p as [| b | n | s | es | perms]; try reflexivity.
  cbn -[lit truthy set_prop].
  destruct (Obj.assoc holder perms) as [x|] eqn:Hx; cbn -[lit truthy set_prop].
  - destruct (truthy (Some x)) eqn:Tx; cbn -[lit truthy set_prop].
    + rewrite (set_prop_flag _ _ Tx). reflexivity.
    + now rewrite (replace_same _ _ _ Hp).
  - now rewrite (replace_same _ _ _ Hp).
Qed.

Lemma is_null_grant_in c holder flag : is_null (grant_in c holder flag) = is_null c.
Proof.
  destruct c as [| b | n | s | es | fs]; try reflexivity.
  unfold grant_in, on_permissions.
  destruct (Obj.assoc _ fs) as [[]|]; reflexivity.
Qed.

Lemma mock_company_closed c :
  mock_company c
  = if is_null c then (Throw TypeError, []) else (Normal (company_fix c), []).
Proof.
  unfold mock_company, company_fix.
  rewrite grant_if_present_closed.
  destruct (is_null c) eqn:N; [reflexivity|].
  unfold bind. rewrite grant_if_present_closed, is_null_grant_in, N. reflexivity.
Qed.

Lemma on_permissions_compose g1 g2 c :
  on_permissions g2 (on_permissions g1 c) = on_permissions (fun l => g2 (g1 l)) c.
Proof.
  destruct c as [| b | n | s | es | fs]; try reflexivity.
  unfold on_permissions at 2 3.
  destruct (Obj.assoc (lit "permissions") fs) as [p|] eqn:Hp.
  - destruct p as [| b | n | s | es | perms];
      try (unfold on_permissions; rewrite Hp; reflexivity).
    unfold on_permissions. rewrite assoc_replace. unfold Obj.has. rewrite Hp.
    now rewrite replace_replace.
  - unfold on_permissions. now rewrite Hp.
Qed.

Lemma on_permissions_ext g1 g2 c :
  (forall l, g1 l = g2 l) -> on_permissions g1 c = on_permissions g2 c.
Proof.
  intros E. destruct c as [| b | n | s | es | fs]; try reflexivity.
  unfold on_permissions. destruct (Obj.assoc _ fs) as [[]|]; try reflexivity.
  now rewrite E.
Qed.

Lemma company_fix_on_permissions c :
  company_fix c
  = on_permissions (fun l => grant (lit "payroll") (lit "edit_supplements")
                               (grant (lit "attendance") (lit "approve") l)) c.
Proof. unfold company_fix, grant_in. apply on_permissions_compose. Qed.

Lemma grant_idem holder flag l :
  grant holder flag (grant holder flag l) = grant holder flag l.
Proof.
  unfold grant at 2 3.
  destruct (Obj.assoc holder l) as [x|] eqn:Hx.
  - destruct (truthy (Some x)) eqn:Tx.
    + unfold grant. rewrite assoc_replace. unfold Obj.has. rewrite Hx.
      rewrite truthy_set_flag, Tx, replace_replace, set_flag_idem. reflexivity.
    + unfold grant. now rewrite Hx, Tx.
  - unfold grant. now rewrite Hx.
Qed.

Lemma grant_comm h1 f1 h2 f2 l :
  str_eqb h1 h2 = false ->
  grant h1 f1 (grant h2 f2 l) = grant h2 f2 (grant h1 f1 l).
Proof.
  intros N. assert (N' : str_eqb h2 h1 = false) by now rewrite str_eqb_sym.
  unfold grant.
  destruct (Obj.assoc h1 l) as [x1|] eqn:H1, (Obj.assoc h2 l) as [x2|] eqn:H2;
    try destruct (truthy (Some x1)) eqn:T1; try destruct (truthy (Some x2)) eqn:T2;
    rewrite ?assoc_replace_other, ?H1, ?H2, ?T1, ?T2 by assumption;
    try reflexivity.
  now apply replace_comm.
Qed.

Lemma company_fix_idem c : company_fix (company_fix c) = company_fix c.
Proof.
  rewrite !company_fix_on_permissions, on_permissions_compose.
  apply on_permissions_ext. intros l.
  rewrite (grant_comm (lit "attendance") _ (lit "payroll")) by reflexivity.
  now rewrite grant_idem, grant_idem.
Qed.

Lemma is_null_company_fix c : is_null (company_fix c) = is_null c.
Proof. unfold company_fix. now rewrite !is_null_grant_in. Qed.

(** *** The body of the loop of [mock_authorize_policies] *)

Lemma mock_policy_closed p :
  mock_policy p
  = if is_null p then (Throw TypeError, [])
    else match outcome (policy_line (policy_fix p)) with
         | Normal s => (Normal (policy_fix p), [EvLog (LStr (s ++ policy_suffix p))])
         | Throw e => (Throw e, [])
         end.
Proof.
  destruct p as [| b | n | s | es | fs]; try reflexivity.
  unfold mock_policy, policy_fix, policy_suffix, policy_line, show_prop, policy_mocked.
  cbn -[lit to_string MOCK_POLICIES truthy Obj.set].
  destruct (includes_value MOCK_POLICIES (Obj.assoc (lit "policy_key") fs));
    cbn -[lit to_string MOCK_POLICIES truthy Obj.set];
    [destruct (truthy (Obj.assoc (lit "authorize") fs));
     cbn -[lit to_string MOCK_POLICIES truthy Obj.set]|];
    repeat match goal with
           | |- context [to_string ?x] =>
               destruct (to_string x); cbn -[lit to_string MOCK_POLICIES truthy Obj.set]
           end;
    rewrite <- ?app_assoc; try reflexivity.
Qed.

Lemma policy_fix_idem p : policy_fix (policy_fix p) = policy_fix p.
Proof.
  unfold policy_fix. destruct (policy_mocked p) eqn:E; [|now rewrite E].
  destruct p as [| b | n | s | es | fs]; try discriminate.
  assert (policy_mocked (set_flag (JObj fs) (lit "authorize")) = false) as ->;
    [|reflexivity].
  simpl. rewrite assoc_set_same. simpl. apply andb_false_r.
Qed.

Lemma is_null_policy_fix p : is_null (policy_fix p) = is_null p.
Proof.
  unfold policy_fix. destruct (policy_mocked p); [|reflexivity]. now destruct p.
Qed.

(** *** Loops *)

Lemma for_of_normal body l l' :
  outcome (for_of body l) = Normal l' <->
  Forall2 (fun x x' => outcome (body x) = Normal x') l l'.
Proof.
  revert l'. induction l as [|x l IH]; intros l'; simpl.
  - unfold outcome. simpl. split.
    + intros [= <-]. constructor.
    + intros H. inversion H. reflexivity.
  - rewrite outcome_bind. split.
    + destruct (outcome (body x)) as [x'|e] eqn:Hx; [|discriminate].
      rewrite outcome_bind.
      destruct (outcome (for_of body l)) as [l''|e] eqn:Hl; [|discriminate].
      unfold outcome. simpl. intros [= <-].
      constructor; [assumption|]. now apply IH.
    + intros H. inversion H as [|? x' ? l'' Hx Hl]; subst.
      rewrite Hx, outcome_bind. apply IH in Hl. now rewrite Hl.
Qed.

Lemma for_of_again body l l' :
  (forall x x', outcome (body x) = Normal x' -> outcome (body x') = Normal x') ->
  outcome (for_of body l) = Normal l' ->
  outcome (for_of body l') = Normal l'.
Proof.
  intros Hb H. apply for_of_normal in H. apply for_of_normal.
  induction H; constructor; eauto.
Qed.

Lemma mock_company_again c c' :
  outcome (mock_company c) = Normal c' -> outcome (mock_company c') = Normal c'.
Proof.
  rewrite !mock_company_closed. destruct (is_null c) eqn:N; [discriminate|].
  unfold outcome. simpl. intros [= <-].
  now rewrite is_null_company_fix, N, company_fix_idem.
Qed.

Lemma mock_policy_again p p' :
  outcome (mock_policy p) = Normal p' -> outcome (mock_policy p') = Normal p'.
Proof.
  rewrite !mock_policy_closed. destruct (is_null p) eqn:N; [discriminate|].
  destruct (outcome (policy_line (policy_fix p))) as [s|e] eqn:L; [|discriminate].
  unfold outcome at 1. simpl. intros [= <-].
  now rewrite is_null_policy_fix, N, policy_fix_idem, L.
Qed.

(** *** The two mutation functions as a whole *)

Lemma mock_companies_outcome v :
  outcome (mock_companies v)
  = match v with
    | JArr es => match outcome (for_of mock_company es) with
                 | Normal es' => Normal (JArr es')
                 | Throw e => Throw e
                 end
    | _ => Normal v
    end.
Proof.
  unfold mock_companies. rewrite !outcome_bind. cbn -[lit for_of mock_company].
  destruct v as [| b | n | s | es | fs]; try reflexivity.
  destruct es as [|x es]; [reflexivity|].
  replace (0 <? Z.of_nat (List.length (x :: es))) with true
    by (symmetry; apply Z.ltb_lt; simpl; lia).
  rewrite !outcome_bind.
  destruct (outcome (for_of mock_company (x :: es))); reflexivity.
Qed.

Lemma mock_authorize_policies_outcome v :
  outcome (mock_authorize_policies v)
  = match v with
    | JArr es => match outcome (for_of mock_policy es) with
                 | Normal es' => Normal (JArr es')
                 | Throw e => Throw e
                 end
    | _ => Normal v
    end.
Proof.
  unfold mock_authorize_policies.
  destruct v as [| b | n | s | es | fs]; try reflexivity.
  destruct es as [|x es]; [reflexivity|].
  replace (0 <? Z.of_nat (List.length (x :: es))) with true
    by (symmetry; apply Z.ltb_lt; simpl; lia).
  rewrite !outcome_bind.
  destruct (outcome (for_of mock_policy (x :: es))); reflexivity.
Qed.

(** C6 -- Each of the two mutation functions is idempotent on every value:
    running it on its own result gives that result again (and a run that
    throws, throws). *)
Theorem transforms_idempotent (v : value) :
  outcome (x <- mock_companies v ;; mock_companies x)
  = outcome (mock_companies v) /\
  outcome (x <- mock_authorize_policies v ;; mock_authorize_policies x)
  = outcome (mock_authorize_policies v).
Proof.
  split; rewrite outcome_bind.
  - destruct (outcome (mock_companies v)) as [v'|e] eqn:E; [|reflexivity].
    rewrite mock_companies_outcome in E |- *.
    destruct v as [| b | n | s | es | fs]; try (injection E as <-; reflexivity).
    destruct (outcome (for_of mock_company es)) as [es'|e] eqn:F; [|discriminate].
    injection E as <-.
    now rewrite (for_of_again _ _ _ mock_company_again F).
  - destruct (outcome (mock_authorize_policies v)) as [v'|e] eqn:E; [|reflexivity].
    rewrite mock_authorize_policies_outcome in E |- *.
    destruct v as [| b | n | s | es | fs]; try (injection E as <-; reflexivity).
    destruct (outcome (for_of mock_policy es)) as [es'|e] eqn:F; [|discriminate].
    injection E as <-.
    now rewrite (for_of_again _ _ _ mock_policy_again F).
Qed.

(* ===================================================================== *)
(** ** What the mutation functions write, and what they leave *)
(* ===================================================================== *)




Lemma lookup_replace k p x fs :
  Obj.assoc k fs <> None ->
  lookup (Key k :: p) (JObj (Obj.replace k x fs)) = lookup p x.
Proof.
  intros H. simpl. rewrite assoc_replace. unfold Obj.has.
  destruct (Obj.assoc k fs); [reflexivity|contradiction].
Qed.





Lemma assoc_grant_same holder flag perms xf :
  Obj.assoc holder perms = Some (JObj xf) ->
  Obj.assoc holder (grant holder flag perms)
  = Some (JObj (Obj.set flag (JBool true) xf)).
Proof.
  intros H. unfold grant. rewrite H. simpl.
  rewrite assoc_replace. unfold Obj.has. now rewrite H.
Qed.

Lemma assoc_grant_other holder holder' flag perms :
  str_eqb holder' holder = false ->
  Obj.assoc holder' (grant holder flag perms) = Obj.assoc holder' perms.
Proof.
  intros N. unfold grant. destruct (Obj.assoc holder perms) as [x|]; [|reflexivity].
  destruct (truthy (Some x)); [|reflexivity]. now apply assoc_replace_other.
Qed.




Lemma Forall2_nth_error_l {A B} (R : A -> B -> Prop) l l' i x :
  Forall2 R l l' -> nth_error l i = Some x ->
  exists x', nth_error l' i = Some x' /\ R x x'.
Proof.
  intros H. revert i. induction H as [|a b l l' Hab H IH]; intros [|i]; simpl;
    try discriminate.
  - intros [= ->]. eauto.
  - apply IH.
Qed.

Lemma Forall2_nth_error_none {A B} (R : A -> B -> Prop) l l' i :
  Forall2 R l l' -> nth_error l i = None -> nth_error l' i = None.
Proof.
  intros H. revert i. induction H as [|a b l l' Hab H IH]; intros [|i]; simpl;
    try discriminate; auto.
Qed.

(** A loop that returns has mapped the closed form over the elements. *)
Lemma mock_companies_elements es v' :
  outcome (mock_companies (JArr es)) = Normal v' ->
  exists es', v' = JArr es' /\ Forall2 (fun x x' => x' = company_fix x) es es'.
Proof.
  rewrite mock_companies_outcome.
  destruct (outcome (for_of mock_company es)) as [es'|e] eqn:F; [|discriminate].
  intros [= <-]. exists es'. split; [reflexivity|].
  apply for_of_normal in F. eapply Forall2_impl; [|exact F].
  intros x x'. cbv beta. rewrite mock_company_closed.
  destruct (is_null x); [discriminate|]. now intros [= <-].
Qed.

Lemma mock_authorize_policies_elements es v' :
  outcome (mock_authorize_policies (JArr es)) = Normal v' ->
  exists es', v' = JArr es' /\ Forall2 (fun x x' => x' = policy_fix x) es es'.
Proof.
  rewrite mock_authorize_policies_outcome.
  destruct (outcome (for_of mock_policy es)) as [es'|e] eqn:F; [|discriminate].
  intros [= <-]. exists es'. split; [reflexivity|].
  apply for_of_normal in F. eapply Forall2_impl; [|exact F].
  intros x x'. cbv beta. rewrite mock_policy_closed.
  destruct (is_null x); [discriminate|].
  destruct (outcome (policy_line (policy_fix x))); [|discriminate].
  now intros [= <-].
Qed.



(** Element by element: a property of the closed form that holds below
    every index carries over to the array. *)
Lemma lookup_elements (f : value -> value) es es' i q :
  Forall2 (fun x x' => x' = f x) es es' ->
  lookup (Idx i :: q) (JArr es')
  = match nth_error es i with
    | Some x => lookup q (f x)
    | None => None
    end.
Proof.
  intros H. simpl. destruct (nth_error es i) as [x|] eqn:E.
  - destruct (Forall2_nth_error_l _ _ _ _ _ H E) as (x' & -> & ->). reflexivity.
  - now rewrite (Forall2_nth_error_none _ _ _ _ H E).
Qed.








Lemma company_fix_falsy c :
  truthy (lookup [Key (lit "permissions"); Key (lit "attendance")] c) = false ->
  truthy (lookup [Key (lit "permissions"); Key (lit "payroll")] c) = false ->
  company_fix c = c.
Proof.
  destruct c as [| b | n | s | es | fs]; try reflexivity.
  unfold company_fix, grant_in. rewrite on_permissions_compose.
  unfold on_permissions. cbn -[lit truthy].
  destruct (Obj.assoc (lit "permissions") fs) as [p|] eqn:Hp; [|reflexivity].
  destruct p as [| b | n | s | es | perms]; try reflexivity.
  cbn -[lit truthy]. intros Ha Hb.
  assert (G1 : grant (lit "attendance") (lit "approve") perms = perms).
  { unfold grant. destruct (Obj.assoc (lit "attendance") perms) as [x|]; [|reflexivity].
    cbn -[lit truthy] in Ha. now rewrite Ha. }
  rewrite G1.
  assert (G2 : grant (lit "payroll") (lit "edit_supplements") perms = perms).
  { unfold grant. destruct (Obj.assoc (lit "payroll") perms) as [x|]; [|reflexivity].
    cbn -[lit truthy] in Hb. now rewrite Hb. }
  rewrite G2. now rewrite (replace_same _ _ _ Hp).
Qed.

Lemma policy_fix_unchanged p :
  includes_value MOCK_POLICIES (lookup [Key (lit "policy_key")] p) = false \/
  truthy (lookup [Key (lit "authorize")] p) = true ->
  policy_fix p = p.
Proof.
  intros H. unfold policy_fix.
  assert (E : policy_mocked p = false); [|now rewrite E].
  destruct p as [| b | n | s | es | fs]; try reflexivity.
  unfold policy_mocked. cbn [lookup] in H.
  destruct (Obj.assoc (lit "policy_key") fs) as [k|], (Obj.assoc (lit "authorize") fs) as [a|];
    destruct H as [H|H]; rewrite ?H, ?andb_false_r; try reflexivity; try discriminate H.
Qed.




(* ===================================================================== *)
(** ** The UTF-8 codec on well-formed input *)
(* ===================================================================== *)

Lemma land_shiftl_low x y k :
  0 <= k -> 0 <= y < 2 ^ k -> Z.land (Z.shiftl x k) y = 0.
Proof.
  intros Hk Hy. apply Z.bits_inj'. intros n Hn.
  rewrite Z.land_spec, Z.bits_0.
  destruct (Z.ltb_spec n k).
  - rewrite Z.shiftl_spec_low by assumption. reflexivity.
  - destruct (Z.eq_dec y 0) as [->|Hy0].
    + rewrite Z.bits_0. apply andb_false_r.
    + rewrite (Z.bits_above_log2 y n); [apply andb_false_r|lia|].
      apply Z.lt_le_trans with k; [|assumption].
      apply Z.log2_lt_pow2; lia.
Qed.

Lemma lor_shiftl_add x y k :
  0 <= k -> 0 <= y < 2 ^ k -> Z.lor (Z.shiftl x k) y = x * 2 ^ k + y.
Proof.
  intros Hk Hy. rewrite <- Z.lxor_lor by now apply land_shiftl_low.
  rewrite <- Z.add_nocarry_lxor by now apply land_shiftl_low.
  now rewrite Z.shiftl_mul_pow2.
Qed.

Lemma land_low x k : 0 <= k -> Z.land x (2 ^ k - 1) = x mod 2 ^ k.
Proof.
  intros Hk. rewrite <- Z.land_ones by assumption.
  f_equal. rewrite Z.ones_equiv. lia.
Qed.

Ltac dlia := Z.div_mod_to_equations; lia.

Ltac decide_tests :=
  repeat match goal with
         | |- context [?a <=? ?b] =>
             first [ replace (a <=? b) with true by (symmetry; apply Z.leb_le; dlia)
                   | replace (a <=? b) with false by (symmetry; apply Z.leb_gt; dlia) ]
         | |- context [?a <? ?b] =>
             first [ replace (a <? b) with true by (symmetry; apply Z.ltb_lt; dlia)
                   | replace (a <? b) with false by (symmetry; apply Z.ltb_ge; dlia) ]
         | |- context [?a =? ?b] =>
             first [ replace (a =? b) with true by (symmetry; apply Z.eqb_eq; dlia)
                   | replace (a =? b) with false by (symmetry; apply Z.eqb_neq; dlia) ]
         end.

Lemma cont_arith c k :
  0 <= c -> 0 <= k -> Utf8.cont c k = 128 + (c / 2 ^ (6 * k)) mod 64.
Proof.
  intros Hc Hk. unfold Utf8.cont.
  rewrite Z.shiftr_div_pow2 by lia.
  change 0x3F with (2 ^ 6 - 1). rewrite land_low by lia.
  change 0x80 with (Z.shiftl 2 6).
  rewrite lor_shiftl_add; [reflexivity|lia|].
  apply Z.mod_pos_bound. lia.
Qed.

Lemma step_continuation st b :
  Utf8.d_needed st <> 0 ->
  Utf8.d_lower st <= b <= Utf8.d_upper st ->
  0x80 <= b <= 0xBF ->
  Utf8.step st b
  = let cp := Utf8.d_cp st * 64 + (b - 0x80) in
    if Utf8.d_seen st + 1 =? Utf8.d_needed st then (Utf8.reset st, [cp])
    else (Utf8.mkD cp (Utf8.d_seen st + 1) (Utf8.d_needed st) 0x80 0xBF
                   (Utf8.d_bom_seen st), []).
Proof.
  intros Hn Hr Hb. unfold Utf8.step.
  apply Z.eqb_neq in Hn. rewrite Hn.
  replace (Utf8.d_lower st <=? b) with true by (symmetry; apply Z.leb_le; lia).
  replace (b <=? Utf8.d_upper st) with true by (symmetry; apply Z.leb_le; lia).
  simpl negb. cbv iota.
  change 0x3F with (2 ^ 6 - 1). rewrite land_low by lia.
  rewrite lor_shiftl_add; [|lia|apply Z.mod_pos_bound; lia].
  replace (b mod 2 ^ 6) with (b - 0x80) by dlia.
  reflexivity.
Qed.


Lemma step_clean bom b : Utf8.step (clean bom) b = Utf8.lead (clean bom) b.
Proof. reflexivity. Qed.

Lemma lead_1 bom b : b <= 0x7F -> Utf8.lead (clean bom) b = (clean bom, [b]).
Proof. intros H. unfold Utf8.lead. decide_tests. reflexivity. Qed.

Lemma lead_2 bom b :
  0xC2 <= b <= 0xDF ->
  Utf8.lead (clean bom) b = (Utf8.mkD (b - 0xC0) 0 1 0x80 0xBF bom, []).
Proof.
  intros H. unfold Utf8.lead. decide_tests. simpl.
  change 31 with (2 ^ 5 - 1). rewrite land_low by lia.
  do 2 f_equal. dlia.
Qed.

Lemma lead_3 bom b :
  0xE0 <= b <= 0xEF ->
  Utf8.lead (clean bom) b
  = (Utf8.mkD (b - 0xE0) 0 2 (if b =? 0xE0 then 0xA0 else 0x80)
              (if b =? 0xED then 0x9F else 0xBF) bom, []).
Proof.
  intros H. unfold Utf8.lead.
  replace (b <=? 0x7F) with false by (symmetry; apply Z.leb_gt; lia).
  replace (0xC2 <=? b) with true by (symmetry; apply Z.leb_le; lia).
  replace (b <=? 0xDF) with false by (symmetry; apply Z.leb_gt; lia).
  replace (0xE0 <=? b) with true by (symmetry; apply Z.leb_le; lia).
  replace (b <=? 0xEF) with true by (symmetry; apply Z.leb_le; lia).
  simpl.
  change 15 with (2 ^ 4 - 1). rewrite land_low by lia.
  do 2 f_equal. dlia.
Qed.

Lemma lead_4 bom b :
  0xF0 <= b <= 0xF4 ->
  Utf8.lead (clean bom) b
  = (Utf8.mkD (b - 0xF0) 0 3 (if b =? 0xF0 then 0x90 else 0x80)
              (if b =? 0xF4 then 0x8F else 0xBF) bom, []).
Proof.
  intros H. unfold Utf8.lead.
  replace (b <=? 0x7F) with false by (symmetry; apply Z.leb_gt; lia).
  replace (0xC2 <=? b) with true by (symmetry; apply Z.leb_le; lia).
  replace (b <=? 0xDF) with false by (symmetry; apply Z.leb_gt; lia).
  replace (0xE0 <=? b) with true by (symmetry; apply Z.leb_le; lia).
  replace (b <=? 0xEF) with false by (symmetry; apply Z.leb_gt; lia).
  replace (0xF0 <=? b) with true by (symmetry; apply Z.leb_le; lia).
  replace (b <=? 0xF4) with true by (symmetry; apply Z.leb_le; lia).
  simpl.
  change 7 with (2 ^ 3 - 1). rewrite land_low by lia.
  do 2 f_equal. dlia.
Qed.

Lemma run_cons st b bs :
  Utf8.run st (b :: bs)
  = let (st1, o1) := Utf8.step st b in
    let (st2, o2) := Utf8.run st1 bs in (st2, o1 ++ o2).
Proof. reflexivity. Qed.

Lemma run_encode_cp bom c bs :
  scalar c = true ->
  Utf8.run (clean bom) (Utf8.encode_cp c ++ bs)
  = let (st, out) := Utf8.run (clean bom) bs in (st, c :: out).
Proof.
  intros Hs. unfold scalar in Hs.
  assert (Hc : 0 <= c < 0xD800 \/ 0xE000 <= c <= 0x10FFFF) by lia. clear Hs.
  unfold Utf8.encode_cp.
  destruct (Z.leb_spec c 0x7F) as [H1|H1].
  { cbn [app]. rewrite run_cons, step_clean, lead_1 by lia.
    destruct (Utf8.run (clean bom) bs). reflexivity. }
  destruct (Z.leb_spec c 0x7FF) as [H2|H2].
  { rewrite !cont_arith by lia. rewrite Z.shiftr_div_pow2 by lia.
    cbn [app]. rewrite run_cons, step_clean, lead_2 by dlia.
    rewrite run_cons, step_continuation; cbn [Utf8.d_needed Utf8.d_lower Utf8.d_upper Utf8.d_cp Utf8.d_seen Utf8.d_bom_seen]; try dlia.
    change (0 + 1 =? 1) with true. cbv iota zeta. unfold Utf8.reset.
    cbn [Utf8.d_bom_seen]. fold (clean bom).
    destruct (Utf8.run (clean bom) bs). cbn [app]. do 2 f_equal. dlia. }
  destruct (Z.leb_spec c 0xFFFF) as [H3|H3].
  { rewrite !cont_arith by lia. rewrite Z.shiftr_div_pow2 by lia.
    cbn [app]. rewrite run_cons, step_clean, lead_3 by dlia.
    rewrite run_cons, step_continuation;
      cbn [Utf8.d_needed Utf8.d_lower Utf8.d_upper Utf8.d_cp Utf8.d_seen Utf8.d_bom_seen];
      [ | lia | | dlia].
    2:{ destruct (Z.eqb_spec (c / 2 ^ 12 + 224) 224), (Z.eqb_spec (c / 2 ^ 12 + 224) 237);
        dlia. }
    change (0 + 1 =? 2) with false. cbv iota zeta.
    rewrite run_cons, step_continuation;
      cbn [Utf8.d_needed Utf8.d_lower Utf8.d_upper Utf8.d_cp Utf8.d_seen Utf8.d_bom_seen];
      try dlia.
    change (0 + 1 + 1 =? 2) with true. cbv iota zeta. unfold Utf8.reset.
    cbn [Utf8.d_bom_seen]. fold (clean bom).
    destruct (Utf8.run (clean bom) bs). cbn [app]. do 2 f_equal. dlia. }
  { rewrite !cont_arith by lia. rewrite Z.shiftr_div_pow2 by lia.
    cbn [app]. rewrite run_cons, step_clean, lead_4 by dlia.
    rewrite run_cons, step_continuation;
      cbn [Utf8.d_needed Utf8.d_lower Utf8.d_upper Utf8.d_cp Utf8.d_seen Utf8.d_bom_seen];
      [ | lia | | dlia].
    2:{ destruct (Z.eqb_spec (c / 2 ^ 18 + 240) 240), (Z.eqb_spec (c / 2 ^ 18 + 240) 244);
        dlia. }
    change (0 + 1 =? 3) with false. cbv iota zeta.
    rewrite run_cons, step_continuation;
      cbn [Utf8.d_needed Utf8.d_lower Utf8.d_upper Utf8.d_cp Utf8.d_seen Utf8.d_bom_seen];
      try dlia.
    change (0 + 1 + 1 =? 3) with false. cbv iota zeta.
    rewrite run_cons, step_continuation;
      cbn [Utf8.d_needed Utf8.d_lower Utf8.d_upper Utf8.d_cp Utf8.d_seen Utf8.d_bom_seen];
      try dlia.
    change (0 + 1 + 1 + 1 =? 3) with true. cbv iota zeta. unfold Utf8.reset.
    cbn [Utf8.d_bom_seen]. fold (clean bom).
    destruct (Utf8.run (clean bom) bs). cbn [app]. do 2 f_equal. dlia. }
Qed.

Lemma run_encode_cps bom cps :
  forallb scalar cps = true ->
  Utf8.run (clean bom) (Utf8.encode_cps cps) = (clean bom, cps).
Proof.
  induction cps as [|c cps IH]; simpl; [reflexivity|].
  intros H. apply andb_true_iff in H as [Hc Hr].
  rewrite run_encode_cp by assumption. now rewrite IH.
Qed.

Lemma of_utf16_units c s :
  scalar c = true ->
  Utf8.of_utf16 (Utf8.units_of_cp c ++ s) = c :: Utf8.of_utf16 s.
Proof.
  intros Hs. unfold scalar in Hs.
  assert (Hc : 0 <= c < 0xD800 \/ 0xE000 <= c <= 0x10FFFF) by lia. clear Hs.
  unfold Utf8.units_of_cp.
  destruct (Z.ltb_spec c 0x10000) as [H|H].
  - cbn [app Utf8.of_utf16]. unfold Utf8.is_high, Utf8.is_low.
    destruct Hc as [Hc|Hc].
    + replace (0xD800 <=? c) with false by (symmetry; apply Z.leb_gt; lia).
      replace (0xDC00 <=? c) with false by (symmetry; apply Z.leb_gt; lia).
      reflexivity.
    + replace (c <=? 0xDBFF) with false by (symmetry; apply Z.leb_gt; lia).
      replace (c <=? 0xDFFF) with false by (symmetry; apply Z.leb_gt; lia).
      rewrite !andb_false_r. reflexivity.
  - rewrite Z.shiftr_div_pow2 by lia.
    change 0x3FF with (2 ^ 10 - 1). rewrite land_low by lia.
    cbn [app Utf8.of_utf16]. unfold Utf8.is_high, Utf8.is_low.
    decide_tests. cbn [andb]. cbv iota.
    rewrite Z.shiftl_mul_pow2 by lia. f_equal. dlia.
Qed.

Lemma of_to_utf16 cps :
  forallb scalar cps = true -> Utf8.of_utf16 (Utf8.to_utf16 cps) = cps.
Proof.
  induction cps as [|c cps IH]; simpl; [reflexivity|].
  intros H. apply andb_true_iff in H as [Hc Hr].
  rewrite of_utf16_units by assumption. now rewrite IH.
Qed.

(** A text without byte order mark, encoded and decoded again. *)
Lemma decode_encode cps :
  forallb scalar cps = true ->
  hd 0 cps <> 0xFEFF ->
  snd (TextDecoder_decode_stream Utf8.init (Utf8.encode_cps cps)) = Utf8.to_utf16 cps /\
  TextEncoder_encode (Utf8.to_utf16 cps) = Utf8.encode_cps cps.
Proof.
  intros Hs Hb. split.
  - unfold TextDecoder_decode_stream. change Utf8.init with (clean false).
    rewrite run_encode_cps by assumption.
    unfold Utf8.strip_bom. simpl Utf8.d_bom_seen. cbv iota.
    destruct cps as [|c cps]; [reflexivity|].
    simpl in Hb. apply Z.eqb_neq in Hb. rewrite Hb. reflexivity.
  - unfold TextEncoder_encode. now rewrite of_to_utf16.
Qed.

(* ===================================================================== *)
(** ** Bodies that do not parse *)
(* ===================================================================== *)

(** C1, as amended -- A response whose body is well-formed UTF-8 without
    byte order mark and is not valid JSON, and whose first chunk ends
    between two characters and is not valid JSON by itself (the first chunk
    is all the handler parses; when the body comes in one chunk this is the
    body): the handler writes the first chunk back byte for byte and
    disconnects, so that the page receives exactly the bytes the server
    sent.  Here [cps] is the text of the first chunk and [more] the text of
    the rest of the body. *)
Theorem unparseable_utf8_passes_through
    (req : requestDetails) (cps more : list Z) (rest : list bytes) :
  ~ In (url req) NOT_INTERESTING_URLS ->
  forallb scalar (cps ++ more) = true ->
  hd 0 (cps ++ more) <> 0xFEFF ->
  List.concat rest = Utf8.encode_cps more ->
  Json.parse (Utf8.to_utf16 (cps ++ more)) = Json.PSyntax ->
  Json.parse (Utf8.to_utf16 cps) = Json.PSyntax ->
  respond req (Utf8.encode_cps cps :: rest)
  = Some (Utf8.encode_cps (cps ++ more),
          [EvFilter (requestId req); EvDecode (Utf8.encode_cps cps);
           EvParse (Utf8.to_utf16 cps); EvEncode (Utf8.to_utf16 cps);
           EvWrite (Utf8.encode_cps cps); EvDisconnect]).
Proof.
  intros Hn Hs Hb Hr _ Hp.
  rewrite forallb_app in Hs. apply andb_true_iff in Hs as [Hs _].
  assert (Hb' : hd 0 cps <> 0xFEFF).
  { destruct cps; [simpl; lia|exact Hb]. }
  destruct (decode_encode cps Hs Hb') as [Hd He].
  pose proof (decode_pair Utf8.init (Utf8.encode_cps cps)) as Hd'.
  rewrite Hd in Hd'.
  pose proof (ondata_syntax_error handle_mocking req _ _ _ _ Hd' Hp) as Ho.
  rewrite (respond_first_chunk req _ rest _ _ _ Hn Ho eq_refl).
  unfold utf8. rewrite He, Hr. simpl. rewrite app_nil_r.
  unfold Utf8.encode_cps. now rewrite flat_map_app.
Qed.

Lemma unparseable_utf8_passes_through_witness :
  respond (mkRequest (lit "7") URL_COMPANIES)
          [Utf8.encode_cps [60; 104; 49; 62; 0x20AC; 0x1F600]; [60; 47; 104]; [49; 62]]
  = Some ([60; 104; 49; 62; 0xE2; 0x82; 0xAC; 0xF0; 0x9F; 0x98; 0x80; 60; 47; 104; 49; 62],
          [EvFilter (lit "7");
           EvDecode [60; 104; 49; 62; 0xE2; 0x82; 0xAC; 0xF0; 0x9F; 0x98; 0x80];
           EvParse [60; 104; 49; 62; 0x20AC; 0xD83D; 0xDE00];
           EvEncode [60; 104; 49; 62; 0x20AC; 0xD83D; 0xDE00];
           EvWrite [60; 104; 49; 62; 0xE2; 0x82; 0xAC; 0xF0; 0x9F; 0x98; 0x80];
           EvDisconnect]).
Proof.
  apply (unparseable_utf8_passes_through
           (mkRequest (lit "7") URL_COMPANIES)
           [60; 104; 49; 62; 0x20AC; 0x1F600] [60; 47; 104; 49; 62]
           [[60; 47; 104]; [49; 62]]).
  - apply includes_not_In. vm_compute. reflexivity.
  - vm_compute. reflexivity.
  - simpl. lia.
  - vm_compute. reflexivity.
  - vm_compute. reflexivity.
  - vm_compute. reflexivity.
Defined.

(** Why the first chunk has to fail by itself: the body [[ 1 ]x] is no valid
    JSON, but cut after [[ 1 ]] its first chunk is; the handler parses that
    chunk and writes it back without its blanks. *)
Lemma valid_first_chunk_is_rewritten :
  Json.parse (qlit "[ 1 ]x") = Json.PSyntax /\
  delivered (mkRequest (lit "7") (lit "https://api.factorialhr.com/stats"))
            [utf8 (qlit "[ 1 ]"); utf8 (qlit "x")]
  = Some (utf8 (qlit "[1]x")).
Proof. vm_compute. split; reflexivity. Qed.

(** C1, as stated, fails: the single byte [0xFF] is no valid JSON, and the
    page receives the three bytes of U+FFFD instead. *)
Lemma invalid_utf8_is_rewritten :
  ~ (forall (req : requestDetails) (chunk : bytes),
        ~ In (url req) NOT_INTERESTING_URLS ->
        Json.parse (snd (TextDecoder_decode_stream Utf8.init chunk)) = Json.PSyntax ->
        delivered req [chunk] = Some chunk).
Proof.
  intros H.
  specialize (H (mkRequest (lit "7") URL_COMPANIES) [255]).
  assert (Hn : ~ In (url (mkRequest (lit "7") URL_COMPANIES)) NOT_INTERESTING_URLS)
    by (apply includes_not_In; vm_compute; reflexivity).
  specialize (H Hn eq_refl). vm_compute in H. discriminate H.
Qed.

(* ===================================================================== *)
(** ** Failures of the mutation functions *)
(* ===================================================================== *)

(** C8, as amended -- Whatever the dispatcher: when it throws on the parsed
    body, the handler itself completes normally, and after the events of the
    failed call it writes the whole decoded text of the chunk, once, and
    disconnects.  For the dispatcher of the script, the page then receives
    the encoding of that text followed by the rest of the response; what is
    written is the chunk itself when the chunk is well-formed UTF-8 without
    byte order mark. *)
Theorem transform_failure_is_contained
    (dispatch : jsstring -> value -> M value)
    (req : requestDetails) (decoder decoder' : Utf8.dstate)
    (chunk : bytes) (str : jsstring) (v : value) (e : error) (t : list event) :
  TextDecoder_decode_stream decoder chunk = (decoder', str) ->
  Json.parse str = Json.POk v ->
  dispatch (url req) v = (Throw e, t) ->
  ondata_with dispatch req decoder chunk
  = Some (decoder',
          (Normal tt,
           EvDecode chunk :: EvParse str :: t ++
           [EvEncode str; EvWrite (utf8 str); EvDisconnect])) /\
  (dispatch = handle_mocking -> decoder = Utf8.init ->
   ~ In (url req) NOT_INTERESTING_URLS ->
   (forall rest,
       delivered req (chunk :: rest) = Some (utf8 str ++ List.concat rest)) /\
   (forall cps,
       forallb scalar cps = true -> hd 0 cps <> 0xFEFF ->
       chunk = Utf8.encode_cps cps -> utf8 str = chunk)).
Proof.
  intros Hd Hp Ht.
  pose proof (ondata_throws dispatch req _ _ _ _ Hd v e t Hp Ht) as Ho.
  split; [exact Ho|].
  intros -> -> Hn. split.
  - intros rest. unfold delivered.
    rewrite (respond_first_chunk req chunk rest _ _ _ Hn Ho).
    + simpl. rewrite writes_of_app.
      destruct (quiet_handle_mocking (url req) v) as [W _].
      rewrite Ht in W. simpl in W. rewrite W. simpl. now rewrite app_nil_r.
    + simpl. rewrite disconnected_app. simpl. apply orb_true_r.
  - intros cps Hs Hb ->. destruct (decode_encode cps Hs Hb) as [Hd' He].
    rewrite Hd in Hd'. simpl in Hd'. subst str. exact He.
Qed.

Lemma transform_failure_is_contained_witness :
  let req := mkRequest (lit "7") URL_COMPANIES in
  let body := qlit "[{'permissions':{'attendance':{'approve':false}}},null]" in
  ondata req Utf8.init (utf8 body)
  = Some (Utf8.mkD 0 0 0 0x80 0xBF true,
          (Normal tt,
           [EvDecode (utf8 body); EvParse body; EvTransform MockCompanies;
            EvLog (LStr (lit "Companies original response:"));
            EvLog (LVal (JArr [JObj [(lit "permissions",
                     JObj [(lit "attendance", JObj [(lit "approve", JBool false)])])];
                               JNull]));
            EvEncode body; EvWrite (utf8 body); EvDisconnect])) /\
  delivered req [utf8 body] = Some (utf8 body).
Proof.
  intros req body.
  destruct (transform_failure_is_contained handle_mocking req Utf8.init
              (Utf8.mkD 0 0 0 0x80 0xBF true) (utf8 body) body
              (JArr [JObj [(lit "permissions",
                     JObj [(lit "attendance", JObj [(lit "approve", JBool false)])])];
                     JNull])
              TypeError
              [EvTransform MockCompanies;
               EvLog (LStr (lit "Companies original response:"));
               EvLog (LVal (JArr [JObj [(lit "permissions",
                     JObj [(lit "attendance", JObj [(lit "approve", JBool false)])])];
                               JNull]))])
    as [H1 H2]; try (vm_compute; reflexivity).
  split.
  - exact H1.
  - destruct (H2 eq_refl eq_refl) as [H3 _].
    + apply includes_not_In. vm_compute. reflexivity.
    + rewrite H3. vm_compute. reflexivity.
Defined.

(** C8, as stated, fails: on [/companies], the chunk [["<0xFF>",null]]
    parses, [mock_companies] throws on its [null] element, and what the page
    receives is not the body as the server sent it: the byte [0xFF] has
    become the three bytes of U+FFFD. *)
Lemma failed_transform_rewrites_invalid_utf8 :
  ~ (forall (req : requestDetails) (chunk : bytes) (v : value) (e : error)
            (t : list event),
        ~ In (url req) NOT_INTERESTING_URLS ->
        Json.parse (snd (TextDecoder_decode_stream Utf8.init chunk)) = Json.POk v ->
        handle_mocking (url req) v = (Throw e, t) ->
        delivered req [chunk] = Some chunk).
Proof.
  intros H.
  specialize (H (mkRequest (lit "7") URL_COMPANIES)
                [91; 34; 255; 34; 44; 110; 117; 108; 108; 93]
                (JArr [JStr [0xFFFD]; JNull]) TypeError
                [EvTransform MockCompanies;
                 EvLog (LStr (lit "Companies original response:"));
                 EvLog (LVal (JArr [JStr [0xFFFD]; JNull]))]).
  assert (Hn : ~ In (url (mkRequest (lit "7") URL_COMPANIES)) NOT_INTERESTING_URLS)
    by (apply includes_not_In; vm_compute; reflexivity).
  specialize (H Hn ltac:(vm_compute; reflexivity) ltac:(vm_compute; reflexivity)).
  vm_compute in H. discriminate H.
Qed.

(* ===================================================================== *)
(** ** JSON: parsing what was printed *)
(* ===================================================================== *)

Module NumFacts.
Import Num Obj.

Lemma digits_aux_acc fuel n acc :
  digits_aux fuel n acc = digits_aux fuel n [] ++ acc.
Proof.
  revert n acc. induction fuel as [|f IH]; intros n acc; simpl; [reflexivity|].
  destruct (n <? 10); [reflexivity|].
  rewrite IH, (IH _ [_]), <- app_assoc. reflexivity.
Qed.

Lemma digits_aux_step f n :
  digits_aux (S f) n []
  = if n <? 10 then [48 + n] else digits_aux f (n / 10) [] ++ [48 + n mod 10].
Proof. simpl. destruct (n <? 10); [reflexivity|apply digits_aux_acc]. Qed.

Lemma digits_value_snoc ds d :
  digits_value (ds ++ [d]) = 10 * digits_value ds + (d - 48).
Proof. unfold digits_value. now rewrite fold_left_app. Qed.

Lemma digits_aux_value f n :
  0 <= n < 2 ^ Z.of_nat f -> digits_value (digits_aux f n []) = n.
Proof.
  revert n. induction f as [|f IH]; intros n Hn.
  - simpl in *. cbv [digits_value fold_left]. lia.
  - rewrite digits_aux_step. destruct (Z.ltb_spec n 10).
    + cbv [digits_value fold_left]. lia.
    + rewrite digits_value_snoc, IH.
      * Z.div_mod_to_equations; lia.
      * rewrite Nat2Z.inj_succ, Z.pow_succ_r in Hn by lia.
        Z.div_mod_to_equations; lia.
Qed.

Lemma digits_aux_digits f n :
  0 <= n -> forallb is_digit (digits_aux f n []) = true.
Proof.
  revert n. induction f as [|f IH]; intros n Hn; [reflexivity|].
  rewrite digits_aux_step. destruct (Z.ltb_spec n 10).
  - cbn [forallb]. unfold is_digit. rewrite andb_true_r.
    apply andb_true_iff. split; apply Z.leb_le; lia.
  - rewrite forallb_app, IH by (Z.div_mod_to_equations; lia).
    cbn [forallb andb]. unfold is_digit. rewrite andb_true_r.
    apply andb_true_iff. split; apply Z.leb_le; Z.div_mod_to_equations; lia.
Qed.

Lemma digits_aux_head f n :
  0 < n < 2 ^ Z.of_nat f ->
  exists d ds, digits_aux f n [] = d :: ds /\ d <> 48.
Proof.
  revert n. induction f as [|f IH]; intros n Hn.
  - simpl in Hn. lia.
  - rewrite digits_aux_step. destruct (Z.ltb_spec n 10).
    + exists (48 + n), []. split; [reflexivity|lia].
    + destruct (IH (n / 10)) as (d & ds & E & Hd).
      { rewrite Nat2Z.inj_succ, Z.pow_succ_r in Hn by lia.
        Z.div_mod_to_equations; lia. }
      rewrite E. exists d, (ds ++ [48 + n mod 10]). split; [reflexivity|assumption].
Qed.

Lemma digits_fuel n : 0 <= n -> n < 2 ^ Z.of_nat (S (Z.to_nat (Z.log2 n))).
Proof.
  intros Hn. rewrite Nat2Z.inj_succ, Z2Nat.id by apply Z.log2_nonneg.
  destruct (Z.eq_dec n 0) as [->|N]; [reflexivity|].
  apply Z.log2_spec. lia.
Qed.

Lemma digits_value_digits n : 0 <= n -> digits_value (digits n) = n.
Proof.
  intros Hn. apply digits_aux_value. split; [assumption|now apply digits_fuel].
Qed.

Lemma digits_all n : 0 <= n -> forallb is_digit (digits n) = true.
Proof. apply digits_aux_digits. Qed.

Lemma digits_zero : digits 0 = [48].
Proof. reflexivity. Qed.

Lemma digits_head n :
  0 < n -> exists d ds, digits n = d :: ds /\ d <> 48 /\ is_digit d = true.
Proof.
  intros Hn. destruct (digits_aux_head (S (Z.to_nat (Z.log2 n))) n) as (d & ds & E & Hd).
  { split; [assumption|apply digits_fuel; lia]. }
  exists d, ds. repeat split; try assumption.
  pose proof (digits_all n ltac:(lia)) as A. unfold digits in A. rewrite E in A.
  cbn [forallb] in A. now apply andb_true_iff in A.
Qed.

Lemma digits_nonempty n : digits n <> [].
Proof.
  unfold digits. cbn [digits_aux]. destruct (n <? 10); [discriminate|].
  rewrite digits_aux_acc. now destruct (digits_aux _ _ []).
Qed.

(** *** Rounding *)

Lemma eqb_eq x y : eqb x y = true -> x = y.
Proof.
  destruct x, y; simpl; try discriminate.
  - intros H. apply Z.eqb_eq in H. now subst.
  - intros H. apply andb_true_iff in H as [H1 H2].
    apply Z.eqb_eq in H1. apply Pos.eqb_eq in H2. now subst.
  - reflexivity.
  - intros H. apply Bool.eqb_prop in H. now subst.
Qed.

Lemma round_half_even_exact m den :
  0 < den -> round_half_even (m * den) den = m.
Proof.
  intros H. unfold round_half_even.
  rewrite Z.div_mul, Z.mod_mul by lia.
  destruct (Z.ltb_spec (2 * 0) den); [reflexivity|lia].
Qed.

Lemma round_half_even_scale c num den :
  0 < c -> 0 < den ->
  round_half_even (c * num) (c * den) = round_half_even num den.
Proof.
  intros Hc Hd. unfold round_half_even.
  rewrite Z.div_mul_cancel_l, Z.mul_mod_distr_l by lia.
  destruct (Z.ltb_spec (2 * (num mod den)) den), (Z.ltb_spec (2 * (c * (num mod den))) (c * den));
    try reflexivity; try nia.
  destruct (Z.ltb_spec den (2 * (num mod den))), (Z.ltb_spec (c * den) (2 * (c * (num mod den))));
    try reflexivity; nia.
Qed.

Lemma round_half_even_bounds num den :
  0 <= num -> 0 < den ->
  num / den <= round_half_even num den <= num / den + 1.
Proof.
  intros Hn Hd. unfold round_half_even.
  destruct (2 * (num mod den) <? den); [lia|].
  destruct (den <? 2 * (num mod den)); [lia|].
  destruct (Z.even (num / den)); lia.
Qed.

Lemma reduce_shift n j : reduce (n * 2 ^ Z.of_nat j) j = Int n.
Proof.
  induction j as [|j IH]; [simpl; now rewrite Z.mul_1_r|].
  cbn [reduce]. rewrite Nat2Z.inj_succ, Z.pow_succ_r by lia.
  replace (n * (2 * 2 ^ Z.of_nat j)) with (2 * (n * 2 ^ Z.of_nat j)) by ring.
  rewrite Z.even_mul. cbn [Z.even orb].
  rewrite Z.mul_comm, Z.div_mul by lia. exact IH.
Qed.

Lemma reduce_frac m j e :
  Z.odd m = true ->
  reduce (m * 2 ^ Z.of_nat j) (j + S e) = Frac m (Pos.of_succ_nat e).
Proof.
  intros Ho. induction j as [|j IH].
  - cbn [Nat.add reduce Z.of_nat]. rewrite Z.pow_0_r, Z.mul_1_r.
    rewrite <- Z.negb_odd, Ho. reflexivity.
  - cbn [Nat.add reduce]. rewrite Nat2Z.inj_succ, Z.pow_succ_r by lia.
    replace (m * (2 * 2 ^ Z.of_nat j)) with (2 * (m * 2 ^ Z.of_nat j)) by ring.
    rewrite Z.even_mul. cbn [Z.even orb].
    rewrite Z.mul_comm, Z.div_mul by lia. exact IH.
Qed.

Lemma of_ratio_scale c p q :
  0 < c -> 0 < q -> of_ratio (c * p) (c * q) = of_ratio p q.
Proof.
  intros Hc Hq. unfold of_ratio.
  rewrite <- !Z.mul_assoc, Z.div_mul_cancel_l by lia.
  rewrite round_half_even_scale; [reflexivity|lia|].
  apply Z.mul_pos_pos; [lia|]. apply Z.pow_pos_nonneg; lia.
Qed.

Lemma round_half_even_zero den : 0 < den -> round_half_even 0 den = 0.
Proof. intros H. exact (round_half_even_exact 0 den H). Qed.

Lemma of_ratio_zero q : 0 < q -> of_ratio 0 q = Int 0.
Proof.
  intros Hq. unfold of_ratio. rewrite Z.mul_0_l, Z.div_0_l by lia.
  change (Z.max (Z.log2 0 - 52) 0) with 0. rewrite Z.pow_0_r, Z.mul_1_r.
  rewrite round_half_even_zero by lia.
  change (1074 <=? 0) with false. cbv iota.
  change (Z.to_nat (1074 - 0)) with 1074%nat.
  exact (reduce_shift 0 1074).
Qed.

Lemma pow2_pos e : 0 < 2 ^ e \/ e < 0.
Proof. destruct (Z.lt_ge_cases e 0); [now right|left; apply Z.pow_pos_nonneg; lia]. Qed.

Lemma log2_odd_part a b :
  0 < a -> 0 <= b -> Z.log2 (a * 2 ^ b) = Z.log2 a + b.
Proof. intros. rewrite Z.log2_mul_pow2 by lia. lia. Qed.

Lemma log2_bound a : 0 < a < 2 ^ 53 -> 0 <= Z.log2 a <= 52.
Proof.
  intros H. split; [apply Z.log2_nonneg|].
  assert (Z.log2 a < 53) by (apply Z.log2_lt_pow2; lia). lia.
Qed.

(** An integer that a double holds is the Number value for itself. *)
Lemma of_ratio_int a b :
  0 < a < 2 ^ 53 -> 0 <= b -> a * 2 ^ b < 2 ^ 1024 ->
  of_ratio (a * 2 ^ b) 1 = Int (a * 2 ^ b).
Proof.
  intros Ha Hb Hn. pose proof (log2_bound a Ha) as Hl.
  unfold of_ratio. rewrite Z.div_1_r, Z.mul_1_l.
  rewrite <- Z.mul_assoc, <- Z.pow_add_r by lia.
  rewrite log2_odd_part by lia.
  rewrite Z.max_l by lia.
  set (sh := Z.log2 a + (b + 1074) - 52).
  replace (a * 2 ^ (b + 1074)) with (a * 2 ^ (52 - Z.log2 a) * 2 ^ sh).
  2:{ rewrite <- Z.mul_assoc, <- Z.pow_add_r by (unfold sh; lia).
      do 2 f_equal. unfold sh. lia. }
  rewrite round_half_even_exact by (apply Z.pow_pos_nonneg; unfold sh; lia).
  destruct (Z.leb_spec 1074 sh) as [L|L].
  - replace (a * 2 ^ (52 - Z.log2 a) * 2 ^ (sh - 1074)) with (a * 2 ^ b).
    2:{ rewrite <- Z.mul_assoc, <- Z.pow_add_r by lia.
        do 2 f_equal. unfold sh. lia. }
    destruct (Z.ltb_spec (a * 2 ^ b) (2 ^ 1024)); [reflexivity|lia].
  - replace (a * 2 ^ (52 - Z.log2 a)) with (a * 2 ^ b * 2 ^ Z.of_nat (Z.to_nat (1074 - sh))).
    + apply reduce_shift.
    + rewrite Z2Nat.id by lia. rewrite <- Z.mul_assoc, <- Z.pow_add_r by lia.
      do 2 f_equal. unfold sh. lia.
Qed.

(** So is a dyadic fraction that a double holds. *)
Lemma of_ratio_frac m e :
  Z.odd m = true -> 0 < m < 2 ^ 53 -> Zpos e <= 1074 ->
  of_ratio m (2 ^ Zpos e) = Frac m e.
Proof.
  intros Ho Hm He. pose proof (log2_bound m Hm) as Hl.
  assert (Hp : 0 < 2 ^ Zpos e) by (apply Z.pow_pos_nonneg; lia).
  unfold of_ratio.
  replace (m * 2 ^ 1074) with (m * 2 ^ (1074 - Zpos e) * 2 ^ Zpos e).
  2:{ rewrite <- Z.mul_assoc, <- Z.pow_add_r by lia. do 2 f_equal. lia. }
  rewrite Z.div_mul by lia.
  rewrite log2_odd_part by lia.
  set (sh := Z.max (Z.log2 m + (1074 - Zpos e) - 52) 0).
  assert (Hsh : 0 <= sh <= 1074 - Zpos e) by (unfold sh; lia).
  replace (m * 2 ^ (1074 - Zpos e) * 2 ^ Zpos e)
    with (m * 2 ^ (1074 - Zpos e - sh) * (2 ^ Zpos e * 2 ^ sh)).
  2:{ rewrite <- !Z.mul_assoc, <- !Z.pow_add_r by lia. do 2 f_equal. lia. }
  rewrite round_half_even_exact
    by (apply Z.mul_pos_pos; [assumption|apply Z.pow_pos_nonneg; lia]).
  destruct (Z.leb_spec 1074 sh) as [L|L]; [lia|].
  replace (Z.to_nat (1074 - sh))
    with (Z.to_nat (1074 - Zpos e - sh) + S (Z.to_nat (Zpos e - 1)))%nat by lia.
  replace (m * 2 ^ (1074 - Zpos e - sh))
    with (m * 2 ^ Z.of_nat (Z.to_nat (1074 - Zpos e - sh)))
    by (rewrite Z2Nat.id by lia; reflexivity).
  rewrite reduce_frac by assumption. f_equal. lia.
Qed.

Lemma representable_int_bounded m b :
  0 <= m <= 2 ^ 53 -> 0 <= b -> m * 2 ^ b < 2 ^ 1024 ->
  representable (Int (m * 2 ^ b)).
Proof.
  intros Hm Hb Hn. cbn [representable].
  assert (0 < 2 ^ b) by (apply Z.pow_pos_nonneg; lia).
  destruct (Z.eq_dec m (2 ^ 53)) as [->|N].
  - exists 1, (53 + b). rewrite Z.pow_add_r by lia.
    repeat split; rewrite ?Z.abs_eq by nia; lia.
  - exists m, b. repeat split; rewrite ?Z.abs_eq by nia; lia.
Qed.

Lemma reduce_representable m e :
  0 <= m <= 2 ^ 53 -> (e <= 1074)%nat -> representable (reduce m e).
Proof.
  revert m. induction e as [|e IH]; intros m Hm He; cbn [reduce].
  - replace m with (m * 2 ^ 0) by (rewrite Z.pow_0_r; lia).
    apply representable_int_bounded; lia.
  - destruct (Z.even m) eqn:E.
    + apply IH; [|lia]. split; [apply Z.div_pos; lia|].
      apply Z.div_le_upper_bound; lia.
    + cbn [representable]. rewrite <- Z.negb_even, E.
      repeat split; try lia.
      destruct (Z.eq_dec m (2 ^ 53)) as [->|N]; [discriminate E|lia].
Qed.

(** What [of_ratio] gives is a double. *)
Lemma of_ratio_representable p q :
  0 <= p -> 0 < q -> representable (of_ratio p q).
Proof.
  intros Hp Hq. unfold of_ratio.
  set (N := p * 2 ^ 1074).
  assert (HN : 0 <= N) by (unfold N; apply Z.mul_nonneg_nonneg; [lia|apply Z.pow_nonneg; lia]).
  set (t := N / q). assert (Ht : 0 <= t) by (apply Z.div_pos; lia).
  set (sh := Z.max (Z.log2 t - 52) 0).
  assert (Hsh : 0 <= sh) by (unfold sh; lia).
  assert (H2 : 0 < 2 ^ sh) by (apply Z.pow_pos_nonneg; lia).
  assert (Hfloor : N / (q * 2 ^ sh) < 2 ^ 53).
  { rewrite <- Z.div_div by lia. fold t.
    apply Z.div_lt_upper_bound; [lia|].
    rewrite <- Z.pow_add_r by lia.
    destruct (Z.eq_dec t 0) as [->|Nz]; [apply Z.pow_pos_nonneg; lia|].
    apply Z.log2_lt_pow2; [lia|]. unfold sh. lia. }
  pose proof (round_half_even_bounds N (q * 2 ^ sh) HN ltac:(nia)) as Hr.
  assert (H0 : 0 <= N / (q * 2 ^ sh)) by (apply Z.div_pos; nia).
  set (m := round_half_even N (q * 2 ^ sh)) in *.
  destruct (Z.leb_spec 1074 sh) as [L|L].
  - destruct (Z.ltb_spec (m * 2 ^ (sh - 1074)) (2 ^ 1024)); [|exact I].
    apply representable_int_bounded; lia.
  - apply reduce_representable; lia.
Qed.

Lemma negate_representable x : representable x -> representable (negate x).
Proof.
  destruct x as [n|m e| |s]; cbn [negate representable]; try trivial.
  - intros (a & b & -> & Hb & Ha & Hn).
    destruct (a * 2 ^ b =? 0); [exact I|].
    exists (- a), b. rewrite Z.abs_opp. repeat split; lia.
  - intros (Ho & Hm & He). rewrite Z.odd_opp, Z.abs_opp. auto.
  - intros _. exists 0, 0. repeat split; lia.
Qed.

Lemma of_decimal_representable neg m e :
  0 <= m -> representable (of_decimal neg m e).
Proof.
  intros Hm. unfold of_decimal.
  assert (R : representable (of_ratio (m * 10 ^ Z.max e 0) (10 ^ Z.max (- e) 0))).
  { apply of_ratio_representable.
    - apply Z.mul_nonneg_nonneg; [lia|apply Z.pow_nonneg; lia].
    - apply Z.pow_pos_nonneg; lia. }
  destruct neg; [now apply negate_representable|exact R].
Qed.

(** *** The digits of [Number::toString] denote the number *)

Lemma ratio_exact x :
  representable x -> Num.portable x = true ->
  of_ratio (fst (ratio x)) (snd (ratio x)) = magnitude x.
Proof.
  destruct x as [n|m e| |s]; cbn [representable Num.portable ratio fst snd];
    try discriminate; intros H _; unfold magnitude; cbn [negative negate].
  - destruct H as (a & b & -> & Hb & Ha & Hn).
    assert (H2 : 0 < 2 ^ b) by (apply Z.pow_pos_nonneg; lia).
    destruct (Z.eq_dec a 0) as [->|Nz].
    { rewrite Z.mul_0_l. simpl. now apply of_ratio_zero. }
    rewrite Z.abs_mul, (Z.abs_eq (2 ^ b)) in * by lia.
    destruct (Z.ltb_spec (a * 2 ^ b) 0) as [L|L].
    + destruct (Z.eqb_spec (a * 2 ^ b) 0); [lia|].
      rewrite <- Z.mul_opp_l. replace (Z.abs a) with (- a) by lia.
      apply of_ratio_int; lia.
    + replace (Z.abs a) with a by nia. apply of_ratio_int; nia.
  - destruct H as (Ho & Hm & He).
    destruct (Z.ltb_spec m 0) as [L|L].
    + replace (Z.abs m) with (- m) in * by lia.
      apply of_ratio_frac; [now rewrite Z.odd_opp|lia|lia].
    + replace (Z.abs m) with m in * by lia.
      assert (m <> 0) by (intros ->; discriminate Ho).
      apply of_ratio_frac; [assumption|lia|lia].
Qed.

Lemma eqb_refl x : eqb x x = true.
Proof.
  destruct x as [n|m e| |s]; cbn [eqb].
  - apply Z.eqb_refl.
  - now rewrite Z.eqb_refl, Pos.eqb_refl.
  - reflexivity.
  - now destruct s.
Qed.

Lemma try_digits_valid x p q n k c :
  try_digits x p q n k = Some c -> valid x c = true.
Proof.
  unfold try_digits.
  set (lo := (p * 10 ^ Z.max (k - n) 0 / (q * 10 ^ Z.max (n - k) 0), n)).
  set (hi := if _ =? _ then _ else _).
  destruct (valid x lo) eqn:Vl, (valid x hi) eqn:Vh; cbn [andb];
    repeat match goal with
           | |- (if ?b then _ else _) = _ -> _ => destruct b
           end; intros [= <-]; assumption.
Qed.

Lemma try_digits_nonneg x p q n k c :
  0 <= p -> 0 < q -> try_digits x p q n k = Some c -> 0 <= fst c.
Proof.
  intros Hp Hq. unfold try_digits.
  set (num := p * 10 ^ Z.max (k - n) 0). set (den := q * 10 ^ Z.max (n - k) 0).
  assert (Hl : 0 <= num / den).
  { apply Z.div_pos.
    - apply Z.mul_nonneg_nonneg; [lia|apply Z.pow_nonneg; lia].
    - apply Z.mul_pos_pos; [lia|apply Z.pow_pos_nonneg; lia]. }
  assert (Hh : 0 <= fst (if num / den + 1 =? 10 ^ k
                         then (10 ^ (k - 1), n + 1) else (num / den + 1, n))).
  { destruct (_ =? _); cbn [fst]; [apply Z.pow_nonneg|]; lia. }
  set (hi := if _ =? _ then _ else _) in *.
  repeat match goal with
         | |- (if ?b then _ else _) = _ -> _ => destruct b
         end; intros [= <-]; assumption.
Qed.

Lemma ratio_pos x : 0 <= fst (ratio x) /\ 0 < snd (ratio x).
Proof.
  destruct x as [n|m e| |s]; cbn [ratio fst snd]; lia.
Qed.

Lemma ratio_pow2 x : snd (ratio x) = 2 ^ Z.log2 (snd (ratio x)).
Proof.
  destruct x as [n|m e| |s]; cbn [ratio snd]; try reflexivity.
  now rewrite Z.log2_pow2 by lia.
Qed.

Lemma exact_valid x :
  representable x -> Num.portable x = true ->
  valid (magnitude x) (exact (fst (ratio x)) (snd (ratio x))) = true.
Proof.
  intros Hr Hp. unfold valid, exact. cbn [fst snd].
  destruct (ratio_pos x) as [H0 H1]. pose proof (ratio_pow2 x) as H2.
  pose proof (ratio_exact x Hr Hp) as He.
  set (p := fst (ratio x)) in *. set (q := snd (ratio x)) in *.
  set (j := Z.log2 q) in *.
  assert (Hj : 0 <= j) by apply Z.log2_nonneg.
  replace (ndigits (p * 5 ^ j) - j - ndigits (p * 5 ^ j)) with (- j) by lia.
  unfold of_decimal. rewrite Z.max_r, Z.max_l by lia.
  rewrite Z.opp_involutive, Z.pow_0_r, Z.mul_1_r.
  replace (10 ^ j) with (5 ^ j * q).
  2:{ rewrite H2. change 10 with (5 * 2). now rewrite Z.pow_mul_l. }
  rewrite (Z.mul_comm p), of_ratio_scale by (try apply Z.pow_pos_nonneg; lia).
  rewrite He. apply eqb_refl.
Qed.

Lemma shortest_from_valid fuel x n k :
  representable x -> Num.portable x = true ->
  valid (magnitude x) (shortest_from fuel (magnitude x) (fst (ratio x)) (snd (ratio x)) n k) = true
  /\ 0 <= fst (shortest_from fuel (magnitude x) (fst (ratio x)) (snd (ratio x)) n k).
Proof.
  intros Hr Hp. destruct (ratio_pos x) as [H0 H1].
  revert k. induction fuel as [|f IH]; intros k; cbn [shortest_from].
  - split; [now apply exact_valid|]. unfold exact. cbn [fst].
    apply Z.mul_nonneg_nonneg; [assumption|apply Z.pow_nonneg; lia].
  - destruct (try_digits _ _ _ n k) as [c|] eqn:E; [|apply IH].
    split; [eapply try_digits_valid; eassumption|eapply try_digits_nonneg; eassumption].
Qed.

Lemma shortest_unfold x :
  shortest x
  = shortest_from 17 (magnitude x) (fst (ratio x)) (snd (ratio x))
                  (decimal_exponent (fst (ratio x)) (snd (ratio x))) 1.
Proof. unfold shortest. now destruct (ratio x). Qed.

(** The digits [s] and the exponent [n] that [Number::toString] chooses for
    a finite [x] other than [-0] denote the magnitude of [x]. *)
Lemma shortest_valid x :
  representable x -> Num.portable x = true ->
  of_decimal false (fst (shortest x)) (snd (shortest x) - ndigits (fst (shortest x)))
  = magnitude x /\ 0 <= fst (shortest x).
Proof.
  intros Hr Hp. rewrite shortest_unfold.
  generalize (shortest_from_valid 17 x
                (decimal_exponent (fst (ratio x)) (snd (ratio x))) 1 Hr Hp).
  generalize (shortest_from 17 (magnitude x) (fst (ratio x)) (snd (ratio x))
                (decimal_exponent (fst (ratio x)) (snd (ratio x))) 1).
  intros c [V N]. split; [|exact N]. apply eqb_eq. exact V.
Qed.

Lemma of_decimal_zero neg e :
  of_decimal neg 0 e = if neg then NegZero else Int 0.
Proof.
  unfold of_decimal. rewrite Z.mul_0_l, of_ratio_zero by (apply Z.pow_pos_nonneg; lia).
  now destruct neg.
Qed.

Lemma magnitude_nonzero x : is_zero x = false -> magnitude x <> Int 0.
Proof.
  unfold magnitude. destruct x as [n|m e| |s]; cbn [is_zero negative negate]; try discriminate.
  - intros H. destruct (n <? 0); [rewrite H|]; intros [= E]; apply Z.eqb_neq in H; lia.
  - intros _. destruct (m <? 0); discriminate.
  - intros _. destruct s; discriminate.
Qed.

Lemma shortest_pos x :
  representable x -> Num.portable x = true -> is_zero x = false -> 0 < fst (shortest x).
Proof.
  intros Hr Hp Hz. destruct (shortest_valid x Hr Hp) as [V N].
  destruct (Z.eq_dec (fst (shortest x)) 0) as [E|E]; [|lia].
  rewrite E, of_decimal_zero in V. symmetry in V.
  now apply magnitude_nonzero in V.
Qed.

Lemma negate_magnitude x :
  Num.portable x = true -> is_zero x = false -> negative x = true -> negate (magnitude x) = x.
Proof.
  unfold magnitude. destruct x as [n|m e| |s]; cbn [Num.portable is_zero negative negate];
    try discriminate; intros _ Hz Hn; rewrite ?Hn.
  - rewrite Hz. cbn [negate]. apply Z.eqb_neq in Hz.
    destruct (Z.eqb_spec (- n) 0); [lia|]. now rewrite Z.opp_involutive.
  - cbn [negate]. now rewrite Z.opp_involutive.
Qed.

(** *** The first character of what [Number::toString] writes *)

Lemma shortest_from_nonneg fuel x p q n k :
  0 <= p -> 0 < q -> 0 <= fst (shortest_from fuel x p q n k).
Proof.
  intros H0 H1. revert k. induction fuel as [|f IH]; intros k; cbn [shortest_from].
  - unfold exact. cbn [fst]. apply Z.mul_nonneg_nonneg; [assumption|apply Z.pow_nonneg; lia].
  - destruct (try_digits _ p q n k) as [c|] eqn:E; [|apply IH].
    eapply try_digits_nonneg; eassumption.
Qed.

Lemma shortest_nonneg x : 0 <= fst (shortest x).
Proof.
  unfold shortest. destruct (ratio_pos x) as [H0 H1].
  destruct (ratio x) as [p q]. now apply shortest_from_nonneg.
Qed.

Lemma digits_first n :
  0 <= n -> exists d ds, digits n = d :: ds /\ 48 <= d <= 57.
Proof.
  intros Hn. pose proof (digits_all n Hn) as A. pose proof (digits_nonempty n) as N.
  destruct (digits n) as [|d ds]; [contradiction|].
  cbn [forallb] in A. apply andb_true_iff in A as [A _].
  unfold is_digit in A. exists d, ds. split; [reflexivity|lia].
Qed.

Lemma format_head s n :
  0 <= s -> exists c tl, format s n = c :: tl /\ 48 <= c <= 57.
Proof.
  intros Hs. destruct (digits_first s Hs) as (d & ds & E & Hd).
  unfold format. rewrite E.
  destruct ((Z.of_nat (List.length (d :: ds)) <=? n) && (n <=? 21));
    [cbn [app]; eauto|].
  destruct ((0 <? n) && (n <=? 21)) eqn:B.
  { apply andb_true_iff in B as [B _]. apply Z.ltb_lt in B.
    destruct (Z.to_nat n) as [|j] eqn:Ej; [lia|]. cbn [firstn app]. eauto. }
  destruct ((-6 <? n) && (n <=? 0));
    [exists 48; eexists; split; [reflexivity|lia]|].
  destruct ds; eauto.
Qed.

Lemma to_string_head x :
  (forall s, x <> Inf s) ->
  exists c tl, to_string x = c :: tl /\ (c = 45 \/ 48 <= c <= 57).
Proof.
  intros Hx.
  assert (E : to_string x
              = if is_zero x then [48]
                else (if negative x then [45] else [])
                       ++ format (fst (shortest x)) (snd (shortest x))).
  { unfold to_string. destruct (shortest x) as [s n].
    destruct x as [n0|m e| |s0]; try reflexivity. now destruct (Hx s0). }
  rewrite E. destruct (is_zero x); [exists 48, []; split; [reflexivity|lia]|].
  destruct (negative x); cbn [app]; [eauto|].
  destruct (format_head (fst (shortest x)) (snd (shortest x)) (shortest_nonneg x))
    as (c & tl & -> & Hc). eauto.
Qed.

End NumFacts.

Module ParseFacts.
Import Json Obj NumFacts.

Lemma peek_same c r : peek c (c :: r) = Some r.
Proof. unfold peek. now rewrite Z.eqb_refl. Qed.

Lemma peek_other c d r : d <> c -> peek c (d :: r) = None.
Proof. intros N. unfold peek. apply Z.eqb_neq in N. now rewrite N. Qed.

Lemma peek_rest_ok c rest :
  c <> 44 -> c <> 93 -> c <> 125 -> rest_ok rest -> peek c rest = None.
Proof.
  intros. destruct rest as [|d r]; [reflexivity|].
  apply peek_other. simpl in *. lia.
Qed.

Lemma take_digits_app ds rest :
  forallb is_digit ds = true ->
  match rest with c :: _ => is_digit c = false | [] => True end ->
  take_digits (ds ++ rest) = (ds, rest).
Proof.
  intros Hd Hr. induction ds as [|d ds IH]; cbn [app take_digits].
  - destruct rest as [|c r]; [reflexivity|]. cbn [take_digits]. now rewrite Hr.
  - cbn [forallb] in Hd. apply andb_true_iff in Hd as [H1 H2].
    now rewrite H1, IH.
Qed.

Lemma rest_ok_not_digit rest :
  rest_ok rest -> match rest with c :: _ => is_digit c = false | [] => True end.
Proof.
  destruct rest as [|c r]; [trivial|]. simpl. intros [->|[->| ->]]; reflexivity.
Qed.

Lemma parse_fraction_none rest :
  rest_ok rest -> parse_fraction rest = Some ([], rest).
Proof.
  intros H. unfold parse_fraction.
  now rewrite (peek_rest_ok 46 rest) by (assumption || lia).
Qed.

Lemma parse_exponent_none rest :
  rest_ok rest -> parse_exponent rest = Some (0, rest).
Proof.
  intros H. unfold parse_exponent. destruct rest as [|c r]; [reflexivity|].
  simpl in H. destruct H as [->|[->| ->]]; reflexivity.
Qed.

Lemma parse_exponent_text ex rest :
  exponent_ok ex -> rest_ok rest ->
  parse_exponent (exponent_text ex ++ rest) = Some (literal_exponent ex, rest).
Proof.
  intros He Hr. destruct ex as [[eneg es]|]; cbn [exponent_text literal_exponent app].
  - destruct He as [Hd Hn]. unfold parse_exponent.
    change ((101 =? 101) || (101 =? 69)) with true. cbv iota.
    destruct eneg.
    + rewrite peek_same.
      rewrite take_digits_app by (try assumption; now apply rest_ok_not_digit).
      destruct es; [contradiction|reflexivity].
    + rewrite peek_other, peek_same by lia.
      rewrite take_digits_app by (try assumption; now apply rest_ok_not_digit).
      destruct es; [contradiction|reflexivity].
  - now apply parse_exponent_none.
Qed.

Lemma exponent_text_head ex rest :
  rest_ok rest ->
  match exponent_text ex ++ rest with
  | c :: _ => is_digit c = false /\ c <> 46
  | [] => True
  end.
Proof.
  intros Hr. destruct ex as [[eneg es]|]; cbn [exponent_text app].
  - split; [reflexivity|lia].
  - destruct rest as [|c r]; [trivial|]. simpl in Hr.
    destruct Hr as [->|[->| ->]]; split; (reflexivity || lia).
Qed.

Lemma parse_fraction_text fs tail :
  forallb is_digit fs = true ->
  match tail with c :: _ => is_digit c = false /\ c <> 46 | [] => True end ->
  parse_fraction (match fs with [] => [] | _ => 46 :: fs end ++ tail) = Some (fs, tail).
Proof.
  intros Hd Ht. unfold parse_fraction. destruct fs as [|f fs].
  - cbn [app]. destruct tail as [|c r]; [reflexivity|].
    destruct Ht as [_ Hc]. now rewrite peek_other.
  - cbn [app]. rewrite peek_same.
    change (f :: fs ++ tail) with ((f :: fs) ++ tail).
    rewrite take_digits_app; [reflexivity|assumption|].
    destruct tail as [|c r]; [trivial|]. now destruct Ht.
Qed.

(** Reading a number literal. *)
Lemma parse_number_literal (neg : bool) ip fs ex rest :
  forallb is_digit ip = true ->
  (match ip with d :: ip' => d = 48 -> ip' = [] | [] => False end) ->
  forallb is_digit fs = true ->
  exponent_ok ex ->
  rest_ok rest ->
  parse_number ((if neg then [45] else []) ++ literal ip fs ex ++ rest)
  = POk (JNum (Num.of_decimal neg (digits_value (ip ++ fs))
                 (literal_exponent ex - Z.of_nat (List.length fs))), rest).
Proof.
  intros Hi Hz Hf He Hr.
  assert (Hlead : match ip with
                  | d :: ip' => (d =? 48) && match ip' with [] => false | _ => true end
                  | [] => true
                  end = false).
  { destruct ip as [|d ip']; [contradiction|].
    destruct (Z.eqb_spec d 48) as [E|E]; [|reflexivity]. now rewrite (Hz E). }
  pose proof (exponent_text_head ex rest Hr) as Ht.
  assert (Htail : match (match fs with [] => [] | _ => 46 :: fs end)
                        ++ exponent_text ex ++ rest with
                  | c :: _ => is_digit c = false
                  | [] => True
                  end).
  { destruct fs as [|f fs]; [|reflexivity]. cbn [app].
    destruct (exponent_text ex ++ rest); [trivial|apply Ht]. }
  assert (Hhead : peek 45 (literal ip fs ex ++ rest) = None).
  { unfold literal. destruct ip as [|d ip']; [contradiction|]. cbn [app].
    apply peek_other. cbn [forallb] in Hi. apply andb_true_iff in Hi as [H1 _].
    unfold is_digit in H1. lia. }
  assert (Hlit : literal ip fs ex ++ rest
                 = ip ++ (match fs with [] => [] | _ => 46 :: fs end)
                      ++ exponent_text ex ++ rest).
  { unfold literal, exponent_text. now rewrite <- !app_assoc. }
  unfold parse_number, parse_sign.
  destruct neg; cbn [app]; rewrite ?peek_same, ?Hhead; rewrite Hlit;
    rewrite take_digits_app by assumption;
    (destruct ip as [|d ip']; [contradiction|]); rewrite Hlead;
    rewrite parse_fraction_text by assumption;
    rewrite parse_exponent_text by assumption; reflexivity.
Qed.


Lemma digits_value_app a b :
  digits_value (a ++ b)
  = digits_value a * 10 ^ Z.of_nat (List.length b) + digits_value b.
Proof.
  induction b as [|d b IH] using rev_ind.
  - rewrite app_nil_r. cbn [List.length Z.of_nat]. change (digits_value []) with 0. lia.
  - rewrite app_assoc, !digits_value_snoc, IH, length_app. cbn [List.length].
    rewrite Nat2Z.inj_add, Z.pow_add_r by lia. change (Z.of_nat 1) with 1. lia.
Qed.

Lemma digits_value_zeros j : digits_value (repeat 48 j) = 0.
Proof.
  induction j as [|j IH]; [reflexivity|].
  change (repeat 48 (S j)) with ([48] ++ repeat 48 j).
  rewrite digits_value_app, IH. change (digits_value [48]) with 0. lia.
Qed.

Lemma zeros_digits j : forallb is_digit (repeat 48 j) = true.
Proof. induction j as [|j IH]; [reflexivity|exact IH]. Qed.

Lemma forallb_firstn {A} (f : A -> bool) n l :
  forallb f l = true -> forallb f (firstn n l) = true.
Proof.
  revert n. induction l as [|x l IH]; intros [|n]; cbn; try reflexivity.
  intros H. apply andb_true_iff in H as [-> H]. now apply IH.
Qed.

Lemma forallb_skipn {A} (f : A -> bool) n l :
  forallb f l = true -> forallb f (skipn n l) = true.
Proof.
  revert n. induction l as [|x l IH]; intros [|n]; cbn; try reflexivity; try trivial.
  intros H. apply andb_true_iff in H as [_ H]. now apply IH.
Qed.

Lemma of_decimal_shift neg s j :
  0 <= j -> Num.of_decimal neg (s * 10 ^ j) 0 = Num.of_decimal neg s j.
Proof.
  intros Hj. unfold Num.of_decimal.
  rewrite (Z.max_l j 0), (Z.max_r (- j) 0) by lia.
  change (Z.max 0 0) with 0. change (Z.max (- 0) 0) with 0.
  now rewrite Z.pow_0_r, Z.mul_1_r.
Qed.

(** Reading what [Number::toString] writes for the digits [s] and the
    exponent [n]. *)
Ltac same_exponent :=
  match goal with
  | |- POk (JNum (Num.of_decimal _ _ ?a), _) = POk (JNum (Num.of_decimal _ _ ?b), _) =>
      replace a with b; [reflexivity|]
  end.

Lemma parse_number_format (neg : bool) s n rest :
  0 < s -> rest_ok rest ->
  parse_number ((if neg then [45] else []) ++ Num.format s n ++ rest)
  = POk (JNum (Num.of_decimal neg s (n - Num.ndigits s)), rest).
Proof.
  intros Hs Hr.
  destruct (digits_head s Hs) as (d & ds' & Ed & Hd0 & Hdd).
  pose proof (digits_all s ltac:(lia)) as Hall.
  pose proof (digits_value_digits s ltac:(lia)) as Hval.
  unfold Num.format, Num.ndigits.
  set (ds := Num.digits s) in *. set (k := Z.of_nat (List.length ds)).
  assert (Hk : 1 <= k) by (unfold k; rewrite Ed; cbn [List.length]; lia).
  destruct ((k <=? n) && (n <=? 21)) eqn:A.
  { apply andb_true_iff in A as [A1 A2]. apply Z.leb_le in A1.
    pose proof (parse_number_literal neg (ds ++ repeat 48 (Z.to_nat (n - k))) [] None rest) as P.
    unfold literal, exponent_text in P. cbn [app List.length Z.of_nat literal_exponent] in P.
    rewrite !app_nil_r in P. rewrite P; try assumption; try exact I; try reflexivity.
    - rewrite digits_value_app, digits_value_zeros, repeat_length, Hval.
      rewrite Z2Nat.id, Z.add_0_r by lia. change (0 - 0) with 0.
      now rewrite of_decimal_shift by lia.
    - rewrite forallb_app, Hall. apply zeros_digits.
    - rewrite Ed. cbn [app]. intros ->. contradiction. }
  destruct ((0 <? n) && (n <=? 21)) eqn:B.
  { apply andb_true_iff in B as [B1 B2]. apply Z.ltb_lt in B1.
    assert (Hn : n < k).
    { destruct (Z.leb_spec k n); [|lia]. rewrite B2 in A. discriminate A. }
    assert (Hlen : (Z.to_nat n < List.length ds)%nat) by (unfold k in Hn; lia).
    pose proof (parse_number_literal neg (firstn (Z.to_nat n) ds)
                  (skipn (Z.to_nat n) ds) None rest) as P.
    unfold literal, exponent_text in P. cbn [literal_exponent] in P. rewrite app_nil_r in P.
    destruct (skipn (Z.to_nat n) ds) as [|f fs] eqn:Es.
    { apply (f_equal (@List.length Z)) in Es. rewrite length_skipn in Es.
      cbn [List.length] in Es. lia. }
    rewrite P; try assumption; try exact I.
    - rewrite <- Es, firstn_skipn, Hval, length_skipn. same_exponent. unfold k. lia.
    - now apply forallb_firstn.
    - rewrite Ed. destruct (Z.to_nat n) as [|j] eqn:Ej; [lia|].
      cbn [firstn]. intros ->. contradiction.
    - rewrite <- Es. now apply forallb_skipn. }
  destruct ((-6 <? n) && (n <=? 0)) eqn:C.
  { apply andb_true_iff in C as [C1 C2]. apply Z.leb_le in C2.
    set (fs := repeat 48 (Z.to_nat (- n)) ++ ds).
    assert (Hv : digits_value ([48] ++ fs) = s).
    { unfold fs. change ([48] ++ repeat 48 (Z.to_nat (- n)) ++ ds)
        with (repeat 48 (S (Z.to_nat (- n))) ++ ds).
      now rewrite digits_value_app, digits_value_zeros, Z.mul_0_l, Z.add_0_l. }
    assert (Hfd : forallb is_digit fs = true)
      by (unfold fs; rewrite forallb_app, zeros_digits; exact Hall).
    assert (Hfl : Z.of_nat (List.length fs) = k - n)
      by (unfold fs, k; rewrite length_app, repeat_length; lia).
    assert (Hfn : fs <> []).
    { unfold fs. intros E. apply app_eq_nil in E as [_ E]. congruence. }
    pose proof (parse_number_literal neg [48] fs None rest) as P.
    rewrite Hv, Hfl in P. unfold literal, exponent_text in P. cbn [literal_exponent] in P.
    rewrite app_nil_r in P. fold fs.
    destruct fs as [|f fs']; [contradiction|].
    cbn [app] in P |- *. rewrite P; try assumption; try exact I; try reflexivity.
    same_exponent. lia. }
  set (e := n - 1).
  pose proof (digits_all (Z.abs e) ltac:(lia)) as Hae.
  pose proof (digits_value_digits (Z.abs e) ltac:(lia)) as Hve.
  pose proof (digits_nonempty (Z.abs e)) as Hne.
  assert (Hex : literal_exponent (Some (e <? 0, Num.digits (Z.abs e))) = e).
  { cbn [literal_exponent]. rewrite Hve. destruct (Z.ltb_spec e 0); lia. }
  rewrite Ed. destruct ds' as [|d2 ds''].
  - pose proof (parse_number_literal neg [d] [] (Some (e <? 0, Num.digits (Z.abs e))) rest) as P.
    rewrite Hex in P. unfold literal, exponent_text in P. cbn [app List.length Z.of_nat] in P.
    cbn [app]. rewrite P; try assumption; try reflexivity.
    + rewrite <- Ed, Hval. same_exponent. unfold k, e. rewrite Ed. cbn [List.length]. lia.
    + rewrite <- Ed. exact Hall.
    + now split.
  - pose proof (parse_number_literal neg [d] (d2 :: ds'')
                  (Some (e <? 0, Num.digits (Z.abs e))) rest) as P.
    rewrite Hex in P. unfold literal, exponent_text in P.
    assert (Hv : digits_value ([d] ++ d2 :: ds'') = s) by (cbn [app]; now rewrite <- Ed).
    rewrite Hv in P. cbn [app] in P |- *. rewrite P; try assumption; try reflexivity.
    + same_exponent. unfold k, e. rewrite Ed. cbn [List.length]. lia.
    + cbn [forallb]. rewrite Hdd. reflexivity.
    + rewrite Ed in Hall. cbn [forallb] in Hall. apply andb_true_iff in Hall as [_ H]. exact H.
    + now split.
Qed.

Lemma of_decimal_negate s e :
  Num.of_decimal true s e = Num.negate (Num.of_decimal false s e).
Proof. reflexivity. Qed.

Lemma stringify_number x :
  Num.portable x = true -> stringify (JNum x) = Num.to_string x.
Proof. destruct x; try discriminate; reflexivity. Qed.

(** [Number::toString] writes a literal that denotes the number. *)
Lemma parse_number_to_string x rest :
  Num.representable x -> Num.portable x = true ->
  rest_ok rest ->
  parse_number (Num.to_string x ++ rest) = POk (JNum x, rest).
Proof.
  intros Hx Hp Hr.
  assert (E : Num.to_string x
              = if Num.is_zero x then [48]
                else (if Num.negative x then [45] else [])
                       ++ Num.format (fst (Num.shortest x)) (snd (Num.shortest x))).
  { unfold Num.to_string. destruct (Num.shortest x) as [s n].
    destruct x; try discriminate Hp; reflexivity. }
  rewrite E. destruct (Num.is_zero x) eqn:Hz.
  - assert (x = Int 0) as ->.
    { destruct x; try discriminate. cbn in Hz. apply Z.eqb_eq in Hz. now subst. }
    pose proof (parse_number_literal false [48] [] None rest) as P.
    unfold literal, exponent_text in P. cbn [app List.length Z.of_nat literal_exponent] in P.
    cbn [app]. rewrite P; try assumption; try exact I; reflexivity.
  - destruct (shortest_valid x Hx Hp) as [V _].
    pose proof (shortest_pos x Hx Hp Hz) as Hs.
    rewrite <- app_assoc, parse_number_format by assumption.
    do 3 f_equal. destruct (Num.negative x) eqn:Hn.
    + rewrite of_decimal_negate, V. now apply negate_magnitude.
    + rewrite V. unfold Num.magnitude. now rewrite Hn.
Qed.

End ParseFacts.

Module StringFacts.
Import Json.

Lemma parse_chars_cons c r :
  parse_chars (c :: r)
  = if c =? 34 then POk ([], r)
    else if c =? 92 then
      match r with
      | [] => PSyntax
      | e :: r' =>
          if e =? 117 then
            match r' with
            | h1 :: h2 :: h3 :: h4 :: r'' =>
                match hex4 h1 h2 h3 h4 with
                | Some u => pcons u (parse_chars r'')
                | None => PSyntax
                end
            | _ => PSyntax
            end
          else
            match simple_escape e with
            | Some u => pcons u (parse_chars r')
            | None => PSyntax
            end
      end
    else if c <? 32 then PSyntax
    else pcons c (parse_chars r).
Proof. reflexivity. Qed.

Lemma parse_chars_raw u r :
  32 <= u -> u <> 34 -> u <> 92 ->
  parse_chars (u :: r) = pcons u (parse_chars r).
Proof.
  intros H1 H2 H3. rewrite parse_chars_cons.
  apply Z.eqb_neq in H2, H3. rewrite H2, H3.
  destruct (Z.ltb_spec u 32); [lia|reflexivity].
Qed.

Lemma hex_value_digit d : 0 <= d < 16 -> hex_value (hex_digit d) = Some d.
Proof.
  intros H. unfold hex_digit, hex_value.
  destruct (Z.ltb_spec d 10).
  - replace (48 <=? 48 + d) with true by (symmetry; apply Z.leb_le; lia).
    replace (48 + d <=? 57) with true by (symmetry; apply Z.leb_le; lia).
    cbn [andb]. f_equal. lia.
  - replace (87 + d <=? 57) with false by (symmetry; apply Z.leb_gt; lia).
    rewrite andb_false_r.
    replace (97 <=? 87 + d) with true by (symmetry; apply Z.leb_le; lia).
    replace (87 + d <=? 102) with true by (symmetry; apply Z.leb_le; lia).
    cbn [andb]. f_equal. lia.
Qed.

Lemma parse_chars_unicode_escape u r :
  0 <= u < 65536 ->
  parse_chars (unicode_escape u ++ r) = pcons u (parse_chars r).
Proof.
  intros H. unfold unicode_escape. cbn [app].
  rewrite parse_chars_cons. change (92 =? 34) with false. change (92 =? 92) with true.
  cbv iota. change (117 =? 117) with true. cbv iota.
  unfold hex4. rewrite !hex_value_digit by (Z.div_mod_to_equations; lia).
  replace (4096 * (u / 4096) + 256 * ((u / 256) mod 16) + 16 * ((u / 16) mod 16) + u mod 16)
    with u by (Z.div_mod_to_equations; lia).
  reflexivity.
Qed.

Lemma parse_chars_escape_unit u r :
  0 <= u ->
  parse_chars (escape_unit u ++ r) = pcons u (parse_chars r).
Proof.
  intros H. unfold escape_unit.
  repeat match goal with
         | |- context [if ?x =? ?c then _ else _] =>
             destruct (Z.eqb_spec x c) as [->|?]; [reflexivity|]
         end.
  destruct (Z.ltb_spec u 32).
  - apply parse_chars_unicode_escape. lia.
  - cbn [app]. now apply parse_chars_raw.
Qed.

Lemma surrogate_range u :
  Utf8.is_high u = true \/ Utf8.is_low u = true -> 0xD800 <= u <= 0xDFFF.
Proof. unfold Utf8.is_high, Utf8.is_low. lia. Qed.

Lemma parse_chars_quote_body s rest :
  wf_string s ->
  parse_chars (quote_body s ++ 34 :: rest) = POk (s, rest).
Proof.
  remember (List.length s) as n eqn:Hn.
  assert (Hle : (List.length s <= n)%nat) by lia. clear Hn.
  revert s Hle. induction n as [|n IH]; intros s Hle Hwf.
  - destruct s; [reflexivity|simpl in Hle; lia].
  - destruct s as [|u s']; [reflexivity|].
    inversion Hwf as [|? ? Hu Hs']; subst.
    cbn [quote_body].
    destruct (Utf8.is_high u) eqn:Hh.
    + pose proof (surrogate_range u (or_introl Hh)) as Ru.
      destruct s' as [|v s''].
      * rewrite parse_chars_unicode_escape by lia. reflexivity.
      * destruct (Utf8.is_low v) eqn:Hl.
        -- pose proof (surrogate_range v (or_intror Hl)) as Rv.
           cbn [app]. rewrite parse_chars_raw by lia.
           rewrite parse_chars_raw by lia.
           rewrite IH; [reflexivity|simpl in Hle; lia|].
           now inversion Hs'.
        -- rewrite <- app_assoc, parse_chars_unicode_escape by lia.
           rewrite IH; [reflexivity|simpl in Hle |- *; lia|assumption].
    + destruct (Utf8.is_low u) eqn:Hl.
      * pose proof (surrogate_range u (or_intror Hl)) as Ru.
        rewrite <- app_assoc, parse_chars_unicode_escape by lia.
        rewrite IH; [reflexivity|simpl in Hle; lia|assumption].
      * rewrite <- app_assoc, parse_chars_escape_unit by assumption.
        rewrite IH; [reflexivity|simpl in Hle; lia|assumption].
Qed.

End StringFacts.

Lemma wf_arr es : wf (JArr es) <-> Forall wf es.
Proof.
  induction es as [|x es IH].
  - split; [constructor|exact (fun _ => I)].
  - split.
    + intros [Hx Hr]. constructor; [assumption|now apply IH].
    + intros H. inversion H; subst. split; [assumption|now apply IH].
Qed.

Lemma wf_obj fs : wf (JObj fs) <-> canonical (map fst fs) /\ Forall wf_member fs.
Proof.
  cbn [wf]. apply and_iff_compat_l.
  induction fs as [|kx fs IH].
  - split; [constructor|exact (fun _ => I)].
  - split.
    + intros [Hx Hr]. constructor; [exact Hx|now apply IH].
    + intros H. inversion H; subst. split; [assumption|now apply IH].
Qed.

Lemma stringify_arr es : Json.stringify (JArr es) = 91 :: elements_text es.
Proof. reflexivity. Qed.

Lemma stringify_obj fs : Json.stringify (JObj fs) = 123 :: members_text fs.
Proof. reflexivity. Qed.

Lemma size_arr es : size (JArr es) = S (elements_size es).
Proof. reflexivity. Qed.

Lemma size_obj fs : size (JObj fs) = S (members_size fs).
Proof. reflexivity. Qed.

Module CanonFacts.
Import Obj.

Lemma is_digit_range c : is_digit c = true <-> 48 <= c <= 57.
Proof. unfold is_digit. lia. Qed.

Lemma nz_prefix k d : nz (k ++ [d]) -> nz k /\ 48 <= d <= 57.
Proof.
  intros [Hd Hh]. rewrite forallb_app in Hd. apply andb_true_iff in Hd as [H1 H2].
  cbn [forallb] in H2. rewrite andb_true_r in H2. apply is_digit_range in H2.
  repeat split; try assumption; try lia. now destruct k.
Qed.

Lemma nz_zero k : nz k -> digits_value k = 0 -> k = [].
Proof.
  induction k as [|d k IH] using rev_ind; [reflexivity|].
  intros Hn Hv. destruct (nz_prefix _ _ Hn) as [Hk Hd].
  rewrite NumFacts.digits_value_snoc in Hv.
  assert (digits_value k = 0) as Hz by lia. assert (d = 48) as -> by lia.
  rewrite (IH Hk Hz) in Hn. destruct Hn as [_ Hh]. now contradiction Hh.
Qed.

Lemma nz_inj k1 k2 :
  nz k1 -> nz k2 -> digits_value k1 = digits_value k2 -> k1 = k2.
Proof.
  revert k2. induction k1 as [|d1 k1 IH] using rev_ind; intros k2 H1 H2 E.
  - symmetry. apply nz_zero; [assumption|]. now rewrite <- E.
  - destruct k2 as [|d2 k2 _] using rev_ind.
    + apply nz_zero; assumption.
    + destruct (nz_prefix _ _ H1) as [N1 D1], (nz_prefix _ _ H2) as [N2 D2].
      rewrite !NumFacts.digits_value_snoc in E.
      assert (d1 = d2) as -> by lia.
      rewrite (IH k2 N1 N2) by lia. reflexivity.
Qed.

Lemma array_index_spec k n :
  array_index k = Some n ->
  n = digits_value k /\ (nz k /\ k <> [] \/ k = [48]).
Proof.
  unfold array_index. destruct k as [|c r]; [discriminate|].
  destruct (forallb is_digit (c :: r)) eqn:Hd; [|discriminate]. cbn [andb].
  destruct (negb (c =? 48) || match r with [] => true | _ => false end) eqn:Hh;
    [|discriminate]. cbn [andb].
  destruct (Z.of_nat (List.length (c :: r)) <=? 10); [|discriminate].
  destruct (digits_value (c :: r) <? 2 ^ 32 - 1); [|discriminate].
  intros [= <-]. split; [reflexivity|].
  destruct (Z.eqb_spec c 48) as [->|N].
  - right. destruct r; [reflexivity|discriminate].
  - left. repeat split; try assumption. discriminate.
Qed.

Lemma array_index_inj k1 k2 n :
  array_index k1 = Some n -> array_index k2 = Some n -> k1 = k2.
Proof.
  intros H1 H2.
  apply array_index_spec in H1 as [E1 C1], H2 as [E2 C2].
  destruct C1 as [[N1 Z1]| ->], C2 as [[N2 Z2]| ->]; try reflexivity.
  - apply nz_inj; congruence.
  - exfalso. apply Z1. apply nz_zero; [assumption|]. now rewrite <- E1, E2.
  - exfalso. apply Z2. apply nz_zero; [assumption|]. now rewrite <- E2, E1.
Qed.

Lemma key_lt_irrefl k : ~ key_lt k k.
Proof. unfold key_lt. destruct (array_index k); [lia|congruence]. Qed.

Lemma assoc_none_keys {A} k (l : list (jsstring * A)) :
  assoc k l = None <-> ~ In k (map fst l).
Proof.
  induction l as [|[k0 v0] l IH]; simpl.
  - tauto.
  - destruct (str_eqb k k0) eqn:E.
    + apply str_eqb_eq in E. subst. split; [discriminate|]. intros H. exfalso. auto.
    + apply str_eqb_neq in E. rewrite IH. split.
      * intros H [H1|H1]; [congruence|contradiction].
      * intros H H1. apply H. now right.
Qed.

Lemma sorted_middle {A} (R : A -> A -> Prop) l1 x l2 :
  StronglySorted R (l1 ++ x :: l2) -> Forall (fun y => R y x) l1.
Proof.
  induction l1 as [|a l1 IH]; simpl; [constructor|].
  intros H. apply StronglySorted_inv in H as [Hs Ha].
  constructor; [|now apply IH].
  rewrite Forall_forall in Ha. apply Ha. apply in_elt.
Qed.

Lemma sorted_snoc {A} (R : A -> A -> Prop) l x :
  StronglySorted R l -> Forall (fun y => R y x) l -> StronglySorted R (l ++ [x]).
Proof.
  induction l as [|a l IH]; simpl; intros Hs Hf.
  - repeat constructor.
  - apply StronglySorted_inv in Hs as [Hs Ha]. inversion Hf; subst.
    constructor; [now apply IH|].
    apply Forall_app. split; [assumption|]. now constructor.
Qed.

Section Insert.
Context {A : Type}.
Implicit Types (l : list (jsstring * A)).

Lemma insert_index_end i k (v : A) l :
  Forall (fun k' => exists j, array_index k' = Some j /\ j < i) (map fst l) ->
  insert_index i k v l = l ++ [(k, v)].
Proof.
  induction l as [|[k0 v0] l IH]; simpl; [reflexivity|].
  intros H. inversion H as [|? ? (j & Ej & Hj) Hr]; subst.
  rewrite Ej. destruct (Z.ltb_spec j i); [|lia]. now rewrite IH.
Qed.

Lemma set_append k (v : A) l :
  Forall (fun k' => key_lt k' k) (map fst l) -> set k v l = l ++ [(k, v)].
Proof.
  intros H. unfold set.
  assert (Hn : assoc k l = None).
  { apply assoc_none_keys. intros Hin. rewrite Forall_forall in H.
    apply (key_lt_irrefl k). now apply H. }
  apply ObjFacts.has_false_assoc in Hn. rewrite Hn.
  destruct (array_index k) as [i|] eqn:Ei; [|reflexivity].
  apply insert_index_end. eapply Forall_impl; [|exact H].
  intros k' Hk. unfold key_lt in Hk. rewrite Ei in Hk.
  destruct (array_index k') as [j|]; [eauto|contradiction].
Qed.

Lemma build_append acc l :
  canonical (map fst (acc ++ l)) ->
  fold_left (fun a (kv : jsstring * A) => set (fst kv) (snd kv) a) l acc = acc ++ l.
Proof.
  revert acc. induction l as [|[k v] l IH]; intros acc H; simpl.
  - now rewrite app_nil_r.
  - rewrite set_append.
    + rewrite IH; rewrite <- app_assoc; [reflexivity|exact H].
    + rewrite map_app in H. simpl in H. now apply sorted_middle in H.
Qed.

Lemma keys_insert_index i k (v : A) l x :
  In x (map fst (insert_index i k v l)) -> x = k \/ In x (map fst l).
Proof.
  induction l as [|[k0 v0] l IH]; simpl.
  - intros [->|[]]. now left.
  - destruct (array_index k0) as [j|]; [destruct (j <? i)|]; simpl;
      intuition auto.
Qed.

Lemma canonical_insert_index i k (v : A) l :
  array_index k = Some i ->
  assoc k l = None ->
  canonical (map fst l) ->
  canonical (map fst (insert_index i k v l)).
Proof.
  intros Ei. induction l as [|[k0 v0] l IH]; simpl; intros Hn Hc.
  - repeat constructor.
  - destruct (str_eqb k k0) eqn:E; [discriminate|]. apply str_eqb_neq in E.
    apply StronglySorted_inv in Hc as [Hc Hf].
    assert (Hfront : forall x, In x (map fst l) -> key_lt k0 x -> array_index k0 = None \/
              (exists j, array_index k0 = Some j /\ i <= j) -> key_lt k x).
    { intros x _ Hx Hk0. unfold key_lt in *. rewrite Ei.
      destruct (array_index x) as [jx|]; [|trivial].
      destruct Hk0 as [N|(j & Ej & Hj)].
      - now rewrite N in Hx.
      - rewrite Ej in Hx. lia. }
    destruct (array_index k0) as [j|] eqn:E0.
    + destruct (Z.ltb_spec j i).
      * simpl. constructor; [now apply IH|].
        apply Forall_forall. intros x Hx.
        apply keys_insert_index in Hx as [->|Hx].
        -- unfold key_lt. rewrite E0, Ei. assumption.
        -- rewrite Forall_forall in Hf. now apply Hf.
      * simpl. constructor; [constructor; assumption|].
        constructor.
        -- unfold key_lt. rewrite Ei, E0.
           assert (i <> j); [|lia]. intros ->. apply E.
           now apply (array_index_inj k k0 j).
        -- apply Forall_forall. intros x Hx. rewrite Forall_forall in Hf.
           apply Hfront; auto. right. exists j. split; [reflexivity|lia].
    + simpl. constructor; [constructor; assumption|].
      constructor.
      * unfold key_lt. now rewrite Ei, E0.
      * apply Forall_forall. intros x Hx. rewrite Forall_forall in Hf.
        apply Hfront; auto.
Qed.

Lemma canonical_set k (v : A) l :
  canonical (map fst l) -> canonical (map fst (set k v l)).
Proof.
  intros Hc. unfold set. destruct (has k l) eqn:H.
  - now rewrite ObjFacts.map_fst_replace.
  - apply ObjFacts.has_false_assoc in H.
    destruct (array_index k) as [i|] eqn:Ei.
    + now apply canonical_insert_index.
    + rewrite map_app. simpl. apply sorted_snoc; [assumption|].
      apply Forall_forall. intros x Hx. unfold key_lt. rewrite Ei.
      destruct (array_index x); [trivial|].
      intros ->. now apply assoc_none_keys in H.
Qed.

Lemma Forall_replace (P : jsstring * A -> Prop) k v l :
  Forall P l -> (forall k' v', In (k', v') l -> k' = k -> P (k', v)) ->
  Forall P (replace k v l).
Proof.
  induction l as [|[k0 v0] l IH]; simpl; intros H Hp; [constructor|].
  inversion H; subst.
  destruct (str_eqb k k0) eqn:E.
  - constructor; [|assumption]. apply str_eqb_eq in E. subst.
    apply (Hp k0 v0); auto.
  - constructor; [assumption|]. apply IH; [assumption|].
    intros k' v' Hin. apply (Hp k' v'). now right.
Qed.

Lemma Forall_insert_index (P : jsstring * A -> Prop) i k v l :
  Forall P l -> P (k, v) -> Forall P (insert_index i k v l).
Proof.
  induction l as [|[k0 v0] l IH]; simpl; intros H Hp.
  - now constructor.
  - inversion H; subst.
    destruct (array_index k0) as [j|]; [destruct (j <? i)|];
      repeat (constructor; try assumption). now apply IH.
Qed.

Lemma Forall_set (P : jsstring * A -> Prop) k v l :
  Forall P l -> P (k, v) -> Forall P (set k v l).
Proof.
  intros H Hp. unfold set. destruct (has k l).
  - apply Forall_replace; [assumption|]. now intros k' v' _ ->.
  - destruct (array_index k).
    + now apply Forall_insert_index.
    + apply Forall_app. split; [assumption|now constructor].
Qed.

End Insert.
End CanonFacts.

Module RoundTrip.
Import Json ParseFacts StringFacts CanonFacts.

Lemma skip_ws_head c r : is_ws c = false -> skip_ws (c :: r) = c :: r.
Proof. intros H. simpl. now rewrite H. Qed.

Lemma stringify_number_head n :
  exists c tl, stringify (JNum n) = c :: tl /\ (c = 45 \/ 48 <= c <= 57 \/ c = 110).
Proof.
  destruct n as [n|m e| |s];
    try (destruct (NumFacts.to_string_head n) as (c & tl & E & Hc); [discriminate|]);
    try (destruct (NumFacts.to_string_head (Frac m e)) as (c & tl & E & Hc); [discriminate|]);
    try (destruct (NumFacts.to_string_head NegZero) as (c & tl & E & Hc); [discriminate|]);
    try (cbn [stringify]; rewrite E; exists c, tl; split; [reflexivity|tauto]).
  exists 110, (lit "ull"). split; [reflexivity|tauto].
Qed.

Lemma stringify_head v rest : starts_value (stringify v ++ rest).
Proof.
  destruct v as [| [|] | n | s | es | fs];
    try (cbn; repeat split; (reflexivity || discriminate)).
  destruct (stringify_number_head n) as (c & tl & -> & [->|[H| ->]]);
    cbn [app starts_value].
  - repeat split; (reflexivity || discriminate).
  - unfold is_ws. repeat split; lia.
  - repeat split; (reflexivity || discriminate).
Qed.

Lemma skip_ws_value v rest : skip_ws (stringify v ++ rest) = stringify v ++ rest.
Proof.
  pose proof (stringify_head v rest) as H.
  destruct (stringify v ++ rest) as [|c r]; [reflexivity|].
  apply skip_ws_head. apply H.
Qed.

Lemma peek_value c v rest :
  c = 93 \/ c = 125 -> peek c (stringify v ++ rest) = None.
Proof.
  intros Hc. pose proof (stringify_head v rest) as H.
  destruct (stringify v ++ rest) as [|d r]; [reflexivity|].
  apply peek_other. destruct H as (_ & H1 & H2). lia.
Qed.

Lemma elements_text_cons x l :
  elements_text (x :: l)
  = stringify x ++ match l with [] => [93] | _ => 44 :: elements_text l end.
Proof. reflexivity. Qed.

Lemma parse_elements_S f s :
  parse_elements (S f) s
  = match parse_value f s with
    | POk (v, r) =>
        match peek 44 (skip_ws r), peek 93 (skip_ws r) with
        | Some r', _ =>
            match parse_elements f r' with
            | POk (vs, r'') => POk (v :: vs, r'')
            | PSyntax => PSyntax
            | PFuel => PFuel
            end
        | None, Some r' => POk ([v], r')
        | None, None => PSyntax
        end
    | PSyntax => PSyntax
    | PFuel => PFuel
    end.
Proof. reflexivity. Qed.

Lemma parse_elements_text es :
  es <> [] -> Forall reparses es -> Forall wf es ->
  forall f rest, (elements_size es <= f)%nat ->
    parse_elements f (elements_text es ++ rest) = POk (es, rest).
Proof.
  induction es as [|x l IH]; [congruence|].
  intros _ Hq Hw f rest Hf.
  inversion Hq as [|? ? Qx Ql]; subst. inversion Hw as [|? ? Wx Wl]; subst.
  cbn [elements_size] in Hf.
  destruct f as [|f]; [lia|].
  rewrite parse_elements_S, elements_text_cons, <- app_assoc.
  destruct l as [|y l'].
  - rewrite (Qx Wx) by (simpl; auto; lia).
    cbn [app]. rewrite skip_ws_head by reflexivity.
    rewrite peek_other by discriminate. now rewrite peek_same.
  - rewrite (Qx Wx) by (simpl; auto; lia).
    cbn [app]. rewrite skip_ws_head by reflexivity.
    rewrite peek_same.
    rewrite IH; [reflexivity|discriminate|assumption|assumption|].
    cbn [elements_size] in *. lia.
Qed.

Lemma members_text_cons k x l :
  members_text ((k, x) :: l)
  = quote k ++ 58 :: stringify x ++ match l with [] => [125] | _ => 44 :: members_text l end.
Proof. reflexivity. Qed.

Lemma parse_members_S f s :
  parse_members (S f) s
  = match peek 34 (skip_ws s) with
    | Some r =>
        match parse_chars r with
        | POk (k, r1) =>
            match peek 58 (skip_ws r1) with
            | Some r2 =>
                match parse_value f r2 with
                | POk (v, r3) =>
                    match peek 44 (skip_ws r3), peek 125 (skip_ws r3) with
                    | Some r4, _ =>
                        match parse_members f r4 with
                        | POk (ms, r5) => POk ((k, v) :: ms, r5)
                        | PSyntax => PSyntax
                        | PFuel => PFuel
                        end
                    | None, Some r4 => POk ([(k, v)], r4)
                    | None, None => PSyntax
                    end
                | PSyntax => PSyntax
                | PFuel => PFuel
                end
            | None => PSyntax
            end
        | PSyntax => PSyntax
        | PFuel => PFuel
        end
    | None => PSyntax
    end.
Proof. reflexivity. Qed.

Lemma parse_members_text fs :
  fs <> [] -> Forall (fun kx => reparses (snd kx)) fs -> Forall wf_member fs ->
  forall f rest, (members_size fs <= f)%nat ->
    parse_members f (members_text fs ++ rest) = POk (fs, rest).
Proof.
  induction fs as [|[k x] l IH]; [congruence|].
  intros _ Hq Hw f rest Hf.
  inversion Hq as [|? ? Qx Ql]; subst. inversion Hw as [|? ? [Wk Wx] Wl]; subst.
  cbn [members_size snd] in Hf. cbn [fst snd] in *.
  destruct f as [|f]; [lia|].
  rewrite parse_members_S, members_text_cons. unfold quote.
  cbn [app]. rewrite skip_ws_head by reflexivity. rewrite peek_same.
  rewrite <- !app_assoc. cbn [app].
  rewrite parse_chars_quote_body by assumption.
  rewrite skip_ws_head by reflexivity. rewrite peek_same.
  destruct l as [|y l']; rewrite <- app_assoc.
  - rewrite (Qx Wx) by (simpl; auto; lia).
    cbn [app]. rewrite skip_ws_head by reflexivity.
    rewrite peek_other by discriminate. now rewrite peek_same.
  - rewrite (Qx Wx) by (simpl; auto; lia).
    cbn [app]. rewrite skip_ws_head by reflexivity.
    rewrite peek_same.
    rewrite IH; [reflexivity|discriminate|assumption|assumption|].
    cbn [members_size] in *. lia.
Qed.

Lemma parse_value_S f s :
  parse_value (S f) s
  = match skip_ws s with
    | [] => PSyntax
    | c :: r =>
        if c =? 91 then
          match peek 93 (skip_ws r) with
          | Some r' => POk (JArr [], r')
          | None => match parse_elements f r with
                    | POk (es, r') => POk (JArr es, r')
                    | PSyntax => PSyntax
                    | PFuel => PFuel
                    end
          end
        else if c =? 123 then
          match peek 125 (skip_ws r) with
          | Some r' => POk (JObj [], r')
          | None => match parse_members f r with
                    | POk (ms, r') => POk (build_object ms, r')
                    | PSyntax => PSyntax
                    | PFuel => PFuel
                    end
          end
        else if c =? 34 then
          match parse_chars r with
          | POk (str, r') => POk (JStr str, r')
          | PSyntax => PSyntax
          | PFuel => PFuel
          end
        else if c =? 116 then
          match starts_with (lit "rue") r with
          | Some r' => POk (JBool true, r')
          | None => PSyntax
          end
        else if c =? 102 then
          match starts_with (lit "alse") r with
          | Some r' => POk (JBool false, r')
          | None => PSyntax
          end
        else if c =? 110 then
          match starts_with (lit "ull") r with
          | Some r' => POk (JNull, r')
          | None => PSyntax
          end
        else parse_number (c :: r)
    end.
Proof. reflexivity. Qed.

Lemma build_object_canonical fs :
  canonical (map fst fs) -> build_object fs = JObj fs.
Proof.
  intros H. unfold build_object. f_equal.
  now rewrite (build_append [] fs).
Qed.

Theorem parse_value_stringify v : reparses v.
Proof.
  induction v as [| b | n | s | es IH | fs IH] using value_nested_ind;
    intros Hw fuel rest Hf Hr;
    (destruct fuel as [|f]; [simpl in Hf; lia|]); rewrite parse_value_S.
  - reflexivity.
  - destruct b; reflexivity.
  - rewrite skip_ws_value. destruct Hw as [Hn Hp].
    rewrite stringify_number by assumption.
    destruct (NumFacts.to_string_head n) as (c & tl & E & Hc).
    { intros s ->. discriminate Hp. }
    rewrite E. cbn [app].
    replace (c =? 91) with false by (symmetry; apply Z.eqb_neq; lia).
    replace (c =? 123) with false by (symmetry; apply Z.eqb_neq; lia).
    replace (c =? 34) with false by (symmetry; apply Z.eqb_neq; lia).
    replace (c =? 116) with false by (symmetry; apply Z.eqb_neq; lia).
    replace (c =? 102) with false by (symmetry; apply Z.eqb_neq; lia).
    replace (c =? 110) with false by (symmetry; apply Z.eqb_neq; lia).
    change (c :: tl ++ rest) with ((c :: tl) ++ rest). rewrite <- E.
    now apply parse_number_to_string.
  - cbn [stringify]. unfold quote. cbn [app]. rewrite skip_ws_head by reflexivity.
    change (34 =? 91) with false. change (34 =? 123) with false.
    change (34 =? 34) with true. cbv iota.
    rewrite <- app_assoc. cbn [app].
    rewrite parse_chars_quote_body by exact Hw. reflexivity.
  - rewrite stringify_arr. cbn [app]. rewrite skip_ws_head by reflexivity.
    change (91 =? 91) with true. cbv iota.
    apply wf_arr in Hw. rewrite size_arr in Hf.
    destruct es as [|x l]; [reflexivity|].
    rewrite elements_text_cons, <- app_assoc, skip_ws_value.
    rewrite peek_value by auto.
    rewrite app_assoc, <- elements_text_cons.
    rewrite parse_elements_text; try assumption; [reflexivity|discriminate|lia].
  - rewrite stringify_obj. cbn [app]. rewrite skip_ws_head by reflexivity.
    change (123 =? 91) with false. change (123 =? 123) with true. cbv iota.
    apply wf_obj in Hw as [Hc Hm]. rewrite size_obj in Hf.
    destruct fs as [|[k x] l]; [reflexivity|].
    assert (Hp : peek 125 (skip_ws (members_text ((k, x) :: l) ++ rest)) = None).
    { rewrite members_text_cons. unfold quote. cbn [app].
      rewrite skip_ws_head by reflexivity. now apply peek_other. }
    rewrite Hp.
    rewrite parse_members_text; try assumption; [|discriminate|lia].
    now rewrite build_object_canonical.
Qed.

End RoundTrip.

Module ParseWf.
Import Json ParseFacts StringFacts CanonFacts RoundTrip.

Lemma elements_size_le es :
  Forall (fun x => (size x <= List.length (stringify x))%nat) es ->
  (elements_size es <= List.length (elements_text es))%nat.
Proof.
  induction 1 as [|x l Hx Hl IH]; [simpl; lia|].
  rewrite elements_text_cons, length_app. cbn [elements_size].
  destruct l; simpl in *; lia.
Qed.

Lemma members_size_le fs :
  Forall (fun kx => (size (snd kx) <= List.length (stringify (snd kx)))%nat) fs ->
  (members_size fs <= List.length (members_text fs))%nat.
Proof.
  induction 1 as [|[k x] l Hx Hl IH]; [simpl; lia|].
  rewrite members_text_cons, length_app. cbn [members_size snd] in *.
  cbn [List.length]. rewrite length_app.
  destruct l; simpl in *; lia.
Qed.

Lemma size_le_length v : (size v <= List.length (stringify v))%nat.
Proof.
  induction v as [| b | n | s | es IH | fs IH] using value_nested_ind.
  - simpl. lia.
  - destruct b; simpl; lia.
  - destruct (stringify_number_head n) as (c & tl & -> & _).
    simpl. lia.
  - simpl. lia.
  - rewrite stringify_arr, size_arr. cbn [List.length].
    apply le_n_S. now apply elements_size_le.
  - rewrite stringify_obj, size_obj. cbn [List.length].
    apply le_n_S. now apply members_size_le.
Qed.

(** [JSON.parse(JSON.stringify(v))] is [v]. *)
Theorem parse_stringify v : wf v -> Json.parse (stringify v) = POk v.
Proof.
  intros Hw. unfold Json.parse.
  pose proof (parse_value_stringify v Hw (2 * List.length (stringify v) + 2)%nat []) as H.
  rewrite app_nil_r in H. rewrite H; [reflexivity| |exact I].
  pose proof (size_le_length v). lia.
Qed.

(** *** What the parser builds is well formed *)

Lemma pcons_ok u p str rest :
  pcons u p = POk (str, rest) ->
  exists str', p = POk (str', rest) /\ str = u :: str'.
Proof.
  destruct p as [[s r]| |]; simpl; try discriminate.
  intros [= <- <-]. eauto.
Qed.

Lemma hex_value_range c x : hex_value c = Some x -> 0 <= x.
Proof.
  unfold hex_value.
  destruct ((48 <=? c) && (c <=? 57)) eqn:A; [intros [= <-]; lia|].
  destruct ((97 <=? c) && (c <=? 102)) eqn:B; [intros [= <-]; lia|].
  destruct ((65 <=? c) && (c <=? 70)) eqn:C; [intros [= <-]; lia|discriminate].
Qed.

Lemma hex4_range a b c d u : hex4 a b c d = Some u -> 0 <= u.
Proof.
  unfold hex4.
  destruct (hex_value a) as [x|] eqn:A; [|discriminate].
  destruct (hex_value b) as [y|] eqn:B; [|discriminate].
  destruct (hex_value c) as [z|] eqn:C; [|discriminate].
  destruct (hex_value d) as [w|] eqn:D; [|discriminate].
  apply hex_value_range in A, B, C, D. intros H.
  replace u with (4096 * x + 256 * y + 16 * z + w) by congruence. lia.
Qed.

Lemma simple_escape_range e u : simple_escape e = Some u -> 0 <= u.
Proof.
  unfold simple_escape.
  destruct (e =? 34); [intros [= <-]; lia|].
  destruct (e =? 92); [intros [= <-]; lia|].
  destruct (e =? 47); [intros [= <-]; lia|].
  destruct (e =? 98); [intros [= <-]; lia|].
  destruct (e =? 102); [intros [= <-]; lia|].
  destruct (e =? 110); [intros [= <-]; lia|].
  destruct (e =? 114); [intros [= <-]; lia|].
  destruct (e =? 116); [intros [= <-]; lia|discriminate].
Qed.

Lemma parse_chars_wf s str rest :
  parse_chars s = POk (str, rest) -> wf_string str.
Proof.
  remember (List.length s) as n eqn:Hn.
  assert (Hle : (List.length s <= n)%nat) by lia. clear Hn.
  revert s str Hle. induction n as [|n IH]; intros s str Hle.
  - destruct s; [discriminate|simpl in Hle; lia].
  - destruct s as [|c r]; [discriminate|]. rewrite parse_chars_cons.
    simpl in Hle.
    destruct (c =? 34); [intros [= <- <-]; constructor|].
    destruct (c =? 92).
    + destruct r as [|e r']; [discriminate|].
      destruct (e =? 117).
      * destruct r' as [|h1 [|h2 [|h3 [|h4 r'']]]]; try discriminate.
        destruct (hex4 h1 h2 h3 h4) as [u|] eqn:Hh; [|discriminate].
        intros Hp. apply pcons_ok in Hp as (str' & Hp & ->).
        constructor; [now apply hex4_range in Hh|].
        apply (IH r''); [simpl in Hle; lia|assumption].
      * destruct (simple_escape e) as [u|] eqn:He; [|discriminate].
        intros Hp. apply pcons_ok in Hp as (str' & Hp & ->).
        constructor; [now apply simple_escape_range in He|].
        apply (IH r'); [simpl in Hle; lia|assumption].
    + destruct (Z.ltb_spec c 32); [discriminate|].
      intros Hp. apply pcons_ok in Hp as (str' & Hp & ->).
      constructor; [lia|]. apply (IH r); [lia|assumption].
Qed.

Lemma take_digits_digits s ds r :
  take_digits s = (ds, r) -> forallb Obj.is_digit ds = true.
Proof.
  revert ds r. induction s as [|c s IH]; intros ds r; cbn [take_digits].
  - now intros [= <- <-].
  - destruct (Obj.is_digit c) eqn:Hc.
    + destruct (take_digits s) as [ds' r']. intros [= <- <-].
      cbn [forallb]. rewrite Hc. now apply (IH ds' r').
    + now intros [= <- <-].
Qed.

Lemma digits_value_nonneg ds :
  forallb Obj.is_digit ds = true -> 0 <= Obj.digits_value ds.
Proof.
  induction ds as [|d ds IH] using rev_ind; [intros _; cbv; discriminate|].
  rewrite forallb_app. intros H. apply andb_true_iff in H as [H1 H2].
  cbn [forallb] in H2. rewrite andb_true_r in H2. apply is_digit_range in H2.
  rewrite NumFacts.digits_value_snoc. specialize (IH H1). lia.
Qed.

Lemma parse_fraction_digits s fs r :
  parse_fraction s = Some (fs, r) -> forallb Obj.is_digit fs = true.
Proof.
  unfold parse_fraction. destruct (peek 46 s) as [t|].
  - destruct (take_digits t) as [ds s'] eqn:E.
    destruct ds as [|d ds']; [discriminate|]. intros [= <- <-].
    now apply take_digits_digits in E.
  - now intros [= <- <-].
Qed.

Lemma portable_arr es :
  portable (JArr es) = true <-> Forall (fun x => portable x = true) es.
Proof.
  induction es as [|x es IH].
  - split; [constructor|reflexivity].
  - change (portable (JArr (x :: es))) with (portable x && portable (JArr es)).
    rewrite andb_true_iff, IH. split.
    + intros [Hx Hr]. now constructor.
    + intros H. inversion H; subst. now split.
Qed.

Lemma portable_obj fs :
  portable (JObj fs) = true <-> Forall (fun kx => portable (snd kx) = true) fs.
Proof.
  induction fs as [|kx fs IH].
  - split; [constructor|reflexivity].
  - change (portable (JObj (kx :: fs))) with (portable (snd kx) && portable (JObj fs)).
    rewrite andb_true_iff, IH. split.
    + intros [Hx Hr]. now constructor.
    + intros H. inversion H; subst. now split.
Qed.

Lemma pwf_arr es : Forall pwf es -> pwf (JArr es).
Proof.
  intros H Hp. apply wf_arr. apply portable_arr in Hp.
  induction H as [|x l Hx Hl IH]; [constructor|].
  inversion Hp; subst. constructor; auto.
Qed.

Lemma pwf_obj fs :
  canonical (map fst fs) -> Forall pwf_member fs -> pwf (JObj fs).
Proof.
  intros Hc H Hp. apply wf_obj. split; [assumption|]. apply portable_obj in Hp.
  clear Hc. induction H as [|kx l [Hk Hx] Hl IH]; [constructor|].
  inversion Hp; subst. constructor; [split; auto|auto].
Qed.

Lemma parse_number_wf s v r : parse_number s = POk (v, r) -> pwf v.
Proof.
  unfold parse_number.
  destruct (parse_sign s) as [neg s1].
  destruct (take_digits s1) as [ip s2] eqn:Hip.
  destruct ip as [|d ip']; [discriminate|].
  destruct ((d =? 48) && match ip' with [] => false | _ => true end); [discriminate|].
  destruct (parse_fraction s2) as [[fs s3]|] eqn:Hfs; [|discriminate].
  destruct (parse_exponent s3) as [[e s4]|]; [|discriminate].
  intros [= <- <-] Hp. split; [|exact Hp].
  apply NumFacts.of_decimal_representable.
  apply digits_value_nonneg.
  change (forallb Obj.is_digit ((d :: ip') ++ fs) = true). rewrite forallb_app.
  now rewrite (take_digits_digits _ _ _ Hip), (parse_fraction_digits _ _ _ Hfs).
Qed.

Lemma build_object_wf ms : Forall pwf_member ms -> pwf (build_object ms).
Proof.
  intros H. unfold build_object.
  assert (G : forall acc, canonical (map fst acc) /\ Forall pwf_member acc ->
            canonical (map fst (fold_left
                (fun a (kv : jsstring * value) => Obj.set (fst kv) (snd kv) a) ms acc)) /\
            Forall pwf_member (fold_left
                (fun a (kv : jsstring * value) => Obj.set (fst kv) (snd kv) a) ms acc)).
  { induction H as [|[k x] l Hx Hl IH]; intros acc [Hc Hf]; [now split|].
    cbn [fold_left fst snd]. apply IH. split.
    - now apply canonical_set.
    - now apply Forall_set. }
  destruct (G []) as [Hc Hf]; [split; constructor|].
  now apply pwf_obj.
Qed.

Lemma parser_wf fuel :
  (forall s v r, parse_value fuel s = POk (v, r) -> pwf v) /\
  (forall s vs r, parse_elements fuel s = POk (vs, r) -> Forall pwf vs) /\
  (forall s ms r, parse_members fuel s = POk (ms, r) -> Forall pwf_member ms).
Proof.
  induction fuel as [|f (IHv & IHe & IHm)]; [repeat split; discriminate|].
  repeat split.
  - intros s v r. rewrite parse_value_S.
    destruct (skip_ws s) as [|c t]; [discriminate|].
    destruct (c =? 91).
    { destruct (peek 93 (skip_ws t)); [intros [= <- <-] _; exact I|].
      destruct (parse_elements f t) as [[es r']| |] eqn:E; try discriminate.
      intros [= <- <-]. apply pwf_arr. eapply IHe; eauto. }
    destruct (c =? 123).
    { destruct (peek 125 (skip_ws t));
        [intros [= <- <-] _; split; [constructor|exact I]|].
      destruct (parse_members f t) as [[ms r']| |] eqn:E; try discriminate.
      intros [= <- <-]. apply build_object_wf. eapply IHm; eauto. }
    destruct (c =? 34).
    { destruct (parse_chars t) as [[str r']| |] eqn:E; try discriminate.
      intros [= <- <-] _. cbn [wf]. eapply parse_chars_wf; eauto. }
    destruct (c =? 116).
    { destruct (starts_with _ t); [intros [= <- <-] _; exact I|discriminate]. }
    destruct (c =? 102).
    { destruct (starts_with _ t); [intros [= <- <-] _; exact I|discriminate]. }
    destruct (c =? 110).
    { destruct (starts_with _ t); [intros [= <- <-] _; exact I|discriminate]. }
    apply parse_number_wf.
  - intros s vs r. rewrite parse_elements_S.
    destruct (parse_value f s) as [[v r1]| |] eqn:E; try discriminate.
    destruct (peek 44 (skip_ws r1)) as [r2|].
    + destruct (parse_elements f r2) as [[vs' r3]| |] eqn:E'; try discriminate.
      intros [= <- <-]. constructor; eauto.
    + destruct (peek 93 (skip_ws r1)); [|discriminate].
      intros [= <- <-]. constructor; eauto.
  - intros s ms r. rewrite parse_members_S.
    destruct (peek 34 (skip_ws s)) as [t|]; [|discriminate].
    destruct (parse_chars t) as [[k r1]| |] eqn:Ek; try discriminate.
    destruct (peek 58 (skip_ws r1)) as [r2|]; [|discriminate].
    destruct (parse_value f r2) as [[v r3]| |] eqn:Ev; try discriminate.
    assert (Hm : pwf_member (k, v)).
    { split; [eapply parse_chars_wf; eauto|eapply IHv; eauto]. }
    destruct (peek 44 (skip_ws r3)) as [r4|].
    + destruct (parse_members f r4) as [[ms' r5]| |] eqn:E'; try discriminate.
      intros [= <- <-]. constructor; eauto.
    + destruct (peek 125 (skip_ws r3)); [|discriminate].
      intros [= <- <-]. constructor; eauto.
Qed.

(** Whatever [JSON.parse] returns is well formed, if every number in it is
    one that a JSON text carries. *)
Theorem parse_wf text v : Json.parse text = POk v -> portable v = true -> wf v.
Proof.
  unfold Json.parse.
  destruct (parse_value _ text) as [[v' r]| |] eqn:E; try discriminate.
  destruct (skip_ws r); [|discriminate].
  intros [= <-]. eapply (proj1 (parser_wf _)); eauto.
Qed.

End ParseWf.

Module TransformWf.
Import CanonFacts ParseWf.













End TransformWf.

(* ===================================================================== *)
(** ** JSON: the fuel of the parser *)
(* ===================================================================== *)

Module FuelFacts.
Import Json RoundTrip.

Lemma skip_ws_length s : (List.length (skip_ws s) <= List.length s)%nat.
Proof.
  induction s as [|c s IH]; simpl; [lia|].
  destruct (is_ws c); simpl; lia.
Qed.

Lemma peek_length c s r : peek c s = Some r -> (S (List.length r) = List.length s)%nat.
Proof.
  unfold peek. destruct s as [|x s]; [discriminate|].
  destruct (x =? c); [|discriminate]. now intros [= <-].
Qed.

Lemma starts_with_length p s r : starts_with p s = Some r -> (List.length r <= List.length s)%nat.
Proof.
  revert s. induction p as [|a p IH]; intros s; simpl.
  - now intros [= <-].
  - destruct s as [|b s]; [discriminate|].
    destruct (a =? b); [|discriminate]. intros H. apply IH in H. simpl. lia.
Qed.

Lemma take_digits_length s ds r : take_digits s = (ds, r) -> (List.length r <= List.length s)%nat.
Proof.
  revert ds r. induction s as [|c s IH]; intros ds r; cbn [take_digits].
  - now intros [= <- <-].
  - destruct (Obj.is_digit c).
    + destruct (take_digits s) as [ds' r'] eqn:E. intros [= <- <-].
      specialize (IH _ _ eq_refl). simpl. lia.
    + intros [= <- <-]. lia.
Qed.

Lemma parse_chars_length s str r :
  parse_chars s = POk (str, r) -> (List.length r < List.length s)%nat.
Proof.
  remember (List.length s) as n eqn:Hn.
  assert (Hle : (List.length s <= n)%nat) by lia. clear Hn.
  revert s str Hle. induction n as [|n IH]; intros s str Hle.
  - destruct s; [discriminate|simpl in Hle; lia].
  - destruct s as [|c t]; [discriminate|]. rewrite StringFacts.parse_chars_cons.
    simpl in Hle.
    destruct (c =? 34); [intros [= <- <-]; simpl; lia|].
    destruct (c =? 92).
    + destruct t as [|e t']; [discriminate|].
      destruct (e =? 117).
      * destruct t' as [|h1 [|h2 [|h3 [|h4 t'']]]]; try discriminate.
        destruct (hex4 h1 h2 h3 h4) as [u|]; [|discriminate].
        intros Hp. apply ParseWf.pcons_ok in Hp as (str' & Hp & ->).
        apply IH in Hp; simpl in *; lia.
      * destruct (simple_escape e) as [u|]; [|discriminate].
        intros Hp. apply ParseWf.pcons_ok in Hp as (str' & Hp & ->).
        apply IH in Hp; simpl in *; lia.
    + destruct (c <? 32); [discriminate|].
      intros Hp. apply ParseWf.pcons_ok in Hp as (str' & Hp & ->).
      apply IH in Hp; simpl in *; lia.
Qed.

Lemma parse_number_length s v r :
  parse_number s = POk (v, r) -> (List.length r <= List.length s)%nat.
Proof.
  unfold parse_number, parse_sign.
  assert (H1 : forall b s1, match peek 45 s with
                            | Some r0 => (true, r0)
                            | None => (false, s)
                            end = (b, s1) -> (List.length s1 <= List.length s)%nat).
  { intros b s1. destruct (peek 45 s) as [r0|] eqn:E; intros [= <- <-]; [|lia].
    apply peek_length in E. lia. }
  destruct (match peek 45 s with Some r0 => (true, r0) | None => (false, s) end)
    as [neg s1].
  specialize (H1 _ _ eq_refl).
  destruct (take_digits s1) as [ip s2] eqn:Hip. apply take_digits_length in Hip.
  destruct ip as [|d ip']; [discriminate|].
  destruct ((d =? 48) && match ip' with [] => false | _ => true end); [discriminate|].
  destruct (parse_fraction s2) as [[fs s3]|] eqn:Hfs; [|discriminate].
  assert (H3 : (List.length s3 <= List.length s2)%nat).
  { unfold parse_fraction in Hfs. destruct (peek 46 s2) as [t|] eqn:E.
    - apply peek_length in E. destruct (take_digits t) as [ds s'] eqn:E'.
      apply take_digits_length in E'.
      destruct ds; [discriminate|]. injection Hfs as _ <-. lia.
    - injection Hfs as _ <-. lia. }
  destruct (parse_exponent s3) as [[e s4]|] eqn:He; [|discriminate].
  assert (H4 : (List.length s4 <= List.length s3)%nat).
  { unfold parse_exponent in He. destruct s3 as [|c t]; [injection He as _ <-; lia|].
    destruct ((c =? 101) || (c =? 69)); [|injection He as _ <-; lia].
    assert (Hs : forall b t1, match peek 45 t, peek 43 t with
                              | Some r', _ => (true, r')
                              | None, Some r' => (false, r')
                              | None, None => (false, t)
                              end = (b, t1) -> (List.length t1 <= List.length t)%nat).
    { intros b t1. destruct (peek 45 t) as [r0|] eqn:E1.
      - intros [= <- <-]. apply peek_length in E1. lia.
      - destruct (peek 43 t) as [r0|] eqn:E2; intros [= <- <-]; [|lia].
        apply peek_length in E2. lia. }
    destruct (match peek 45 t, peek 43 t with
              | Some r', _ => (true, r')
              | None, Some r' => (false, r')
              | None, None => (false, t)
              end) as [eneg t1].
    specialize (Hs _ _ eq_refl).
    destruct (take_digits t1) as [es s'] eqn:E'. apply take_digits_length in E'.
    destruct es; [discriminate|]. injection He as _ <-. simpl. lia. }
  intros [= <- <-]. lia.
Qed.

(** A successful call leaves no more than it was given. *)
Lemma parser_length fuel :
  (forall s v r, parse_value fuel s = POk (v, r) -> (List.length r <= List.length s)%nat) /\
  (forall s vs r, parse_elements fuel s = POk (vs, r) -> (List.length r <= List.length s)%nat) /\
  (forall s ms r, parse_members fuel s = POk (ms, r) -> (List.length r <= List.length s)%nat).
Proof.
  induction fuel as [|f (IHv & IHe & IHm)]; [repeat split; discriminate|].
  repeat split.
  - intros s v r. rewrite parse_value_S.
    pose proof (skip_ws_length s) as Hs.
    destruct (skip_ws s) as [|c t]; [discriminate|]. simpl in Hs.
    destruct (c =? 91).
    { destruct (peek 93 (skip_ws t)) as [r0|] eqn:E.
      - intros [= <- <-]. apply peek_length in E.
        pose proof (skip_ws_length t). lia.
      - destruct (parse_elements f t) as [[es r']| |] eqn:E'; try discriminate.
        intros [= <- <-]. apply IHe in E'. lia. }
    destruct (c =? 123).
    { destruct (peek 125 (skip_ws t)) as [r0|] eqn:E.
      - intros [= <- <-]. apply peek_length in E.
        pose proof (skip_ws_length t). lia.
      - destruct (parse_members f t) as [[ms r']| |] eqn:E'; try discriminate.
        intros [= <- <-]. apply IHm in E'. lia. }
    destruct (c =? 34).
    { destruct (parse_chars t) as [[str r']| |] eqn:E; try discriminate.
      intros [= <- <-]. apply parse_chars_length in E. lia. }
    destruct (c =? 116).
    { destruct (starts_with _ t) eqn:E; [|discriminate].
      intros [= <- <-]. apply starts_with_length in E. lia. }
    destruct (c =? 102).
    { destruct (starts_with _ t) eqn:E; [|discriminate].
      intros [= <- <-]. apply starts_with_length in E. lia. }
    destruct (c =? 110).
    { destruct (starts_with _ t) eqn:E; [|discriminate].
      intros [= <- <-]. apply starts_with_length in E. lia. }
    intros H. apply parse_number_length in H. simpl in H. lia.
  - intros s vs r. rewrite parse_elements_S.
    destruct (parse_value f s) as [[v r1]| |] eqn:E; try discriminate.
    apply IHv in E. pose proof (skip_ws_length r1) as Hs.
    destruct (peek 44 (skip_ws r1)) as [r2|] eqn:E2.
    + apply peek_length in E2.
      destruct (parse_elements f r2) as [[vs' r3]| |] eqn:E'; try discriminate.
      intros [= <- <-]. apply IHe in E'. lia.
    + destruct (peek 93 (skip_ws r1)) as [r2|] eqn:E3; [|discriminate].
      apply peek_length in E3. intros [= <- <-]. lia.
  - intros s ms r. rewrite parse_members_S.
    pose proof (skip_ws_length s) as Hs.
    destruct (peek 34 (skip_ws s)) as [t|] eqn:E1; [|discriminate].
    apply peek_length in E1.
    destruct (parse_chars t) as [[k r1]| |] eqn:Ek; try discriminate.
    apply parse_chars_length in Ek. pose proof (skip_ws_length r1) as Hs1.
    destruct (peek 58 (skip_ws r1)) as [r2|] eqn:E2; [|discriminate].
    apply peek_length in E2.
    destruct (parse_value f r2) as [[v r3]| |] eqn:Ev; try discriminate.
    apply IHv in Ev. pose proof (skip_ws_length r3) as Hs3.
    destruct (peek 44 (skip_ws r3)) as [r4|] eqn:E4.
    + apply peek_length in E4.
      destruct (parse_members f r4) as [[ms' r5]| |] eqn:E'; try discriminate.
      intros [= <- <-]. apply IHm in E'. lia.
    + destruct (peek 125 (skip_ws r3)) as [r4|] eqn:E5; [|discriminate].
      apply peek_length in E5. intros [= <- <-]. lia.
Qed.

(** With fuel above twice the length of the text, more fuel changes
    nothing: the recursion never stops for lack of it. *)
Lemma parser_fuel f :
  (forall s f', (2 * List.length s + 2 <= f)%nat -> (f <= f')%nat ->
                parse_value f' s = parse_value f s) /\
  (forall s f', (2 * List.length s + 3 <= f)%nat -> (f <= f')%nat ->
                parse_elements f' s = parse_elements f s) /\
  (forall s f', (2 * List.length s + 3 <= f)%nat -> (f <= f')%nat ->
                parse_members f' s = parse_members f s).
Proof.
  induction f as [|f (IHv & IHe & IHm)]; [repeat split; intros; lia|].
  repeat split.
  - intros s [|f'] Hb Hf; [lia|]. rewrite !parse_value_S.
    pose proof (skip_ws_length s) as Hs.
    destruct (skip_ws s) as [|c t]; [reflexivity|]. simpl in Hs.
    rewrite (IHe t f') by lia. rewrite (IHm t f') by lia. reflexivity.
  - intros s [|f'] Hb Hf; [lia|]. rewrite !parse_elements_S.
    rewrite (IHv s f') by lia.
    destruct (parse_value f s) as [[v r1]| |] eqn:E; try reflexivity.
    apply (proj1 (parser_length f)) in E. pose proof (skip_ws_length r1) as Hs.
    destruct (peek 44 (skip_ws r1)) as [r2|] eqn:E2; [|reflexivity].
    apply peek_length in E2. rewrite (IHe r2 f') by lia. reflexivity.
  - intros s [|f'] Hb Hf; [lia|]. rewrite !parse_members_S.
    pose proof (skip_ws_length s) as Hs.
    destruct (peek 34 (skip_ws s)) as [t|] eqn:E1; [|reflexivity].
    apply peek_length in E1.
    destruct (parse_chars t) as [[k r1]| |] eqn:Ek; try reflexivity.
    apply parse_chars_length in Ek. pose proof (skip_ws_length r1) as Hs1.
    destruct (peek 58 (skip_ws r1)) as [r2|] eqn:E2; [|reflexivity].
    apply peek_length in E2.
    rewrite (IHv r2 f') by lia.
    destruct (parse_value f r2) as [[v r3]| |] eqn:Ev; try reflexivity.
    apply (proj1 (parser_length f)) in Ev. pose proof (skip_ws_length r3) as Hs3.
    destruct (peek 44 (skip_ws r3)) as [r4|] eqn:E4; [|reflexivity].
    apply peek_length in E4. rewrite (IHm r4 f') by lia. reflexivity.
Qed.

(** [Json.parse] gives the answer of the parser with any larger fuel. *)
Theorem parse_fuel_enough text fuel :
  (2 * List.length text + 2 <= fuel)%nat ->
  parse_value fuel text = parse_value (2 * List.length text + 2) text.
Proof. intros H. now apply (proj1 (parser_fuel _)). Qed.

Lemma parse_chars_fuel s : parse_chars s <> PFuel.
Proof.
  remember (List.length s) as n eqn:Hn.
  assert (Hle : (List.length s <= n)%nat) by lia. clear Hn.
  revert s Hle. induction n as [|n IH]; intros s Hle.
  - destruct s; [discriminate|simpl in Hle; lia].
  - destruct s as [|c t]; [discriminate|]. rewrite StringFacts.parse_chars_cons.
    simpl in Hle.
    assert (Hc : forall u r, (List.length r <= n)%nat -> pcons u (parse_chars r) <> PFuel).
    { intros u r Hr. specialize (IH r Hr).
      destruct (parse_chars r) as [[str r']| |]; simpl; congruence. }
    destruct (c =? 34); [discriminate|].
    destruct (c =? 92).
    + destruct t as [|e t']; [discriminate|].
      destruct (e =? 117).
      * destruct t' as [|h1 [|h2 [|h3 [|h4 t'']]]]; try discriminate.
        destruct (hex4 h1 h2 h3 h4); [|discriminate].
        apply Hc. simpl in Hle. lia.
      * destruct (simple_escape e); [|discriminate].
        apply Hc. simpl in Hle. lia.
    + destruct (c <? 32); [discriminate|]. apply Hc. lia.
Qed.

Lemma parse_number_fuel s : parse_number s <> PFuel.
Proof.
  unfold parse_number.
  destruct (parse_sign s) as [neg s1].
  destruct (take_digits s1) as [ip s2].
  destruct ip as [|d ip']; [discriminate|].
  destruct ((d =? 48) && match ip' with [] => false | _ => true end); [discriminate|].
  destruct (parse_fraction s2) as [[fs s3]|]; [|discriminate].
  destruct (parse_exponent s3) as [[e s4]|]; discriminate.
Qed.

(** With that fuel the recursion is never cut short. *)
Lemma parser_total f :
  (forall s, (2 * List.length s + 2 <= f)%nat -> parse_value f s <> PFuel) /\
  (forall s, (2 * List.length s + 3 <= f)%nat -> parse_elements f s <> PFuel) /\
  (forall s, (2 * List.length s + 3 <= f)%nat -> parse_members f s <> PFuel).
Proof.
  induction f as [|f (IHv & IHe & IHm)]; [repeat split; intros; lia|].
  repeat split.
  - intros s Hb. rewrite parse_value_S.
    pose proof (skip_ws_length s) as Hs.
    destruct (skip_ws s) as [|c t]; [discriminate|]. simpl in Hs.
    destruct (c =? 91).
    { destruct (peek 93 (skip_ws t)); [discriminate|].
      specialize (IHe t ltac:(lia)).
      destruct (parse_elements f t) as [[es r']| |]; congruence. }
    destruct (c =? 123).
    { destruct (peek 125 (skip_ws t)); [discriminate|].
      specialize (IHm t ltac:(lia)).
      destruct (parse_members f t) as [[ms r']| |]; congruence. }
    destruct (c =? 34).
    { pose proof (parse_chars_fuel t).
      destruct (parse_chars t) as [[str r']| |]; congruence. }
    destruct (c =? 116); [destruct (starts_with _ t); discriminate|].
    destruct (c =? 102); [destruct (starts_with _ t); discriminate|].
    destruct (c =? 110); [destruct (starts_with _ t); discriminate|].
    apply parse_number_fuel.
  - intros s Hb. rewrite parse_elements_S.
    specialize (IHv s ltac:(lia)).
    destruct (parse_value f s) as [[v r1]| |] eqn:E; try congruence.
    apply (proj1 (parser_length f)) in E. pose proof (skip_ws_length r1) as Hs.
    destruct (peek 44 (skip_ws r1)) as [r2|] eqn:E2.
    + apply peek_length in E2. specialize (IHe r2 ltac:(lia)).
      destruct (parse_elements f r2) as [[vs' r3]| |]; congruence.
    + destruct (peek 93 (skip_ws r1)); discriminate.
  - intros s Hb. rewrite parse_members_S.
    pose proof (skip_ws_length s) as Hs.
    destruct (peek 34 (skip_ws s)) as [t|] eqn:E1; [|discriminate].
    apply peek_length in E1.
    pose proof (parse_chars_fuel t) as Hk.
    destruct (parse_chars t) as [[k r1]| |] eqn:Ek; try congruence.
    apply parse_chars_length in Ek. pose proof (skip_ws_length r1) as Hs1.
    destruct (peek 58 (skip_ws r1)) as [r2|] eqn:E2; [|discriminate].
    apply peek_length in E2. specialize (IHv r2 ltac:(lia)).
    destruct (parse_value f r2) as [[v r3]| |] eqn:Ev; try congruence.
    apply (proj1 (parser_length f)) in Ev. pose proof (skip_ws_length r3) as Hs3.
    destruct (peek 44 (skip_ws r3)) as [r4|] eqn:E4.
    + apply peek_length in E4. specialize (IHm r4 ltac:(lia)).
      destruct (parse_members f r4) as [[ms' r5]| |]; congruence.
    + destruct (peek 125 (skip_ws r3)); discriminate.
Qed.

(** [JSON.parse] always answers: it returns a value or throws a
    SyntaxError. *)
Theorem parse_total text : Json.parse text <> PFuel.
Proof.
  unfold Json.parse.
  pose proof (proj1 (parser_total (2 * List.length text + 2)) text (le_n _)) as H.
  destruct (parse_value _ text) as [[v r]| |]; [|discriminate|congruence].
  destruct (skip_ws r); discriminate.
Qed.

End FuelFacts.

(* ===================================================================== *)
(** ** The mutation functions on parsed bodies *)
(* ===================================================================== *)

Lemma handle_mocking_companies v :
  outcome (handle_mocking URL_COMPANIES v) = outcome (mock_companies v).
Proof.
  unfold handle_mocking. change (str_eqb URL_COMPANIES URL_COMPANIES) with true.
  cbv iota. now rewrite outcome_bind.
Qed.

Lemma handle_mocking_authorize_policies v :
  outcome (handle_mocking URL_AUTHORIZE_POLICIES v)
  = outcome (mock_authorize_policies v).
Proof.
  unfold handle_mocking.
  change (str_eqb URL_AUTHORIZE_POLICIES URL_COMPANIES) with false.
  change (str_eqb URL_AUTHORIZE_POLICIES URL_AUTHORIZE_POLICIES) with true.
  cbv iota. now rewrite outcome_bind.
Qed.

(* ===================================================================== *)
(** ** The handler is defined on every chunk *)
(* ===================================================================== *)

Lemma JSON_parse_defined str : JSON_parse str <> None.
Proof.
  unfold JSON_parse. pose proof (FuelFacts.parse_total str) as H.
  destruct (Json.parse str); [discriminate|discriminate|now destruct H].
Qed.

Lemma ondata_defined req decoder chunk :
  exists decoder' r t, ondata req decoder chunk = Some (decoder', (r, t)).
Proof.
  pose proof (decode_pair decoder chunk) as Hd.
  set (str := snd (TextDecoder_decode_stream decoder chunk)) in *.
  pose proof (FuelFacts.parse_total str) as Ht.
  destruct (Json.parse str) as [v| |] eqn:Hp; [| |now destruct Ht].
  - destruct (handle_mocking (url req) v) as [[v'|e] t] eqn:Hh.
    + unfold ondata. rewrite (ondata_returns _ _ _ _ _ _ Hd v v' t Hp Hh). eauto.
    + unfold ondata. rewrite (ondata_throws _ _ _ _ _ _ Hd v e t Hp Hh). eauto.
  - unfold ondata. rewrite (ondata_syntax_error _ _ _ _ _ _ Hd Hp). eauto.
Qed.

Lemma feed_defined req chunks :
  forall decoder, exists out t, feed req decoder chunks = Some (out, t).
Proof.
  induction chunks as [|chunk rest IH]; intros decoder; cbn [feed]; [eauto|].
  destruct (ondata_defined req decoder chunk) as (decoder' & r & t & ->).
  destruct (disconnected t); [eauto|].
  destruct (IH decoder') as (out & t' & ->). eauto.
Qed.

(** Every response gets an outcome: the bytes for the page and the trace. *)
Lemma respond_defined req chunks :
  exists out t, respond req chunks = Some (out, t).
Proof.
  unfold respond. destruct (mocker req) as [[[decoder|]|e] t0]; eauto.
  destruct (feed_defined req chunks decoder) as (out & t & ->). eauto.
Qed.

(* ===================================================================== *)
(** ** URLs in neither list *)
(* ===================================================================== *)




(** On such a URL a parsed body is not always written back as it came: the
    numbers come back as the doubles the parser read, an overflowing one as
    [null]. *)
Lemma unknown_url_numbers_are_rewritten :
  delivered (mkRequest (lit "7") (lit "https://api.factorialhr.com/companies?page=2"))
            [utf8 (qlit "[1e400,9007199254740993,1.50]")]
  = Some (utf8 (qlit "[null,9007199254740992,1.5]")).
Proof. vm_compute. reflexivity. Qed.

(* ===================================================================== *)
(** ** Targeted fields and the rest of the body *)
(* ===================================================================== *)






(** Why the numbers are restricted when the written text is read again: on
    [/companies], an [id] beyond the range of the doubles is parsed as
    [Infinity] and written as [null], and [-0] is written as [0]. *)
Lemma companies_overflow_is_written_as_null :
  delivered (mkRequest (lit "7") URL_COMPANIES)
            [utf8 (qlit "[{'id':1e400,'n':-0,'permissions':{'payroll':{}}}]")]
  = Some (utf8 (qlit "[{'id':null,'n':0,'permissions':{'payroll':{'edit_supplements':true}}}]")).
Proof. vm_compute. reflexivity. Qed.

(* ===================================================================== *)
(** ** The handler as a whole: one write, then disconnect *)
(* ===================================================================== *)

(** Every run of [filter.ondata] has the same shape, whichever of its three
    ways it takes. *)
Lemma ondata_shape req decoder chunk decoder' m :
  ondata req decoder chunk = Some (decoder', m) ->
  let str := snd (TextDecoder_decode_stream decoder chunk) in
  exists t text,
    m = (Normal tt,
         EvDecode chunk :: EvParse str :: t ++
         [EvEncode text; EvWrite (utf8 text); EvDisconnect]) /\
    quiet t /\
    (text = str \/
     exists v v', Json.parse str = Json.POk v /\
                  outcome (handle_mocking (url req) v) = Normal v' /\
                  text = Json.stringify v').
Proof.
  intros Ho str. pose proof (decode_pair decoder chunk) as Hd. fold str in Hd.
  unfold ondata in Ho.
  destruct (Json.parse str) as [v| |] eqn:Hp.
  - destruct (handle_mocking (url req) v) as [[v'|e] t] eqn:Hh.
    + rewrite (ondata_returns _ _ _ _ _ _ Hd v v' t Hp Hh) in Ho.
      injection Ho as _ <-. exists t, (Json.stringify v'). split; [reflexivity|].
      split.
      * pose proof (quiet_handle_mocking (url req) v) as Q. now rewrite Hh in Q.
      * right. exists v, v'. unfold outcome. now rewrite Hh.
    + rewrite (ondata_throws _ _ _ _ _ _ Hd v e t Hp Hh) in Ho.
      injection Ho as _ <-. exists t, str. split; [reflexivity|].
      split; [|now left].
      pose proof (quiet_handle_mocking (url req) v) as Q. now rewrite Hh in Q.
  - rewrite (ondata_syntax_error _ _ _ _ _ _ Hd Hp) in Ho.
    injection Ho as _ <-. exists [], str. split; [reflexivity|].
    split; [apply quiet_nil|now left].
  - now rewrite (ondata_cut_short _ _ _ _ _ _ Hd Hp) in Ho.
Qed.

Lemma writes_one t text :
  quiet t ->
  writes_of (t ++ [EvEncode text; EvWrite (utf8 text); EvDisconnect]) = utf8 text /\
  disconnected (t ++ [EvEncode text; EvWrite (utf8 text); EvDisconnect]) = true.
Proof.
  intros [W D]. rewrite writes_of_app, disconnected_app, W, D. simpl.
  now rewrite app_nil_r.
Qed.

(** X1 -- Whatever the URL, the decoder state and the chunk, a run of
    [filter.ondata] completes normally (no exception leaves the handler),
    and its last two platform calls are its only [filter.write] and its
    only [filter.disconnect]: nothing before them writes or disconnects.
    What is written is the encoding either of the decoded text or of the
    serialisation of the value the dispatcher returned. *)
Theorem ondata_one_write_then_disconnect
    (req : requestDetails) (decoder : Utf8.dstate) (chunk : bytes) :
  exists decoder' t0 text,
    ondata req decoder chunk
    = Some (decoder', (Normal tt, t0 ++ [EvWrite (utf8 text); EvDisconnect])) /\
    quiet t0 /\
    (text = snd (TextDecoder_decode_stream decoder chunk) \/
     exists v v',
       Json.parse (snd (TextDecoder_decode_stream decoder chunk)) = Json.POk v /\
       outcome (handle_mocking (url req) v) = Normal v' /\
       text = Json.stringify v').
Proof.
  destruct (ondata_defined req decoder chunk) as (decoder' & r & t & Ho).
  pose proof Ho as Hs. apply ondata_shape in Hs as (t1 & text & E & Q & T).
  injection E as -> ->.
  exists decoder',
    (EvDecode chunk :: EvParse (snd (TextDecoder_decode_stream decoder chunk))
       :: t1 ++ [EvEncode text]), text.
  split; [rewrite Ho; simpl; now rewrite <- app_assoc|].
  split; [|exact T].
  change (quiet ([EvDecode chunk; EvParse (snd (TextDecoder_decode_stream decoder chunk))]
                   ++ t1 ++ [EvEncode text])).
  apply quiet_app; [split; reflexivity|].
  apply quiet_app; [exact Q|split; reflexivity].
Qed.

Lemma feed_first req decoder chunk rest :
  feed req decoder (chunk :: rest)
  = option_map (fun r => (fst r ++ List.concat rest, snd r)) (feed req decoder [chunk]).
Proof.
  simpl. destruct (ondata req decoder chunk) as [[d' [r t]]|] eqn:Ho; [|reflexivity].
  apply ondata_shape in Ho as (t1 & text & E & Q & _).
  injection E as -> ->.
  destruct (writes_one t1 text Q) as [W D].
  change (EvDecode chunk :: EvParse (snd (TextDecoder_decode_stream decoder chunk))
            :: t1 ++ [EvEncode text; EvWrite (utf8 text); EvDisconnect])
    with ([EvDecode chunk; EvParse (snd (TextDecoder_decode_stream decoder chunk))]
            ++ (t1 ++ [EvEncode text; EvWrite (utf8 text); EvDisconnect])).
  rewrite disconnected_app, D. simpl. now rewrite app_nil_r.
Qed.

(** X2 -- Only the first chunk of a response ever reaches the handler: the
    platform calls of a request are those of its first chunk alone, and all
    later chunks are delivered to the page byte for byte after what the
    handler wrote for the first (for an ignored URL, after the first chunk
    itself). *)
Theorem later_chunks_pass_verbatim
    (req : requestDetails) (chunk : bytes) (rest : list bytes) :
  respond req (chunk :: rest)
  = option_map (fun r => (fst r ++ List.concat rest, snd r)) (respond req [chunk]).
Proof.
  unfold respond. destruct (mocker req) as [[[d|]|e] t0]; simpl List.concat.
  - rewrite feed_first. destruct (feed req d [chunk]) as [[out t]|]; reflexivity.
  - now rewrite app_nil_r.
  - now rewrite app_nil_r.
Qed.

(* ===================================================================== *)
(** ** What the page receives for the first chunk *)
(* ===================================================================== *)

Lemma delivered_first_chunk req chunk rest :
  ~ In (url req) NOT_INTERESTING_URLS ->
  delivered req (chunk :: rest)
  = match Json.parse (snd (TextDecoder_decode_stream Utf8.init chunk)) with
    | Json.POk v =>
        Some (utf8 (match outcome (handle_mocking (url req) v) with
                    | Normal v' => Json.stringify v'
                    | Throw _ => snd (TextDecoder_decode_stream Utf8.init chunk)
                    end) ++ List.concat rest)
    | Json.PSyntax =>
        Some (utf8 (snd (TextDecoder_decode_stream Utf8.init chunk)) ++ List.concat rest)
    | Json.PFuel => None
    end.
Proof.
  intros Hn. unfold delivered.
  pose proof (decode_pair Utf8.init chunk) as Hd.
  set (str := snd (TextDecoder_decode_stream Utf8.init chunk)) in *.
  destruct (Json.parse str) as [v| |] eqn:Hp.
  - destruct (quiet_handle_mocking (url req) v) as [W D].
    unfold outcome.
    destruct (handle_mocking (url req) v) as [[v'|e] t] eqn:Hh; cbn [fst snd] in *.
    + pose proof (ondata_returns handle_mocking req _ _ _ _ Hd v v' t Hp Hh) as Ho.
      rewrite (respond_first_chunk req chunk rest _ _ _ Hn Ho).
      * cbn. rewrite writes_of_app, W. cbn. now rewrite app_nil_r.
      * cbn. rewrite disconnected_app, D. reflexivity.
    + pose proof (ondata_throws handle_mocking req _ _ _ _ Hd v e t Hp Hh) as Ho.
      rewrite (respond_first_chunk req chunk rest _ _ _ Hn Ho).
      * cbn. rewrite writes_of_app, W. cbn. now rewrite app_nil_r.
      * cbn. rewrite disconnected_app, D. reflexivity.
  - pose proof (ondata_syntax_error handle_mocking req _ _ _ _ Hd Hp) as Ho.
    rewrite (respond_first_chunk req chunk rest _ _ _ Hn Ho eq_refl).
    cbn. now rewrite app_nil_r.
  - pose proof (ondata_cut_short handle_mocking req _ _ _ _ Hd Hp) as Ho.
    now rewrite (respond_cut_short req chunk rest Hn Ho).
Qed.

(** X3 -- [INTERESTING_URLS] plays no part in the dispatch: for every URL
    that is not ignored and is neither of the two [case] labels, be it
    listed as interesting (as [/posts/groups] is) or not, a first chunk that
    parses is replaced by the serialisation of the parsed value.  The bytes
    may differ from those received (blanks are lost, numbers are spelt as
    the doubles that were read); when no number of the parsed value is an
    infinity or [-0], the serialisation parses to the same value again. *)
Theorem unhandled_url_keeps_content
    (req : requestDetails) (chunk : bytes) (rest : list bytes) (v : value) :
  ~ In (url req) NOT_INTERESTING_URLS ->
  url req <> URL_COMPANIES ->
  url req <> URL_AUTHORIZE_POLICIES ->
  Json.parse (snd (TextDecoder_decode_stream Utf8.init chunk)) = Json.POk v ->
  delivered req (chunk :: rest) = Some (utf8 (Json.stringify v) ++ List.concat rest) /\
  (portable v = true -> Json.parse (Json.stringify v) = Json.POk v).
Proof.
  intros Hn H1 H2 Hp. split.
  - rewrite delivered_first_chunk by assumption. rewrite Hp.
    now rewrite (handle_mocking_default _ v H1 H2).
  - intros Hn'. apply ParseWf.parse_stringify. eapply ParseWf.parse_wf; eassumption.
Qed.

Lemma unhandled_url_keeps_content_witness :
  let req := mkRequest (lit "7") (lit "https://api.factorialhr.com/posts/groups") in
  let v := JObj [(lit "b", JArr [JNum 1; JNum (Frac 5 2)])] in
  In (url req) INTERESTING_URLS /\
  delivered req [utf8 (qlit " { 'b' : [1, 1.250] } "); utf8 (qlit "tail")]
  = Some (utf8 (qlit "{'b':[1,1.25]}tail")) /\
  Json.parse (qlit "{'b':[1,1.25]}") = Json.POk v.
Proof.
  intros req v. split; [right; right; left; reflexivity|].
  destruct (unhandled_url_keeps_content req
              (utf8 (qlit " { 'b' : [1, 1.250] } "))
              [utf8 (qlit "tail")] v) as [Hd Hr].
  - apply includes_not_In. vm_compute. reflexivity.
  - apply str_eqb_neq. vm_compute. reflexivity.
  - apply str_eqb_neq. vm_compute. reflexivity.
  - vm_compute. reflexivity.
  - split.
    + rewrite Hd. vm_compute. reflexivity.
    + rewrite <- (Hr eq_refl). vm_compute. reflexivity.
Defined.

(* ===================================================================== *)
(** ** Exceptions of the mutation functions *)
(* ===================================================================== *)

Lemma for_of_throw_inv body l e :
  outcome (for_of body l) = Throw e ->
  exists x, In x l /\ outcome (body x) = Throw e.
Proof.
  induction l as [|x l IH]; simpl; [discriminate|].
  rewrite outcome_bind.
  destruct (outcome (body x)) as [x'|e'] eqn:Hx.
  - rewrite outcome_bind.
    destruct (outcome (for_of body l)) as [l'|e'] eqn:Hl; [discriminate|].
    intros [= ->]. destruct (IH eq_refl) as (y & Hy & Ey). eauto.
  - intros [= ->]. eauto.
Qed.

Lemma for_of_throw body l x e :
  In x l -> outcome (body x) = Throw e ->
  exists e', outcome (for_of body l) = Throw e'.
Proof.
  intros Hin Hx.
  destruct (outcome (for_of body l)) as [l'|e'] eqn:Hl; [|eauto].
  apply for_of_normal in Hl.
  apply In_nth_error in Hin as [i Hi].
  destruct (Forall2_nth_error_l _ _ _ _ _ Hl Hi) as (x' & _ & Hx').
  congruence.
Qed.

Lemma for_of_silent body l :
  (forall x, snd (body x) = []) -> snd (for_of body l) = [].
Proof.
  intros Hb. induction l as [|x l IH]; simpl; [reflexivity|].
  unfold bind. specialize (Hb x). destruct (body x) as [[x'|e] t]; simpl in Hb; subst t.
  - destruct (for_of body l) as [[l'|e] t']; simpl in IH; subst t'; reflexivity.
  - reflexivity.
Qed.

Lemma mock_company_throws c e :
  outcome (mock_company c) = Throw e <-> c = JNull /\ e = TypeError.
Proof.
  rewrite mock_company_closed. destruct c; simpl; unfold outcome; simpl; split;
    try discriminate; try (intros [H _]; discriminate H).
  - intros [= <-]. auto.
  - intros [_ ->]. reflexivity.
Qed.

Lemma mock_company_silent c : snd (mock_company c) = [].
Proof. rewrite mock_company_closed. now destruct (is_null c). Qed.

(** X4 -- [mock_companies] throws exactly when its argument is an array
    with a [null] element ([company.permissions] of [null]); the exception
    is then a TypeError.  The optional chaining protects against a missing
    [permissions], not against a missing company. *)
Theorem mock_companies_throws_iff_null_element (v : value) (e : error) :
  outcome (mock_companies v) = Throw e <->
  e = TypeError /\ exists es, v = JArr es /\ In JNull es.
Proof.
  rewrite mock_companies_outcome. split.
  - destruct v as [| b | n | s | es | fs]; try discriminate.
    destruct (outcome (for_of mock_company es)) as [es'|e'] eqn:F; [discriminate|].
    intros [= ->].
    apply for_of_throw_inv in F as (x & Hin & Hx).
    apply mock_company_throws in Hx as [-> ->]. eauto.
  - intros [-> (es & -> & Hin)].
    destruct (for_of_throw mock_company es JNull TypeError Hin) as [e' He'].
    { now apply mock_company_throws. }
    rewrite He'.
    apply for_of_throw_inv in He' as (x & _ & Hx).
    apply mock_company_throws in Hx as [_ ->]. reflexivity.
Qed.

(** X5 -- [mock_companies] logs the label and the response before the loop,
    and the label and the response after it; when the loop throws, only the
    first two entries exist.  The loop itself logs nothing. *)
Theorem mock_companies_logs (v : value) :
  mock_companies v
  = match outcome (mock_companies v) with
    | Normal v' =>
        (Normal v',
         [EvLog (LStr (lit "Companies original response:")); EvLog (LVal v);
          EvLog (LStr (lit "Companies mocked response:")); EvLog (LVal v')])
    | Throw e =>
        (Throw e,
         [EvLog (LStr (lit "Companies original response:")); EvLog (LVal v)])
    end.
Proof.
  rewrite mock_companies_outcome. unfold mock_companies.
  destruct v as [| b | n | s | es | fs]; try reflexivity.
  destruct es as [|x es]; [reflexivity|].
  replace (0 <? Z.of_nat (List.length (x :: es))) with true
    by (symmetry; apply Z.ltb_lt; simpl; lia).
  pose proof (for_of_silent mock_company (x :: es) mock_company_silent) as S.
  unfold outcome.
  destruct (for_of mock_company (x :: es)) as [[es'|e] t]; simpl in S; subst t;
    reflexivity.
Qed.

(* ===================================================================== *)
(** ** [mock_companies]: where it writes, and where it does not *)
(* ===================================================================== *)

(** X6 -- When no element of the response is [null] and in no element
    [permissions.attendance] or [permissions.payroll] is truthy (the
    property or [permissions] itself is missing, or is [null], [false], [0]
    or the empty string), [mock_companies] returns normally and leaves the
    whole response as it was; so does it on a response that is no array, or
    an empty one. *)
Theorem mock_companies_falsy_holders_unchanged (v : value) :
  (forall i c, lookup [Idx i] v = Some c ->
     c <> JNull /\
     truthy (lookup [Key (lit "permissions"); Key (lit "attendance")] c) = false /\
     truthy (lookup [Key (lit "permissions"); Key (lit "payroll")] c) = false) ->
  outcome (mock_companies v) = Normal v.
Proof.
  intros H. rewrite mock_companies_outcome.
  destruct v as [| b | n | s | es | fs]; try reflexivity.
  assert (F : Forall2 (fun x x' => outcome (mock_company x) = Normal x') es es).
  { assert (Hall : forall c, In c es -> outcome (mock_company c) = Normal c).
    { intros c Hin. apply In_nth_error in Hin as [i Hi].
      destruct (H i c) as (Hn & Ha & Hb); [simpl; now rewrite Hi|].
      rewrite mock_company_closed. destruct c; try congruence;
        simpl is_null; cbv iota; unfold outcome; simpl;
        now rewrite company_fix_falsy. }
    clear H. induction es as [|x es IH]; constructor.
    - apply Hall. now left.
    - apply IH. intros c Hc. apply Hall. now right. }
  apply for_of_normal in F. now rewrite F.
Qed.

Lemma mock_companies_falsy_holders_unchanged_witness :
  let v := JArr [JObj [(lit "permissions",
                         JObj [(lit "attendance", JNull); (lit "payroll", JNum 0)])];
                 JObj [(lit "id", JNum 3)];
                 JStr (lit "x")] in
  outcome (mock_companies v) = Normal v.
Proof.
  intros v. apply (mock_companies_falsy_holders_unchanged v).
  intros [|[|[|i]]] c H; cbn in H; try (destruct i; discriminate H);
    injection H as <-; (split; [discriminate|split; reflexivity]).
Defined.

Lemma company_fix_holder c holder flag hf :
  In (holder, flag) [(lit "attendance", lit "approve");
                     (lit "payroll", lit "edit_supplements")] ->
  lookup [Key (lit "permissions"); Key holder] c = Some (JObj hf) ->
  lookup [Key (lit "permissions"); Key holder] (company_fix c)
  = Some (JObj (Obj.set flag (JBool true) hf)).
Proof.
  intros Hin.
  destruct c as [| b | n | s | es | fs]; try discriminate.
  unfold company_fix, grant_in. rewrite on_permissions_compose.
  unfold on_permissions.
  destruct (Obj.assoc (lit "permissions") fs) as [p|] eqn:Hp;
    [|simpl; rewrite Hp; discriminate].
  destruct p as [| b | n | s | es | perms]; try (simpl; rewrite Hp; discriminate).
  intros H. rewrite lookup_replace by congruence.
  assert (Hh : Obj.assoc holder perms = Some (JObj hf)).
  { simpl in H. rewrite Hp in H. destruct (Obj.assoc holder perms); congruence. }
  clear H. cbn [lookup].
  destruct Hin as [[= <- <-]|[[= <- <-]|[]]].
  - rewrite assoc_grant_other by reflexivity.
    now rewrite (assoc_grant_same _ _ _ _ Hh).
  - erewrite assoc_grant_same; [reflexivity|].
    now rewrite assoc_grant_other by reflexivity.
Qed.

(** X7 -- The flag is created when it is missing: if
    [permissions.attendance] (resp. [permissions.payroll]) of an element is
    an object without [approve] (resp. [edit_supplements]), an empty object
    included, then after [mock_companies] that object has its former
    properties followed by the flag, set to [true]. *)
Theorem mock_companies_creates_missing_flag
    (v v' : value) (i : nat) (holder flag : jsstring) (hf : list (jsstring * value)) :
  In (holder, flag) [(lit "attendance", lit "approve");
                     (lit "payroll", lit "edit_supplements")] ->
  outcome (mock_companies v) = Normal v' ->
  lookup [Idx i; Key (lit "permissions"); Key holder] v = Some (JObj hf) ->
  Obj.assoc flag hf = None ->
  lookup [Idx i; Key (lit "permissions"); Key holder] v'
  = Some (JObj (hf ++ [(flag, JBool true)])).
Proof.
  intros Hin Hm Hl Hf.
  destruct v as [| b | n | s | es | fs]; try discriminate.
  apply mock_companies_elements in Hm as (es' & -> & F).
  rewrite (lookup_elements company_fix es es' i _ F).
  cbn [lookup] in Hl.
  destruct (nth_error es i) as [c|]; [|discriminate].
  change (lookup [Key (lit "permissions"); Key holder] c = Some (JObj hf)) in Hl.
  rewrite (company_fix_holder c holder flag hf Hin Hl).
  unfold Obj.set. apply has_false_assoc in Hf. rewrite Hf.
  destruct Hin as [[= <- <-]|[[= <- <-]|[]]]; reflexivity.
Qed.

Lemma mock_companies_creates_missing_flag_witness :
  let v := JArr [JObj [(lit "permissions",
                         JObj [(lit "payroll", JObj [(lit "read", JBool false)])])]] in
  let v' := JArr [JObj [(lit "permissions",
                          JObj [(lit "payroll",
                                  JObj [(lit "read", JBool false);
                                        (lit "edit_supplements", JBool true)])])]] in
  outcome (mock_companies v) = Normal v' /\
  lookup [Idx 0; Key (lit "permissions"); Key (lit "payroll")] v'
  = Some (JObj ([(lit "read", JBool false)] ++ [(lit "edit_supplements", JBool true)])).
Proof.
  intros v v'.
  assert (Hm : outcome (mock_companies v) = Normal v') by (vm_compute; reflexivity).
  split; [exact Hm|].
  apply (mock_companies_creates_missing_flag
           v v' 0 (lit "payroll") (lit "edit_supplements") [(lit "read", JBool false)]).
  - right. left. reflexivity.
  - exact Hm.
  - reflexivity.
  - reflexivity.
Defined.

Lemma grant_plain holder flag perms :
  plain (Obj.assoc holder perms) -> grant holder flag perms = perms.
Proof.
  unfold grant, plain. destruct (Obj.assoc holder perms) as [x|] eqn:E; [|reflexivity].
  intros H. destruct (truthy (Some x)); [|reflexivity].
  destruct x; try contradiction; cbn [set_flag]; now apply replace_same.
Qed.

Lemma company_fix_plain c :
  plain (lookup [Key (lit "permissions"); Key (lit "attendance")] c) ->
  plain (lookup [Key (lit "permissions"); Key (lit "payroll")] c) ->
  company_fix c = c.
Proof.
  destruct c as [| b | n | s | es | fs]; try reflexivity.
  unfold company_fix, grant_in. rewrite on_permissions_compose.
  unfold on_permissions. cbn [lookup].
  destruct (Obj.assoc (lit "permissions") fs) as [p|] eqn:Hp; [|reflexivity].
  destruct p as [| b | n | s | es | perms]; try reflexivity.
  intros Ha Hb.
  assert (Ha' : plain (Obj.assoc (lit "attendance") perms))
    by (destruct (Obj.assoc (lit "attendance") perms); exact Ha).
  assert (Hb' : plain (Obj.assoc (lit "payroll") perms))
    by (destruct (Obj.assoc (lit "payroll") perms); exact Hb).
  rewrite (grant_plain _ _ _ Ha'), (grant_plain _ _ _ Hb').
  now rewrite (replace_same _ _ _ Hp).
Qed.

(** X8 -- [mock_companies] changes an element only below an object: an
    element in which neither [permissions.attendance] nor
    [permissions.payroll] is an object or an array is, after a run that
    returns, exactly what it was.  This holds in particular when such a
    property is a truthy primitive ([true], a number, a string): the
    assignment to a property of a primitive is dropped and nothing fails. *)
Theorem company_without_object_holder_is_kept (v v' : value) (i : nat) (c : value) :
  outcome (mock_companies v) = Normal v' ->
  lookup [Idx i] v = Some c ->
  plain (lookup [Key (lit "permissions"); Key (lit "attendance")] c) ->
  plain (lookup [Key (lit "permissions"); Key (lit "payroll")] c) ->
  lookup [Idx i] v' = Some c.
Proof.
  intros Hm Hl Ha Hb.
  destruct v as [| b | n | s | es | fs]; try discriminate.
  apply mock_companies_elements in Hm as (es' & -> & F).
  rewrite (lookup_elements company_fix es es' i _ F).
  cbn [lookup] in Hl. destruct (nth_error es i) as [x|]; [|discriminate].
  injection Hl as ->. cbn [lookup]. now rewrite company_fix_plain.
Qed.

Lemma company_without_object_holder_is_kept_witness :
  let c := JObj [(lit "permissions",
                   JObj [(lit "attendance", JBool true); (lit "payroll", JStr (lit "all"))])] in
  let v := JArr [JObj [(lit "permissions", JObj [(lit "attendance", JObj [])])]; c] in
  let v' := JArr [JObj [(lit "permissions",
                         JObj [(lit "attendance", JObj [(lit "approve", JBool true)])])]; c] in
  outcome (mock_companies v) = Normal v' /\ lookup [Idx 1] v' = Some c.
Proof.
  intros c v v'.
  assert (Hm : outcome (mock_companies v) = Normal v') by (vm_compute; reflexivity).
  split; [exact Hm|].
  apply (company_without_object_holder_is_kept v v' 1 c Hm).
  - reflexivity.
  - exact I.
  - exact I.
Defined.

(* ===================================================================== *)
(** ** [mock_authorize_policies]: which policies change *)
(* ===================================================================== *)

(** X9 -- A policy is left exactly as it was unless its [policy_key] is a
    string of [MOCK_POLICIES] and its [authorize] is falsy: a policy with
    another key, with a key that is no string, without key, or with a
    truthy [authorize], and an element that is no object, all stay as they
    are. *)
Theorem policy_unchanged_unless_listed_and_falsy
    (v v' : value) (i : nat) (p : value) :
  outcome (mock_authorize_policies v) = Normal v' ->
  lookup [Idx i] v = Some p ->
  includes_value MOCK_POLICIES (lookup [Key (lit "policy_key")] p) = false \/
  truthy (lookup [Key (lit "authorize")] p) = true ->
  lookup [Idx i] v' = Some p.
Proof.
  intros Hm Hl Hc.
  destruct v as [| b | n | s | es | fs]; try discriminate.
  apply mock_authorize_policies_elements in Hm as (es' & -> & F).
  rewrite (lookup_elements policy_fix es es' i _ F).
  cbn [lookup] in Hl. destruct (nth_error es i) as [c|]; [|discriminate].
  injection Hl as ->. cbn [lookup]. now rewrite policy_fix_unchanged.
Qed.

Lemma policy_unchanged_unless_listed_and_falsy_witness :
  let p := JObj [(lit "policy_key", JStr (lit "contracts.Edit"));
                 (lit "authorize", JBool false)] in
  let q := JObj [(lit "policy_key", JStr (lit "contracts.edit"));
                 (lit "authorize", JBool false)] in
  let q' := JObj [(lit "policy_key", JStr (lit "contracts.edit"));
                  (lit "authorize", JBool true)] in
  outcome (mock_authorize_policies (JArr [q; p])) = Normal (JArr [q'; p]) /\
  lookup [Idx 1] (JArr [q'; p]) = Some p.
Proof.
  intros p q q'.
  assert (Hm : outcome (mock_authorize_policies (JArr [q; p])) = Normal (JArr [q'; p]))
    by (vm_compute; reflexivity).
  split; [exact Hm|].
  apply (policy_unchanged_unless_listed_and_falsy (JArr [q; p]) (JArr [q'; p]) 1 p Hm).
  - reflexivity.
  - left. vm_compute. reflexivity.
Defined.

(** X10 -- [authorize] is created when it is missing: a policy whose
    [policy_key] is in [MOCK_POLICIES] and which has no [authorize] property
    has, after [mock_authorize_policies], its former properties followed by
    [authorize], set to [true]. *)
Theorem policy_missing_authorize_is_created
    (v v' : value) (i : nat) (fs : list (jsstring * value)) (key : jsstring) :
  outcome (mock_authorize_policies v) = Normal v' ->
  lookup [Idx i] v = Some (JObj fs) ->
  Obj.assoc (lit "policy_key") fs = Some (JStr key) ->
  In key MOCK_POLICIES ->
  Obj.assoc (lit "authorize") fs = None ->
  lookup [Idx i] v' = Some (JObj (fs ++ [(lit "authorize", JBool true)])).
Proof.
  intros Hm Hl Hk Hin Ha.
  destruct v as [| b | n | s | es | fs0]; try discriminate.
  apply mock_authorize_policies_elements in Hm as (es' & -> & F).
  rewrite (lookup_elements policy_fix es es' i _ F).
  cbn [lookup] in Hl. destruct (nth_error es i) as [c|]; [|discriminate].
  injection Hl as ->. cbn [lookup]. f_equal.
  unfold policy_fix, policy_mocked. rewrite Hk, Ha.
  apply includes_In in Hin. cbn [includes_value]. rewrite Hin.
  cbn [truthy negb andb set_flag]. unfold Obj.set.
  apply has_false_assoc in Ha. now rewrite Ha.
Qed.

Lemma policy_missing_authorize_is_created_witness :
  let fs := [(lit "policy_key", JStr (lit "teams.manage")); (lit "target_id", JNum 4)] in
  let v' := JArr [JObj (fs ++ [(lit "authorize", JBool true)])] in
  outcome (mock_authorize_policies (JArr [JObj fs])) = Normal v' /\
  lookup [Idx 0] v' = Some (JObj (fs ++ [(lit "authorize", JBool true)])).
Proof.
  intros fs v'.
  assert (Hm : outcome (mock_authorize_policies (JArr [JObj fs])) = Normal v')
    by (vm_compute; reflexivity).
  split; [exact Hm|].
  apply (policy_missing_authorize_is_created
           (JArr [JObj fs]) v' 0 fs (lit "teams.manage") Hm).
  - reflexivity.
  - reflexivity.
  - apply includes_In. vm_compute. reflexivity.
  - reflexivity.
Defined.

(** *** Exceptions *)

Lemma to_string_value_error v e : to_string_value v = Throw e -> e = TypeError.
Proof.
  revert e. induction v as [| b | n | s | es IH | fs IH] using value_nested_ind;
    intros e; try discriminate.
  - destruct b; discriminate.
  - cbn [to_string_value].
    induction IH as [|x l Hx Hl IHl]; [discriminate|].
    destruct (match x with JNull => Normal [] | _ => to_string_value x end)
      as [s|e'] eqn:Ex.
    + destruct l as [|y l]; [discriminate|].
      destruct ((fix join (l : list value) : completion jsstring :=
           match l with
           | [] => Normal []
           | x :: l' =>
               match (match x with JNull => Normal [] | _ => to_string_value x end) with
               | Throw e => Throw e
               | Normal s =>
                   match l' with
                   | [] => Normal s
                   | _ => match join l' with
                          | Throw e => Throw e
                          | Normal r => Normal (s ++ lit "," ++ r)
                          end
                   end
               end
           end) (y :: l)) as [r|e''] eqn:Ej; [discriminate|].
      intros [= <-]. now apply IHl.
    + intros [= <-]. destruct x; try discriminate Ex; now apply Hx.
  - cbn [to_string_value]. destruct (Obj.has (lit "toString") fs); [|discriminate].
    now intros [= <-].
Qed.

Lemma show_prop_error p k e :
  outcome (show_prop p k) = Throw e -> e = TypeError.
Proof.
  unfold show_prop. rewrite outcome_bind. unfold outcome, lift. cbn [fst].
  destruct p; cbn [get_prop]; try (intros [= <-]; reflexivity);
    unfold to_string; try discriminate.
  destruct (Obj.assoc k fields) as [x|]; [apply to_string_value_error|discriminate].
Qed.

Lemma policy_line_error p e :
  outcome (policy_line p) = Throw e -> e = TypeError.
Proof.
  unfold policy_line. rewrite outcome_bind.
  destruct (outcome (show_prop p (lit "policy_key"))) eqn:E1;
    [|intros [= <-]; eapply show_prop_error; eassumption].
  rewrite outcome_bind.
  destruct (outcome (show_prop p (lit "authorize"))) eqn:E2;
    [|intros [= <-]; eapply show_prop_error; eassumption].
  rewrite outcome_bind.
  destruct (outcome (show_prop p (lit "target_id"))) eqn:E3;
    [|intros [= <-]; eapply show_prop_error; eassumption].
  rewrite outcome_bind.
  destruct (outcome (show_prop p (lit "target_resource"))) eqn:E4;
    [|intros [= <-]; eapply show_prop_error; eassumption].
  discriminate.
Qed.

Lemma mock_policy_error p e :
  outcome (mock_policy p) = Throw e -> e = TypeError.
Proof.
  rewrite mock_policy_closed. destruct (is_null p); [now intros [= <-]|].
  destruct (outcome (policy_line (policy_fix p))) as [s|e'] eqn:E; [discriminate|].
  intros [= <-]. now apply policy_line_error in E.
Qed.

(** X11 -- [mock_authorize_policies] can fail only on a non-empty array, and
    only with a TypeError (an element is [null], or a logged property has
    no string conversion). *)
Theorem mock_authorize_policies_throws_type_error (v : value) (e : error) :
  outcome (mock_authorize_policies v) = Throw e ->
  e = TypeError /\ exists x es, v = JArr (x :: es).
Proof.
  rewrite mock_authorize_policies_outcome.
  destruct v as [| b | n | s | es | fs]; try discriminate.
  destruct (outcome (for_of mock_policy es)) as [es'|e'] eqn:F; [discriminate|].
  intros [= ->]. apply for_of_throw_inv in F as (x & Hin & Hx).
  apply mock_policy_error in Hx. split; [assumption|].
  destruct es as [|y es]; [destruct Hin|]. eauto.
Qed.

Lemma mock_authorize_policies_throws_type_error_witness :
  let v := JArr [JObj [(lit "policy_key", JStr (lit "goals.read"));
                       (lit "target_id", JObj [(lit "toString", JNum 1)])]] in
  outcome (mock_authorize_policies v) = Throw TypeError /\
  TypeError = TypeError /\ exists x es, v = JArr (x :: es).
Proof.
  intros v.
  assert (Hm : outcome (mock_authorize_policies v) = Throw TypeError)
    by (vm_compute; reflexivity).
  split; [exact Hm|].
  exact (mock_authorize_policies_throws_type_error v TypeError Hm).
Defined.

(** X12 -- A [null] element anywhere in the array makes
    [mock_authorize_policies] throw a TypeError ([policy.policy_key] of
    [null]), whatever the other elements are. *)
Theorem mock_authorize_policies_null_element (es : list value) :
  In JNull es ->
  outcome (mock_authorize_policies (JArr es)) = Throw TypeError.
Proof.
  intros Hin. rewrite mock_authorize_policies_outcome.
  destruct (for_of_throw mock_policy es JNull TypeError Hin eq_refl) as [e' He'].
  rewrite He'. apply for_of_throw_inv in He' as (x & _ & Hx).
  apply mock_policy_error in Hx. now subst.
Qed.

Lemma mock_authorize_policies_null_element_witness :
  outcome (mock_authorize_policies
             (JArr [JObj [(lit "policy_key", JStr (lit "goals.read"))]; JNull; JNum 1]))
  = Throw TypeError.
Proof.
  apply (mock_authorize_policies_null_element
           [JObj [(lit "policy_key", JStr (lit "goals.read"))]; JNull; JNum 1]).
  simpl. right. left. reflexivity.
Defined.

(** *** The log *)

Lemma policy_line_blank p s :
  outcome (policy_line p) = Normal s -> exists s', s = s' ++ [32].
Proof.
  unfold policy_line. rewrite outcome_bind.
  destruct (outcome (show_prop p (lit "policy_key"))) as [k|]; [|discriminate].
  rewrite outcome_bind.
  destruct (outcome (show_prop p (lit "authorize"))) as [a|]; [|discriminate].
  rewrite outcome_bind.
  destruct (outcome (show_prop p (lit "target_id"))) as [i|]; [|discriminate].
  rewrite outcome_bind.
  destruct (outcome (show_prop p (lit "target_resource"))) as [r|]; [|discriminate].
  unfold outcome, ret. cbn [fst]. intros [= <-].
  exists (k ++ lit ", " ++ a ++ lit ", " ++ i ++ r).
  rewrite <- !app_assoc. reflexivity.
Qed.

Lemma policy_mocked_changes p : policy_mocked p = true -> policy_fix p <> p.
Proof.
  intros H. unfold policy_fix. rewrite H.
  destruct p as [| b | n | s | es | fs]; try discriminate.
  unfold policy_mocked in H. apply andb_true_iff in H as [_ H].
  cbn [set_flag]. intros [= E].
  pose proof (assoc_set_same (lit "authorize") (JBool true) fs) as A.
  rewrite E in A. rewrite A in H. discriminate H.
Qed.

Lemma mock_policy_logs_once p p' t :
  mock_policy p = (Normal p', t) -> exists line, t = [EvLog (LStr line)].
Proof.
  rewrite mock_policy_closed. destruct (is_null p); [discriminate|].
  destruct (outcome (policy_line (policy_fix p))) as [s|e]; [|discriminate].
  intros [= <- <-]. eauto.
Qed.

(** X13 -- One pass of the loop of [mock_authorize_policies] that completes
    logs exactly one line, and the line tells whether the policy was
    changed: it ends with [ (mocked)] after the blank of the template when
    the policy was changed, and with that blank when it was not. *)
Theorem mock_policy_marks_changed (p p' : value) (t : list event) :
  mock_policy p = (Normal p', t) ->
  exists line,
    t = [EvLog (LStr line)] /\
    ((p' = p /\ exists s, line = s ++ lit " ") \/
     (p' <> p /\ exists s, line = s ++ lit "  (mocked)")).
Proof.
  rewrite mock_policy_closed. destruct (is_null p); [discriminate|].
  destruct (outcome (policy_line (policy_fix p))) as [s|e] eqn:L; [|discriminate].
  intros [= <- <-]. exists (s ++ policy_suffix p). split; [reflexivity|].
  apply policy_line_blank in L as [s' ->].
  unfold policy_suffix.
  destruct (policy_mocked p) eqn:E.
  - right. split; [now apply policy_mocked_changes|].
    exists s'. now rewrite <- app_assoc.
  - left. split; [unfold policy_fix; now rewrite E|].
    exists s'. now rewrite app_nil_r.
Qed.

Lemma mock_policy_marks_changed_witness :
  let p := JObj [(lit "policy_key", JStr (lit "goals.read")); (lit "authorize", JNum 0);
                 (lit "target_id", JNum 12); (lit "target_resource", JStr (lit "Team"))] in
  let p' := JObj [(lit "policy_key", JStr (lit "goals.read")); (lit "authorize", JBool true);
                  (lit "target_id", JNum 12); (lit "target_resource", JStr (lit "Team"))] in
  mock_policy p = (Normal p', [EvLog (LStr (lit "goals.read, true, 12Team  (mocked)"))]) /\
  exists line,
    [EvLog (LStr (lit "goals.read, true, 12Team  (mocked)"))] = [EvLog (LStr line)] /\
    ((p' = p /\ exists s, line = s ++ lit " ") \/
     (p' <> p /\ exists s, line = s ++ lit "  (mocked)")).
Proof.
  intros p p'.
  assert (Hm : mock_policy p
               = (Normal p', [EvLog (LStr (lit "goals.read, true, 12Team  (mocked)"))]))
    by (vm_compute; reflexivity).
  split; [exact Hm|].
  exact (mock_policy_marks_changed p p' _ Hm).
Defined.

Lemma for_of_mock_policy_lines es es' t :
  for_of mock_policy es = (Normal es', t) ->
  exists lines, t = map (fun s => EvLog (LStr s)) lines /\
                List.length lines = List.length es.
Proof.
  revert es' t. induction es as [|p es IH]; intros es' t.
  - intros [= <- <-]. now exists [].
  - cbn [for_of]. unfold bind at 1.
    destruct (mock_policy p) as [[p'|e] t1] eqn:Hp; [|discriminate].
    apply mock_policy_logs_once in Hp as (line & ->).
    unfold bind.
    destruct (for_of mock_policy es) as [[es1|e] t2]; [|discriminate].
    destruct (IH es1 t2 eq_refl) as (lines & -> & Hlen).
    cbn. intros [= <- <-]. exists (line :: lines). split.
    + cbn. now rewrite app_nil_r.
    + cbn. now rewrite Hlen.
Qed.

(** X14 -- A run of [mock_authorize_policies] that returns has logged
    exactly one line per element of the array, in order, and nothing else;
    on a response that is no array, or an empty one, it logs nothing. *)
Theorem mock_authorize_policies_one_line_per_policy
    (v v' : value) (t : list event) :
  mock_authorize_policies v = (Normal v', t) ->
  exists lines,
    t = map (fun s => EvLog (LStr s)) lines /\
    List.length lines = match v with JArr es => List.length es | _ => 0%nat end.
Proof.
  unfold mock_authorize_policies.
  destruct v as [| b | n | s | es | fs]; try (intros [= <- <-]; now exists []).
  destruct es as [|x es]; [intros [= <- <-]; now exists []|].
  replace (0 <? Z.of_nat (List.length (x :: es))) with true
    by (symmetry; apply Z.ltb_lt; simpl; lia).
  unfold bind.
  destruct (for_of mock_policy (x :: es)) as [[es'|e] t1] eqn:F; [|discriminate].
  cbn. intros [= <- <-].
  destruct (for_of_mock_policy_lines _ _ _ F) as (lines & -> & Hlen).
  exists lines. split; [now rewrite app_nil_r|exact Hlen].
Qed.

Lemma mock_authorize_policies_one_line_per_policy_witness :
  let v := JArr [JObj [(lit "policy_key", JStr (lit "goals.read"))]; JNum 5] in
  let v' := JArr [JObj [(lit "policy_key", JStr (lit "goals.read"));
                        (lit "authorize", JBool true)]; JNum 5] in
  let t := [EvLog (LStr (lit "goals.read, true, undefinedundefined  (mocked)"));
            EvLog (LStr (lit "undefined, undefined, undefinedundefined "))] in
  mock_authorize_policies v = (Normal v', t) /\
  exists lines,
    t = map (fun s => EvLog (LStr s)) lines /\ List.length lines = 2%nat.
Proof.
  intros v v' t.
  assert (Hm : mock_authorize_policies v = (Normal v', t)) by (vm_compute; reflexivity).
  split; [exact Hm|].
  exact (mock_authorize_policies_one_line_per_policy v v' t Hm).
Defined.

(* ===================================================================== *)
(** ** A failed mutation at the level of the response *)
(* ===================================================================== *)

(** X15 -- On both mocked URLs, a body that parses to an array with a
    [null] element is delivered as its decoded text, however many elements
    before the [null] one the loop had already changed: the changes made
    before the exception never reach the page. *)
Theorem null_element_aborts_mutation
    (req : requestDetails) (chunk : bytes) (rest : list bytes) (es : list value) :
  url req = URL_COMPANIES \/ url req = URL_AUTHORIZE_POLICIES ->
  Json.parse (snd (TextDecoder_decode_stream Utf8.init chunk)) = Json.POk (JArr es) ->
  In JNull es ->
  delivered req (chunk :: rest)
  = Some (utf8 (snd (TextDecoder_decode_stream Utf8.init chunk)) ++ List.concat rest).
Proof.
  intros Hu Hp Hin.
  assert (Hn : ~ In (url req) NOT_INTERESTING_URLS).
  { apply includes_not_In. destruct Hu as [-> | ->]; vm_compute; reflexivity. }
  rewrite delivered_first_chunk by assumption. rewrite Hp.
  assert (Ht : outcome (handle_mocking (url req) (JArr es)) = Throw TypeError).
  { destruct Hu as [-> | ->].
    - rewrite handle_mocking_companies, mock_companies_outcome.
      destruct (for_of_throw mock_company es JNull TypeError Hin) as [e' He'].
      { now apply mock_company_throws. }
      rewrite He'. apply for_of_throw_inv in He' as (x & _ & Hx).
      apply mock_company_throws in Hx as [_ ->]. reflexivity.
    - rewrite handle_mocking_authorize_policies, mock_authorize_policies_outcome.
      destruct (for_of_throw mock_policy es JNull TypeError Hin eq_refl) as [e' He'].
      rewrite He'. apply for_of_throw_inv in He' as (x & _ & Hx).
      apply mock_policy_error in Hx. now subst. }
  now rewrite Ht.
Qed.

Lemma null_element_aborts_mutation_witness :
  delivered (mkRequest (lit "7") URL_COMPANIES)
            [utf8 (qlit "[{'permissions':{'payroll':{}}}, null]"); utf8 (qlit "  ")]
  = Some (utf8 (qlit "[{'permissions':{'payroll':{}}}, null]") ++ utf8 (qlit "  ")).
Proof.
  apply (null_element_aborts_mutation
           (mkRequest (lit "7") URL_COMPANIES)
           (utf8 (qlit "[{'permissions':{'payroll':{}}}, null]"))
           [utf8 (qlit "  ")]
           [JObj [(lit "permissions", JObj [(lit "payroll", JObj [])])]; JNull]).
  - left. reflexivity.
  - vm_compute. reflexivity.
  - right. left. reflexivity.
Defined.

(* ===================================================================== *)
(** ** Bytes the decoder keeps or drops *)
(* ===================================================================== *)

Lemma run_encode_cps_app bom cps bs :
  forallb scalar cps = true ->
  Utf8.run (clean bom) (Utf8.encode_cps cps ++ bs)
  = let (st, out) := Utf8.run (clean bom) bs in (st, cps ++ out).
Proof.
  induction cps as [|c cps IH]; cbn [Utf8.encode_cps flat_map app forallb].
  - intros _. now destruct (Utf8.run (clean bom) bs).
  - intros H. apply andb_true_iff in H as [Hc Hr].
    fold (Utf8.encode_cps cps). rewrite <- app_assoc.
    rewrite run_encode_cp by assumption. rewrite IH by assumption.
    now destruct (Utf8.run (clean bom) bs).
Qed.

Lemma encode_to_utf16 cps :
  forallb scalar cps = true -> utf8 (Utf8.to_utf16 cps) = Utf8.encode_cps cps.
Proof. intros H. unfold utf8, TextEncoder_encode. now rewrite of_to_utf16. Qed.

(** X16 -- A byte order mark at the head of the body does not come back:
    when the first chunk is the mark followed by the UTF-8 encoding of a
    text that is not valid JSON, the page receives the bytes of the text
    without the mark (the decoder strips it and the encoder never writes
    one), followed by the rest of the response. *)
Theorem leading_bom_is_dropped
    (req : requestDetails) (cps : list Z) (rest : list bytes) :
  ~ In (url req) NOT_INTERESTING_URLS ->
  forallb scalar cps = true ->
  Json.parse (Utf8.to_utf16 cps) = Json.PSyntax ->
  delivered req ((0xEF :: 0xBB :: 0xBF :: Utf8.encode_cps cps) :: rest)
  = Some (Utf8.encode_cps cps ++ List.concat rest).
Proof.
  intros Hn Hs Hp.
  assert (Hd : snd (TextDecoder_decode_stream Utf8.init
                      (0xEF :: 0xBB :: 0xBF :: Utf8.encode_cps cps))
               = Utf8.to_utf16 cps).
  { unfold TextDecoder_decode_stream. change Utf8.init with (clean false).
    change (0xEF :: 0xBB :: 0xBF :: Utf8.encode_cps cps)
      with (Utf8.encode_cps (0xFEFF :: cps)).
    rewrite run_encode_cps by (cbn [forallb]; now rewrite Hs).
    reflexivity. }
  rewrite delivered_first_chunk by assumption.
  now rewrite Hd, Hp, encode_to_utf16.
Qed.

Lemma leading_bom_is_dropped_witness :
  delivered (mkRequest (lit "7") URL_COMPANIES)
            [[0xEF; 0xBB; 0xBF; 60; 0xC3; 0xA9; 62]; [10]]
  = Some ([60; 0xC3; 0xA9; 62] ++ [10]).
Proof.
  apply (leading_bom_is_dropped (mkRequest (lit "7") URL_COMPANIES) [60; 0xE9; 62] [[10]]).
  - apply includes_not_In. vm_compute. reflexivity.
  - vm_compute. reflexivity.
  - vm_compute. reflexivity.
Defined.

(** X17 -- A character cut by the chunk boundary is damaged: when the
    first chunk is the UTF-8 encoding of a text that is not valid JSON (as
    the first part of a longer body is) followed by the lead byte of a
    multi-byte sequence, the decoder keeps that byte for a next call that
    never comes, and the page receives the response without it. *)
Theorem split_character_loses_its_lead_byte
    (req : requestDetails) (cps : list Z) (b : Z) (rest : list bytes) :
  ~ In (url req) NOT_INTERESTING_URLS ->
  forallb scalar cps = true ->
  hd 0 cps <> 0xFEFF ->
  0xC2 <= b <= 0xF4 ->
  Json.parse (Utf8.to_utf16 cps) = Json.PSyntax ->
  delivered req ((Utf8.encode_cps cps ++ [b]) :: rest)
  = Some (Utf8.encode_cps cps ++ List.concat rest).
Proof.
  intros Hn Hs Hb Hr Hp.
  assert (Hd : snd (TextDecoder_decode_stream Utf8.init (Utf8.encode_cps cps ++ [b]))
               = Utf8.to_utf16 cps).
  { unfold TextDecoder_decode_stream. change Utf8.init with (clean false).
    rewrite run_encode_cps_app by assumption.
    rewrite run_cons, step_clean.
    assert (E : exists st, Utf8.lead (clean false) b = (st, [])
                           /\ Utf8.d_bom_seen st = false).
    { destruct (Z.le_gt_cases b 0xDF); [|destruct (Z.le_gt_cases b 0xEF)].
      - rewrite lead_2 by lia. eauto.
      - rewrite lead_3 by lia. eauto.
      - rewrite lead_4 by lia. eauto. }
    destruct E as (st & -> & Hbom). cbn [Utf8.run app].
    rewrite app_nil_r. unfold Utf8.strip_bom. rewrite Hbom.
    destruct cps as [|c cps]; [reflexivity|].
    cbn [hd] in Hb. apply Z.eqb_neq in Hb. now rewrite Hb. }
  rewrite delivered_first_chunk by assumption.
  now rewrite Hd, Hp, encode_to_utf16.
Qed.

Lemma split_character_loses_its_lead_byte_witness :
  delivered (mkRequest (lit "7") URL_COMPANIES)
            [utf8 (qlit "[{'name':'Ren") ++ [0xC3]; 0xA9 :: utf8 (qlit "'}]")]
  = Some (utf8 (qlit "[{'name':'Ren") ++ 0xA9 :: utf8 (qlit "'}]")).
Proof.
  change (utf8 (qlit "[{'name':'Ren") ++ 0xA9 :: utf8 (qlit "'}]"))
    with (Utf8.encode_cps (qlit "[{'name':'Ren") ++ List.concat [0xA9 :: utf8 (qlit "'}]")]).
  apply (split_character_loses_its_lead_byte
           (mkRequest (lit "7") URL_COMPANIES) (qlit "[{'name':'Ren") 0xC3
           [0xA9 :: utf8 (qlit "'}]")]).
  - apply includes_not_In. vm_compute. reflexivity.
  - vm_compute. reflexivity.
  - vm_compute. discriminate.
  - lia.
  - vm_compute. reflexivity.
Defined.
